(** * duplicate_combiner: the duplicate-detection and consolidation engine

    A shallow embedding of [src/app.py]: subject normalisation
    ([normalize_subject] and its three regular expressions), exact grouping
    ([group_items]), the merge planner and the per-group consolidation loop
    of [main], and the remote access layer ([gql_with_retry],
    [create_subitems], [move_items], [archive_items]).

    Conventions.
    - A Python [str] is a list of characters; a character is a code point
      in the Latin-1 block (0..255), carried by [ascii].  [str.strip], the
      regex class [\s], [str.lower] and [re.IGNORECASE] are the Python 3
      ones restricted to that block.
    - A Python [int] is a [Z]; a [dict] used as a map is a [gmap], a [set]
      is a [gset]; a [dict] whose iteration order is observed is an
      association list in insertion order.
    - Sleeping times are exact rationals ([Q]) in seconds.
    - The remote API is an oracle [remote : Request -> W -> Reply * W] over
      an arbitrary world [W]; every call and every sleep is recorded in a
      trace, and a Python exception is the outcome [Exc]. *)

From Stdlib Require Import ZArith QArith Qminmax Ascii String List Lia Bool
  Permutation Sorted DecimalString.
From stdpp Require Import base decidable countable gmap strings.

Import ListNotations.
Local Open Scope list_scope.
Local Open Scope bool_scope.

(** ** Characters and strings *)

Definition str := list ascii.

(** A string literal. *)
Definition lit (s : string) : str := list_ascii_of_string s.

Definition code (c : ascii) : N := N_of_ascii c.

Definition in_range (lo hi n : N) : bool := (lo <=? n)%N && (n <=? hi)%N.

(** [Py_UNICODE_ISSPACE] on 0..255: tab .. carriage return, the four
    separators 0x1C..0x1F, space, NEL (0x85) and no-break space (0xA0).
    Both [str.strip()] and the regex class [\s] use it. *)
Definition is_space (c : ascii) : bool :=
  let n := code c in
  in_range 9 13 n || in_range 28 32 n || (n =? 133)%N || (n =? 160)%N.

(** [str.lower()] on one code point of 0..255: A-Z and the upper-case
    letters 0xC0..0xDE (but not the multiplication sign 0xD7) move up by
    32, everything else stays.  On a string of such code points
    [str.lower()] is this map, character by character.  Outside the block
    it is not: a code point can lower-case to two, and a capital sigma
    lower-cases by its context.  The properties of [normalize_subject]
    are therefore stated so that they do not rest on the length of a
    lower-cased string or on two names being equal in lower case: a bound
    on the length is on the string before the last [lower()], and letter
    case is that of the letters A-Z. *)
Definition lower_char (c : ascii) : ascii :=
  let n := code c in
  if in_range 65 90 n || (in_range 192 222 n && negb (n =? 215)%N)
  then ascii_of_N (n + 32) else c.

Definition lower (s : str) : str := map lower_char s.

Definition chr_eqb (a b : ascii) : bool := Ascii.eqb a b.

Fixpoint str_eqb (a b : str) : bool :=
  match a, b with
  | [], [] => true
  | x :: a', y :: b' => chr_eqb x y && str_eqb a' b'
  | _, _ => false
  end.

Fixpoint drop_while (p : ascii -> bool) (s : str) : str :=
  match s with
  | [] => []
  | c :: t => if p c then drop_while p t else s
  end.

Fixpoint take_while (p : ascii -> bool) (s : str) : str :=
  match s with
  | [] => []
  | c :: t => if p c then c :: take_while p t else []
  end.

Definition lstrip (s : str) : str := drop_while is_space s.

Fixpoint rstrip (s : str) : str :=
  match s with
  | [] => []
  | c :: t =>
      match rstrip t with
      | [] => if is_space c then [] else [c]
      | t' => c :: t'
      end
  end.

(** [s.strip()] *)
Definition strip (s : str) : str := lstrip (rstrip s).

(** [pat in s] *)
Fixpoint starts_with (pat s : str) : bool :=
  match pat, s with
  | [], _ => true
  | p :: pat', c :: s' => chr_eqb p c && starts_with pat' s'
  | _ :: _, [] => false
  end.

Fixpoint contains (pat s : str) : bool :=
  starts_with pat s ||
  match s with
  | [] => false
  | _ :: t => contains pat t
  end.

(** ** The three regular expressions of [normalize_subject] *)

Definition ch (s : string) : ascii :=
  match s with
  | String c _ => c
  | EmptyString => zero
  end.

(** *** [_BRACKET_TAG_RE]

    The pattern is [^ \s* \[ [^\]]+ \] \s*] (written here with blanks
    between its parts).

    The match, when there is one, starts at position 0; the result is what
    follows it. *)
Definition not_rbracket (c : ascii) : bool := negb (chr_eqb c (ch "]")).

Definition bracket_tag_match (s : str) : option str :=
  match lstrip s with
  | c :: r =>
      if chr_eqb c (ch "[") then
        match take_while not_rbracket r, drop_while not_rbracket r with
        | _ :: _, _ :: r' => Some (lstrip r')
        | _, _ => None
        end
      else None
  | [] => None
  end.

(** [_BRACKET_TAG_RE.sub("", s)] *)
Definition bracket_sub (s : str) : str :=
  match bracket_tag_match s with
  | Some r => r
  | None => s
  end.

(** *** [_PREFIX_RE], with IGNORECASE

    The pattern is [^ \s* ( (re|fw|fwd|aw|sv|rv|ref|res) \s* [:\]] \s* )+]
    (written here with blanks between its parts). *)
Definition prefix_tokens : list str :=
  map lit ["re"; "fw"; "fwd"; "aw"; "sv"; "rv"; "ref"; "res"]%string.

(** A lower-case literal of the pattern against the text, ignoring case. *)
Fixpoint istarts_with (tok s : str) : option str :=
  match tok, s with
  | [], _ => Some s
  | p :: tok', c :: s' =>
      if chr_eqb (lower_char c) p then istarts_with tok' s' else None
  | _ :: _, [] => None
  end.

Definition is_colon_or_rbracket (c : ascii) : bool :=
  chr_eqb c (ch ":") || chr_eqb c (ch "]").

(** One alternative of the group, then blanks, [:] or [\]], then blanks. *)
Definition prefix_group_with (tok s : str) : option str :=
  match istarts_with tok s with
  | Some r =>
      match lstrip r with
      | c :: r' => if is_colon_or_rbracket c then Some (lstrip r') else None
      | [] => None
      end
  | None => None
  end.

(** The alternation, tried in the order of the pattern. *)
Fixpoint first_match (toks : list str) (s : str) : option str :=
  match toks with
  | [] => None
  | tok :: toks' =>
      match prefix_group_with tok s with
      | Some r => Some r
      | None => first_match toks' s
      end
  end.

Definition prefix_group (s : str) : option str := first_match prefix_tokens s.

(** The greedy repetition: as many further groups as there are. *)
Fixpoint prefix_groups (fuel : nat) (s : str) : str :=
  match fuel with
  | O => s
  | S f =>
      match prefix_group s with
      | Some r => prefix_groups f r
      | None => s
      end
  end.

Definition prefix_match (s : str) : option str :=
  match prefix_group (lstrip s) with
  | Some r => Some (prefix_groups (length r) r)
  | None => None
  end.

(** [_PREFIX_RE.sub("", s)] *)
Definition prefix_sub (s : str) : str :=
  match prefix_match s with
  | Some r => r
  | None => s
  end.

(** *** [_TRAILING_PARENS_RE]

    The pattern is [\s* [\(\[\{] [^\)\]\}]* [\)\]\}] \s* $] (written here
    with blanks between its parts).

    Not anchored on the left: the search tries every start position from
    the left, and a match runs to the end of the string. *)
Definition is_opener (c : ascii) : bool :=
  chr_eqb c (ch "(") || chr_eqb c (ch "[") || chr_eqb c (ch "{").

Definition is_closer (c : ascii) : bool :=
  chr_eqb c (ch ")") || chr_eqb c (ch "]") || chr_eqb c (ch "}").

Definition not_closer (c : ascii) : bool := negb (is_closer c).

(** Does the pattern match the whole of [s] (a match that starts here)? *)
Definition trailing_here (s : str) : bool :=
  match lstrip s with
  | c :: r =>
      is_opener c &&
      match drop_while not_closer r with
      | _ :: r' => forallb is_space r'
      | [] => false
      end
  | [] => false
  end.

(** [_TRAILING_PARENS_RE.sub("", s)] *)
Fixpoint trailing_sub (s : str) : str :=
  if trailing_here s then []
  else match s with
       | [] => []
       | c :: t => c :: trailing_sub t
       end.

(** *** [re.sub(r"\s+", " ", s)] *)
Fixpoint collapse_from (in_run : bool) (s : str) : str :=
  match s with
  | [] => []
  | c :: t =>
      if is_space c
      then if in_run then collapse_from true t
           else ch " " :: collapse_from true t
      else c :: collapse_from false t
  end.

Definition collapse_ws (s : str) : str := collapse_from false s.

(** *** [re.sub(r"[-:|]+$", "", s)]

    [$] is the end of the string or the place before a final newline. *)
Definition is_dash (c : ascii) : bool :=
  chr_eqb c (ch "-") || chr_eqb c (ch ":") || chr_eqb c (ch "|").

Definition newline : ascii := ascii_of_N 10.

Definition dash_here (s : str) : option str :=
  match s with
  | c :: t =>
      if is_dash c then
        match drop_while is_dash t with
        | [] => Some []
        | [n] => if chr_eqb n newline then Some [n] else None
        | _ => None
        end
      else None
  | [] => None
  end.

Fixpoint dash_sub (s : str) : str :=
  match dash_here s with
  | Some r => r
  | None =>
      match s with
      | [] => []
      | c :: t => c :: dash_sub t
      end
  end.

(** ** [normalize_subject] *)

(** [while True: n = sub(s); if n == s: break; s = n.strip()].  Every
    replacement shortens the string, so [S (length s)] rounds are enough
    (lemma [sub_loop_fixed]). *)
Fixpoint sub_loop (sub : str -> str) (fuel : nat) (s : str) : str :=
  match fuel with
  | O => s
  | S f =>
      let n := sub s in
      if str_eqb n s then s else sub_loop sub f (strip n)
  end.

Definition strip_loop (sub : str -> str) (s : str) : str :=
  sub_loop sub (S (length s)) s.

(** The string after the loop that strips the leading tags. *)
Definition after_tags (s : str) : str := strip_loop bracket_sub (strip s).

(** The string after the loop that strips the reply/forward prefixes. *)
Definition after_prefixes (s : str) : str :=
  strip_loop prefix_sub (after_tags s).

(** The string after the loop that drops the trailing qualifiers. *)
Definition after_qualifiers (s : str) : str :=
  strip_loop trailing_sub (after_prefixes s).

Definition normalize_subject (s : str) : str :=
  match s with
  | [] => []
  | _ =>
      let s4 := after_qualifiers s in
      let s5 := strip (collapse_ws s4) in
      let s6 := strip (dash_sub s5) in
      lower s6
  end.

(** *** Statements about strings *)

(** A replacement that, when it changes the string, shortens it. *)
Definition shrinks (sub : str -> str) : Prop :=
  forall s, sub s <> s -> (length (sub s) < length s)%nat.

(** The string begins with no reply/forward prefix: [_PREFIX_RE] does not
    match it. *)
Definition no_prefix (s : str) : Prop := prefix_group (lstrip s) = None.

(** The string begins with no bracketed tag: [_BRACKET_TAG_RE] does not
    match it. *)
Definition no_tag (s : str) : Prop := bracket_tag_match s = None.

(** A tag stands at the head of [s]: "[", a character other than "]", and
    a "]" further on. *)
Definition tag_at (s : str) : bool :=
  match s with
  | c :: d :: t =>
      chr_eqb c (ch "[") && not_rbracket d
      && existsb (fun x => chr_eqb x (ch "]")) t
  | _ => false
  end.

(** [A-Z] to [a-z], every other character as it is. *)
Definition ascii_lower_char (c : ascii) : ascii :=
  if in_range 65 90 (code c) then ascii_of_N (code c + 32) else c.

(** The name with its letters [A-Z] put in lower case. *)
Definition ascii_lower (s : str) : str := map ascii_lower_char s.

(** Every blank of the string is a single space: [re.sub(r"\s+", " ", s)]
    leaves it alone ([in_run]: the character before was a blank). *)
Fixpoint collapsed_from (in_run : bool) (s : str) : bool :=
  match s with
  | [] => true
  | c :: t =>
      if is_space c
      then negb in_run && chr_eqb c (ch " ") && collapsed_from true t
      else collapsed_from false t
  end.

(** ** Python lists, comparisons and sorting *)

(** [l[:n]] for a Python integer [n] (a negative [n] counts from the end). *)
Definition slice_to {A} (n : Z) (l : list A) : list A :=
  if (0 <=? n)%Z then firstn (Z.to_nat n) l
  else firstn (length l - Z.to_nat (- n)) l.

(** [[l[off:off+n] for off in range(0, len(l), n)]] *)
Fixpoint chunks_fuel {A} (fuel n : nat) (l : list A) : list (list A) :=
  match fuel, l with
  | _, [] => []
  | O, _ => []
  | S f, _ => firstn n l :: chunks_fuel f n (skipn n l)
  end.

Definition chunks {A} (n : nat) (l : list A) : list (list A) :=
  chunks_fuel (length l) n l.

(** Comparison of two [str] values: code point by code point. *)
Fixpoint str_compare (a b : str) : comparison :=
  match a, b with
  | [], [] => Eq
  | [], _ :: _ => Lt
  | _ :: _, [] => Gt
  | x :: a', y :: b' =>
      match (code x ?= code y)%N with
      | Eq => str_compare a' b'
      | o => o
      end
  end.

(** [(i1, s1) <= (i2, s2)] on tuples of an [int] and a [str]. *)
Definition key_leb (k1 k2 : Z * str) : bool :=
  match (fst k1 ?= fst k2)%Z with
  | Lt => true
  | Gt => false
  | Eq => match str_compare (snd k1) (snd k2) with
          | Gt => false
          | _ => true
          end
  end.

(** [list.sort(key=...)]: a stable sort, here by insertion. *)
Fixpoint insert_by {A} (key : A -> Z * str) (x : A) (l : list A) : list A :=
  match l with
  | [] => [x]
  | y :: l' =>
      if key_leb (key x) (key y) then x :: l else y :: insert_by key x l'
  end.

Fixpoint sort_by {A} (key : A -> Z * str) (l : list A) : list A :=
  match l with
  | [] => []
  | x :: l' => insert_by key x (sort_by key l')
  end.

(** ** Items and exact grouping *)

Record Item := mkItem {
  item_id : str;                 (* str(it["id"]) *)
  item_name : str;               (* it.get("name", "") *)
  item_created_at : option str;  (* it.get("created_at") *)
  item_group : option str        (* (it.get("group") or {}).get("id") *)
}.

Record Shaped := mkShaped {
  sh_id : str;
  sh_name : str;
  subject_norm : str;
  created_at_ts : Z;
  sh_group_id : option str
}.

Record Group := mkGroup {
  g_subject_norm : str;
  item_ids_oldest_first : list str;
  count : Z
}.

Definition ends_with (suffix s : str) : bool :=
  starts_with (rev suffix) (rev s).

(** Insertion into [by_subj]: [by_subj.setdefault(key, []).append(it)],
    the keys kept in the order of their first insertion. *)
Fixpoint setdefault_append {A} (key : str) (x : A)
    (d : list (str * list A)) : list (str * list A) :=
  match d with
  | [] => [(key, [x])]
  | (k, arr) :: d' =>
      if str_eqb k key then (k, arr ++ [x]) :: d'
      else (k, arr) :: setdefault_append key x d'
  end.

Section Grouping.

(** The two date parsers of [ts], from Python's [datetime]: the epoch
    seconds of the parsed time, [None] when parsing raises. *)
Variable strptime_utc : str -> option Z.
Variable fromisoformat : str -> option Z.

Definition ts (s : option str) : Z :=
  match s with
  | Some s' =>
      if negb (str_eqb s' []) && ends_with (lit "Z") s'
      then default 0%Z (strptime_utc s')
      else default 0%Z (fromisoformat s')
  | None => 0%Z
  end.

Definition shape (it : Item) : Shaped :=
  {| sh_id := item_id it;
     sh_name := item_name it;
     subject_norm := normalize_subject (item_name it);
     created_at_ts := ts (item_created_at it);
     sh_group_id := item_group it |}.

Definition by_subj_of (shaped : list Shaped) : list (str * list Shaped) :=
  fold_left (fun d it => setdefault_append (subject_norm it) it d) shaped [].

Definition group_of (entry : str * list Shaped) : Group :=
  let arr := sort_by (fun x => (created_at_ts x, sh_id x)) (snd entry) in
  {| g_subject_norm := fst entry;
     item_ids_oldest_first := map sh_id arr;
     count := Z.of_nat (length arr) |}.

(** [{x["id"]: x["name"] for x in shaped}]: a later item wins. *)
Definition id_to_name_of (shaped : list Shaped) : gmap str str :=
  fold_left (fun m x => <[sh_id x := sh_name x]> m) shaped ∅.

Definition group_items (items : list Item) : list Group * gmap str str :=
  let shaped := map shape items in
  let grouped := map group_of (by_subj_of shaped) in
  (sort_by (fun g => ((- count g)%Z, g_subject_norm g)) grouped,
   id_to_name_of shaped).

End Grouping.

(** ** The remote access layer *)

(** What [gql] is asked.  The query text and its variables are kept as the
    data they carry: the parent and the names of a [create_subitem]
    mutation, the ids and the target group of a [move_item_to_group]
    mutation, the ids of an [archive_item] mutation. *)
Inductive Request :=
| QSubitems (parent : str)
| MCreateBatch (parent : str) (names : list str)
| MCreateSingle (parent : str) (name : str)
| MMove (ids : list str) (group_id : str)
| MArchive (ids : list str).

(** What [gql] gives back: the data (for [QSubitems], the names of the
    parent's child records), or an exception with its message. *)
Inductive Reply :=
| RData (subitem_names : list str)
| RError (msg : str).

Inductive Event :=
| EvGql (req : Request) (rep : Reply)
| EvSleep (seconds : Q)
| EvCluster (fed : list Item)
| EvPrintFailed (parent name error : str).

(** The outcome of a computation that may raise. *)
Inductive Res (A : Type) :=
| Ret (a : A)
| Exc (msg : str).
Arguments Ret {A} a.
Arguments Exc {A} msg.

Definition str_of_nat (n : nat) : str :=
  lit (NilEmpty.string_of_uint (Nat.to_uint n)).

(** [_sanitize_name] *)
Definition _sanitize_name (name fallback : str) : str :=
  let nm := strip name in
  let nm := match nm with [] => fallback | _ => nm end in
  if (255 <? length nm)%nat then firstn 255 nm else nm.

(** [enumerate(l)] *)
Definition enumerate {A} (l : list A) : list (nat * A) :=
  combine (seq 0 (length l)) l.

Definition clean_names_of (names : list str) : list str :=
  List.filter (fun nm => negb (str_eqb nm []))
    (map (fun p => _sanitize_name (snd p)
                     (lit "Item " ++ str_of_nat (fst p + 1)))
         (enumerate names)).

(** The test of [gql_with_retry] on the message of the exception. *)
Definition transient (msg : str) : bool :=
  contains (lit "TooManyConcurrentRequestsException") msg
  || contains (lit "Failed to lock item id for graphql mutation") msg
  || contains (lit "status_code': 429") msg
  || contains (lit "HTTP 429") msg.

Section Remote.

(** The world behind the API and its answers. *)
Variable W : Type.
Variable remote : Request -> W -> Reply * W.
(** The semantic clusterer [ai_cluster_items] (embeddings and cosine
    similarity in floating point): an oracle that returns clusters with
    their label, or raises. *)
Variable cluster_oracle : list Item -> W -> Res (list Group) * W.

(** A computation: from a world to an outcome, the next world and the
    events it emitted, in order. *)
Definition M (A : Type) : Type := W -> Res A * W * list Event.

Definition ret {A} (a : A) : M A := fun w => (Ret a, w, []).

Definition raise {A} (msg : str) : M A := fun w => (Exc msg, w, []).

Definition bind {A B} (m : M A) (f : A -> M B) : M B :=
  fun w =>
    match m w with
    | (Ret a, w1, t1) =>
        match f a w1 with
        | (r, w2, t2) => (r, w2, t1 ++ t2)
        end
    | (Exc e, w1, t1) => (Exc e, w1, t1)
    end.

(** [try: m except Exception as e: h(str(e))] *)
Definition try_except {A} (m : M A) (h : str -> M A) : M A :=
  fun w =>
    match m w with
    | (Ret a, w1, t1) => (Ret a, w1, t1)
    | (Exc e, w1, t1) =>
        match h e w1 with
        | (r, w2, t2) => (r, w2, t1 ++ t2)
        end
    end.

Definition emit (ev : Event) : M unit := fun w => (Ret tt, w, [ev]).

Notation "x <- m ;; k" := (bind m (fun x => k))
  (at level 100, m at next level, right associativity).
Notation "m ;;; k" := (bind m (fun _ => k))
  (at level 100, right associativity).

(** [gql(query, variables)] *)
Definition gql (req : Request) : M (list str) :=
  fun w =>
    match remote req w with
    | (RData d, w') => (Ret d, w', [EvGql req (RData d)])
    | (RError msg, w') => (Exc msg, w', [EvGql req (RError msg)])
    end.

(** [time.sleep(seconds)] *)
Definition sleep (seconds : Q) : M unit := emit (EvSleep seconds).

(** [gql_with_retry]: the body of [for attempt in range(max_retries)],
    with [left] rounds to go.  When the range is exhausted without a
    [return] the function returns [None]. *)
Fixpoint retry_from (max_retries left attempt : nat) (delay : Q)
    (req : Request) : M (option (list str)) :=
  match left with
  | O => ret None
  | S left' =>
      try_except
        (d <- gql req ;; ret (Some d))
        (fun msg =>
           if transient msg && (attempt + 1 <? max_retries)%nat then
             sleep (delay + (1 # 10) * inject_Z (Z.of_nat attempt)) ;;;
             retry_from max_retries left' (S attempt)
               (Qmin (delay * 2) 5) req
           else raise msg)
  end.

Definition gql_with_retry_n (max_retries : nat) (req : Request)
    : M (option (list str)) :=
  retry_from max_retries max_retries 0 (1 # 2) req.

(** [max_retries: int = 5] *)
Definition gql_with_retry (req : Request) : M (option (list str)) :=
  gql_with_retry_n 5 req.

(** [for x in l: body(x)] *)
Fixpoint for_each {A} (l : list A) (body : A -> M unit) : M unit :=
  match l with
  | [] => ret tt
  | x :: l' => body x ;;; for_each l' body
  end.

(** [get_existing_subitem_names] *)
Definition existing_of (names : list str) : gset str :=
  list_to_set (List.filter (fun nm => negb (str_eqb nm []))
                           (map strip names)).

Definition get_existing_subitem_names (parent : str) : M (gset str) :=
  names <- gql (QSubitems parent) ;; ret (existing_of names).

(** [create_subitems] *)
Definition create_single (parent nm : str) : M unit :=
  try_except
    (gql_with_retry (MCreateSingle parent nm) ;;; sleep (1 # 20))
    (fun e2 => emit (EvPrintFailed parent nm e2)).

Definition create_chunk (parent : str) (chunk : list str) : M unit :=
  try_except
    (gql_with_retry (MCreateBatch parent chunk) ;;; sleep (1 # 10))
    (fun _ => for_each chunk (create_single parent)).

Definition create_subitems (parent : str) (names : list str) : M unit :=
  match clean_names_of names with
  | [] => ret tt
  | clean_names => for_each (chunks 20 clean_names) (create_chunk parent)
  end.

(** [move_items] *)
Definition move_items (ids : list str) (group_id : str) : M unit :=
  match ids with
  | [] => ret tt
  | _ =>
      for_each (chunks 5 ids)
        (fun chunk =>
           gql_with_retry (MMove chunk group_id) ;;; sleep (1 # 10))
  end.

(** [archive_items] *)
Definition archive_items (ids : list str) : M unit :=
  match ids with
  | [] => ret tt
  | _ =>
      for_each (chunks 10 ids)
        (fun chunk => gql_with_retry (MArchive chunk) ;;; sleep (1 # 10))
  end.

(** [ai_cluster_items(raw_items, ...)] *)
Definition ai_cluster_items (raw_items : list Item) : M (list Group) :=
  fun w =>
    match cluster_oracle raw_items w with
    | (r, w') => (r, w', [EvCluster raw_items])
    end.

(** ** Configuration *)

Record Config := mkConfig {
  GROUPING : str;
  MIN_COUNT : Z;
  MAX_GROUPS : Z;
  MAX_CHILDREN : Z;
  AFTER_ACTION : str;
  MOVE_GROUP_ID : str
}.

(** ** The merge planner (lines 409-436 of [main]) *)

Variable strptime_utc : str -> option Z.
Variable fromisoformat : str -> option Z.

Definition grouped_exact (items : list Item) : list Group :=
  fst (group_items strptime_utc fromisoformat items).

Definition id_to_name (items : list Item) : gmap str str :=
  snd (group_items strptime_utc fromisoformat items).

(** [[g for g in grouped_exact if g["count"] >= MIN_COUNT]] *)
Definition exact_first (cfg : Config) (items : list Item) : list Group :=
  List.filter (fun g => (MIN_COUNT cfg <=? count g)%Z) (grouped_exact items).

Definition used_ids (cfg : Config) (items : list Item) : gset str :=
  fold_left (fun u g => u ∪ list_to_set (item_ids_oldest_first g))
            (exact_first cfg items) ∅.

Definition leftovers (cfg : Config) (items : list Item) : list Item :=
  List.filter (fun it => negb (bool_decide (item_id it ∈ used_ids cfg items)))
              items.

Definition plan_exact (cfg : Config) (items : list Item) : M (list Group) :=
  ret (slice_to (MAX_GROUPS cfg) (exact_first cfg items)).

Definition plan_ai (cfg : Config) (items : list Item) : M (list Group) :=
  ai_groups <- ai_cluster_items items ;;
  ret (slice_to (MAX_GROUPS cfg) ai_groups).

Definition plan_hybrid (cfg : Config) (items : list Item) : M (list Group) :=
  ai_groups <- ai_cluster_items (leftovers cfg items) ;;
  ret (slice_to (MAX_GROUPS cfg) (exact_first cfg items ++ ai_groups)).

Definition select_groups (cfg : Config) (items : list Item)
    : M (list Group) :=
  if str_eqb (GROUPING cfg) (lit "exact") then plan_exact cfg items
  else if str_eqb (GROUPING cfg) (lit "ai") then plan_ai cfg items
  else plan_hybrid cfg items.

(** ** The consolidation executor (lines 438-494 of [main]) *)

Record Summary := mkSummary {
  processed_groups : Z;
  created_subitems : Z;
  moved_originals : Z;
  archived_originals : Z;
  combined_items : list (str * list str);
  moved_items : list str;
  archived_items : list str
}.

(** The locals of the loop: [total_created], [moved], [archived] and the
    three lists of [run_summary] that the loop extends. *)
Record Acc := mkAcc {
  total_created : Z;
  moved : Z;
  archived : Z;
  acc_combined : list (str * list str);
  acc_moved_items : list str;
  acc_archived_items : list str
}.

Definition acc0 : Acc := mkAcc 0 0 0 [] [] [].

Section Group.

Variable cfg : Config.
Variable names : gmap str str.   (* id_to_name *)

(** [id_to_name.get(cid, f"Item {cid}")] *)
Definition display_name (cid : str) : str :=
  default (lit "Item " ++ cid) (names !! cid).

(** [ids[1:][:MAX_CHILDREN]] *)
Definition children_of (ids : list str) : list str :=
  slice_to (MAX_CHILDREN cfg) (tl ids).

(** The loop that fills [pending]. *)
Definition pending_of (existing : gset str) (children : list str)
    : list (str * str) :=
  List.filter
    (fun p => negb (str_eqb (snd p) [])
              && negb (bool_decide (snd p ∈ existing)))
    (map (fun cid => (cid, strip (display_name cid))) children).

Definition represented_of (existing : gset str)
    (pending : list (str * str)) (children : list str) : list str :=
  map fst pending ++
  List.filter
    (fun cid => bool_decide (strip (default [] (names !! cid)) ∈ existing))
    children.

(** The after-action on the originals. *)
Definition after_action (represented_ids : list str) (a : Acc) : M Acc :=
  match represented_ids with
  | [] => ret a
  | _ =>
      if str_eqb (AFTER_ACTION cfg) (lit "move")
         && negb (str_eqb (MOVE_GROUP_ID cfg) [])
      then
        move_items represented_ids (MOVE_GROUP_ID cfg) ;;;
        ret (mkAcc (total_created a)
                   (moved a + Z.of_nat (length represented_ids))
                   (archived a) (acc_combined a)
                   (acc_moved_items a ++ map display_name represented_ids)
                   (acc_archived_items a))
      else if str_eqb (AFTER_ACTION cfg) (lit "archive")
      then
        archive_items represented_ids ;;;
        ret (mkAcc (total_created a) (moved a)
                   (archived a + Z.of_nat (length represented_ids))
                   (acc_combined a) (acc_moved_items a)
                   (acc_archived_items a
                      ++ map display_name represented_ids))
      else ret a
  end.

(** One round of [for g in groups], after the parent's child records
    have been fetched: diff, creation, after-action. *)
Definition consolidate (a : Acc) (parent : str) (children : list str)
    (existing : gset str) : M Acc :=
  let parent_name := default parent (names !! parent) in
  let pending := pending_of existing children in
  let names_to_create := map snd pending in
  ae <- match pending with
        | [] => ret (a, existing)
        | _ =>
            create_subitems parent names_to_create ;;;
            ret (mkAcc (total_created a
                          + Z.of_nat (length names_to_create))
                       (moved a) (archived a) (acc_combined a)
                       (acc_moved_items a) (acc_archived_items a),
                 existing ∪ list_to_set names_to_create)
        end ;;
  let a1 := fst ae in
  let existing' := snd ae in
  let represented_ids := represented_of existing' pending children in
  let a2 :=
    match represented_ids with
    | [] => a1
    | _ => mkAcc (total_created a1) (moved a1) (archived a1)
             (acc_combined a1
                ++ [(parent_name, map display_name represented_ids)])
             (acc_moved_items a1) (acc_archived_items a1)
    end in
  a3 <- after_action represented_ids a2 ;;
  sleep (1 # 20) ;;;
  ret a3.

(** One round of [for g in groups]. *)
Definition process_group (a : Acc) (g : Group) : M Acc :=
  let ids := item_ids_oldest_first g in
  match ids with
  | [] | [_] => ret a          (* len(ids) < 2: continue *)
  | parent :: _ =>
      existing <- get_existing_subitem_names parent ;;
      consolidate a parent (children_of ids) existing
  end.

Fixpoint process_groups (a : Acc) (groups : list Group) : M Acc :=
  match groups with
  | [] => ret a
  | g :: groups' =>
      a' <- process_group a g ;; process_groups a' groups'
  end.

End Group.

(** [main], from the fetched [items] to the returned [run_summary]. *)
Definition main (cfg : Config) (items : list Item) : M Summary :=
  groups <- select_groups cfg items ;;
  a <- process_groups cfg (id_to_name items) acc0 groups ;;
  ret {| processed_groups := Z.of_nat (length groups);
         created_subitems := total_created a;
         moved_originals := moved a;
         archived_originals := archived a;
         combined_items := acc_combined a;
         moved_items := acc_moved_items a;
         archived_items := acc_archived_items a |}.

(** ** Statements about computations *)

(** Every event that [m] emits, from any world, satisfies [P]. *)
Definition emits {A} (P : Event -> Prop) (m : M A) : Prop :=
  forall w, Forall P (snd (m w)).

(** [m] returns a value from every world: it raises no exception. *)
Definition never_raises {A} (m : M A) : Prop :=
  forall w, exists a w' t, m w = (Ret a, w', t).

(** The configuration with [AFTER_ACTION = "none"]. *)
Definition without_after_action (cfg : Config) : Config :=
  {| GROUPING := GROUPING cfg;
     MIN_COUNT := MIN_COUNT cfg;
     MAX_GROUPS := MAX_GROUPS cfg;
     MAX_CHILDREN := MAX_CHILDREN cfg;
     AFTER_ACTION := lit "none";
     MOVE_GROUP_ID := MOVE_GROUP_ID cfg |}.

End Remote.

(** ** Configuration overlay (lines 20 and 33-40)

    [GROUPING = os.getenv("GROUPING", "hybrid").lower()], then
    [GROUPING = _get("GROUPING", GROUPING)] over the settings of the
    store. *)
Definition _get (db_overrides : gmap str str) (k default_value : str) : str :=
  match db_overrides !! k with
  | Some v => if str_eqb v [] then default_value else v
  | None => default_value
  end.

Definition resolve_GROUPING (env : option str) (db_overrides : gmap str str)
    : str :=
  _get db_overrides (lit "GROUPING") (lower (default (lit "hybrid") env)).

(** ** Reading a trace *)

Definition sleeps_of (t : list Event) : list Q :=
  flat_map (fun ev => match ev with EvSleep d => [d] | _ => [] end) t.

Definition requests_of (t : list Event) : list Request :=
  flat_map (fun ev => match ev with EvGql req _ => [req] | _ => [] end) t.

(** The child records that the requests of a trace ask to create, as
    (parent, name). *)
Definition creations_of_request (req : Request) : list (str * str) :=
  match req with
  | MCreateBatch p ns => map (pair p) ns
  | MCreateSingle p n => [(p, n)]
  | _ => []
  end.

Definition created_names (t : list Event) : list (str * str) :=
  flat_map creations_of_request (requests_of t).

Definition is_move (req : Request) : bool :=
  match req with
  | MMove _ _ => true
  | _ => false
  end.

Definition relocate_calls (t : list Event) : list Request :=
  List.filter is_move (requests_of t).

Definition clusterer_inputs (t : list Event) : list (list Item) :=
  flat_map (fun ev => match ev with EvCluster fed => [fed] | _ => [] end) t.

Definition not_move_event (ev : Event) : Prop :=
  match ev with
  | EvGql req _ => is_move req = false
  | _ => True
  end.

(** The delay before the retry that follows attempt [k]: the backoff,
    [0.5] doubled [k] times under the cap [5.0], plus the jitter
    [0.1 * k]. *)
Fixpoint backoff (k : nat) : Q :=
  match k with
  | O => 1 # 2
  | S k' => Qmin (backoff k' * 2) 5
  end.

Definition retry_delay (k : nat) : Q :=
  backoff k + (1 # 10) * inject_Z (Z.of_nat k).

(** ** Statements about the remote access layer *)

(** What [gql_with_retry] leaves in the trace: the attempts that failed
    with the messages [fails], each followed by its sleep, then a last
    attempt answered [last]. *)
Fixpoint retry_trace (req : Request) (attempt : nat) (fails : list str)
    (last : Reply) : list Event :=
  match fails with
  | [] => [EvGql req last]
  | msg :: fails' =>
      EvGql req (RError msg) :: EvSleep (retry_delay attempt)
      :: retry_trace req (S attempt) fails' last
  end.

(** What [gql_with_retry] gives back after a last attempt answered [last]. *)
Definition retry_outcome (last : Reply) : Res (option (list str)) :=
  match last with
  | RData d => Ret (Some d)
  | RError msg => Exc msg
  end.

(** The sizes of the batches of a request. *)
Definition batch_bounded (ev : Event) : Prop :=
  match ev with
  | EvGql (MCreateBatch _ names) _ => (1 <= length names <= 20)%nat
  | EvGql (MMove ids _) _ => (1 <= length ids <= 5)%nat
  | EvGql (MArchive ids) _ => (1 <= length ids <= 10)%nat
  | _ => True
  end.

(** What the fallback of [create_subitems] leaves in the trace for one
    name: the attempts of its own creation, then the pause after a success
    or the printed failure. *)
Definition single_attempt (parent nm : str) (part : list Event) : Prop :=
  exists fails last,
    (length fails <= 4)%nat
    /\ part = retry_trace (MCreateSingle parent nm) 0 fails last
              ++ match last with
                 | RData _ => [EvSleep (1 # 20)]
                 | RError e => [EvPrintFailed parent nm e]
                 end.

(** ** Statements about a run *)

Definition is_archive (req : Request) : bool :=
  match req with
  | MArchive _ => true
  | _ => false
  end.

Definition archive_calls (t : list Event) : list Request :=
  List.filter is_archive (requests_of t).

(** The event relocates or archives only ids of [allowed], and relocates
    to [group_id] only. *)
Definition touches_only (allowed : list str) (group_id : str) (ev : Event)
    : Prop :=
  match ev with
  | EvGql (MMove ids g) _ => g = group_id /\ forall id, In id ids -> In id allowed
  | EvGql (MArchive ids) _ => forall id, In id ids -> In id allowed
  | _ => True
  end.

(** Equality of two [str] values, for counting. *)
Definition str_dec : forall a b : str, {a = b} + {a <> b} :=
  List.list_eq_dec Ascii.ascii_dec.

(** ** Statements about exact grouping *)

(** The order of [(int, str)] sort keys. *)
Definition key_le (k1 k2 : Z * str) : Prop := key_leb k1 k2 = true.

(** The sort key of the members of a group: [(created_at_ts, id)]. *)
Definition member_key (x : Shaped) : Z * str := (created_at_ts x, sh_id x).

(** The sort key of the groups: [(-count, subject_norm)]. *)
Definition group_key (g : Group) : Z * str := ((- count g)%Z, g_subject_norm g).

(** The items whose normalised name is [subject], in their input order. *)
Definition items_with_subject (subject : str) (items : list Item)
    : list Item :=
  List.filter (fun it => str_eqb (normalize_subject (item_name it)) subject)
              items.

(** The value stored under a key of an insertion-ordered dictionary. *)
Fixpoint assoc {A} (key : str) (d : list (str * A)) : option A :=
  match d with
  | [] => None
  | (k, v) :: d' => if str_eqb k key then Some v else assoc key d'
  end.

Definition is_fetch (req : Request) : bool :=
  match req with
  | QSubitems _ => true
  | _ => false
  end.

(** The fetches of existing child records in a trace. *)
Definition fetches (t : list Event) : list Request :=
  List.filter is_fetch (requests_of t).

Definition not_fetch_event (ev : Event) : Prop :=
  match ev with
  | EvGql req _ => is_fetch req = false
  | _ => True
  end.

(** A group whose round is not skipped: [len(ids) >= 2]. *)
Definition actionable (g : Group) : bool :=
  (2 <=? length (item_ids_oldest_first g))%nat.

(** The summary of a run that had nothing to do. *)
Definition empty_summary : Summary := mkSummary 0 0 0 0 [] [] [].

(** The test of the after-action for a relocation:
    [AFTER_ACTION == "move" and MOVE_GROUP_ID]. *)
Definition relocates (cfg : Config) : bool :=
  str_eqb (AFTER_ACTION cfg) (lit "move")
  && negb (str_eqb (MOVE_GROUP_ID cfg) []).

(** The test of the [elif] branch, reached when the first test fails. *)
Definition archives (cfg : Config) : bool :=
  negb (relocates cfg) && str_eqb (AFTER_ACTION cfg) (lit "archive").

(** The children of all the entries of [combined_items], in order. *)
Definition listed_children (combined : list (str * list str)) : list str :=
  concat (map snd combined).

(** The lists and the counters of the loop agree. *)
Definition acc_consistent (cfg : Config) (a : Acc) : Prop :=
  moved a = Z.of_nat (length (acc_moved_items a))
  /\ archived a = Z.of_nat (length (acc_archived_items a))
  /\ acc_moved_items a
     = (if relocates cfg then listed_children (acc_combined a) else [])
  /\ acc_archived_items a
     = (if archives cfg then listed_children (acc_combined a) else [])
  /\ Forall (fun pc => snd pc <> []) (acc_combined a).

(** ** The clustering pass of [ai_cluster_items] (lines 256-264)

    The vectors come from the embedding service; the pass uses them only
    through the test [_cos(v, vecs[rep_idx]) >= sim_threshold], modelled
    as a test [similar i rep_idx] on two indices of [vecs]. *)

Section Clustering.

Variable similar : nat -> nat -> bool.

(** The inner loop [for cl in clusters]: the clusters once [i] has been
    appended to the first cluster whose first member it is similar to, or
    [None] when [placed] stays false.  A cluster is never empty, so
    [cl[0]] is its head. *)
Fixpoint place (i : nat) (clusters : list (list nat))
    : option (list (list nat)) :=
  match clusters with
  | [] => None
  | cl :: rest =>
      if similar i (hd 0%nat cl) then Some ((cl ++ [i]) :: rest)
      else option_map (cons cl) (place i rest)
  end.

Definition cluster_step (clusters : list (list nat)) (i : nat)
    : list (list nat) :=
  match place i clusters with
  | Some clusters' => clusters'
  | None => clusters ++ [[i]]
  end.

(** The outer loop [for i, v in enumerate(vecs)], for [n = len(vecs)]. *)
Definition greedy_clusters (n : nat) : list (list nat) :=
  fold_left cluster_step (seq 0 n) [].

(** A cluster led by its first member: it is not empty, its indices
    increase, and every later member is similar to the first. *)
Definition led_by_head (cl : list nat) : Prop :=
  match cl with
  | [] => False
  | rep :: members =>
      StronglySorted lt (rep :: members)
      /\ Forall (fun i => similar i rep = true) members
  end.

(** No member of a cluster is similar to the head of an earlier cluster. *)
Fixpoint first_fit (clusters : list (list nat)) : Prop :=
  match clusters with
  | [] => True
  | cl :: rest =>
      Forall (Forall (fun i => similar i (hd 0%nat cl) = false)) rest
      /\ first_fit rest
  end.

End Clustering.

(** ** The items given to the clusterer (lines 194-211 and 246-247) *)

Record ShapedAI := mkShapedAI {
  ai_id : str;
  ai_name : str;
  ai_created_at_ts : Z
}.

(** The sort key of [_shape_for_ai]: [(created_at_ts, id)]. *)
Definition ai_key (x : ShapedAI) : Z * str := (ai_created_at_ts x, ai_id x).

Section ShapeForAI.

Variable strptime_utc : str -> option Z.
Variable fromisoformat : str -> option Z.

(** [_shape_for_ai]; its [ts] is that of [group_items]. *)
Definition _shape_for_ai (items : list Item) : list ShapedAI :=
  sort_by ai_key
    (map (fun it =>
            {| ai_id := item_id it;
               ai_name := strip (item_name it);
               ai_created_at_ts :=
                 ts strptime_utc fromisoformat (item_created_at it) |})
         items).

(** [l[-limit:]]: the last [limit] elements for a positive [limit], the
    whole list for [limit = 0], and [l[k:]] for [limit = -k < 0]. *)
Definition last_items {A} (limit : Z) (l : list A) : list A :=
  if (0 <? limit)%Z then skipn (length l - Z.to_nat limit) l
  else skipn (Z.to_nat (- limit)) l.

(** [shaped = _shape_for_ai(raw_items)[-limit_items:]] *)
Definition embedded_items (limit : Z) (items : list Item) : list ShapedAI :=
  last_items limit (_shape_for_ai items).

End ShapeForAI.

(** ** From clusters to groups (lines 267-280) *)

(** [[l[j] for j in js]]: [None] when an index is out of range. *)
Fixpoint lookup_all {A} (l : list A) (js : list nat) : option (list A) :=
  match js with
  | [] => Some []
  | j :: js' =>
      match nth_error l j, lookup_all l js' with
      | Some x, Some xs => Some (x :: xs)
      | _, _ => None
      end
  end.

(** The group appended for a cluster [cl]. *)
Definition group_of_cluster (shaped : list ShapedAI) (cl : list nat)
    : option Group :=
  match lookup_all (map ai_id shaped) cl,
        nth_error (map ai_name shaped) (hd 0%nat cl) with
  | Some cl_ids, Some name =>
      Some {| g_subject_norm := firstn 80 name;
              item_ids_oldest_first := cl_ids;
              count := Z.of_nat (length cl_ids) |}
  | _, _ => None
  end.

(** The loop [for cl in clusters] that fills [groups]. *)
Fixpoint groups_of_clusters (shaped : list ShapedAI)
    (clusters : list (list nat)) : option (list Group) :=
  match clusters with
  | [] => Some []
  | cl :: rest =>
      if (length cl <? 2)%nat then groups_of_clusters shaped rest
      else
        match group_of_cluster shaped cl, groups_of_clusters shaped rest with
        | Some g, Some gs => Some (g :: gs)
        | _, _ => None
        end
  end.

(** Lines 251-280 of [ai_cluster_items], once [_embed_texts] has returned
    [n] vectors for the names of [shaped]: the clustering pass, the groups
    and their sort.  [None] stands for an [IndexError]. *)
Definition cluster_groups (similar : nat -> nat -> bool) (n : nat)
    (shaped : list ShapedAI) : option (list Group) :=
  option_map (sort_by group_key)
    (groups_of_clusters shaped (greedy_clusters similar n)).

(** The group of a cluster whose indices are all in range. *)
Definition group_of_indices (shaped : list ShapedAI) (cl : list nat)
    : Group :=
  {| g_subject_norm := firstn 80 (nth (hd 0%nat cl) (map ai_name shaped) []);
     item_ids_oldest_first := map (fun j => nth j (map ai_id shaped) []) cl;
     count := Z.of_nat (length cl) |}.

(** ** The activity log of the web console ([web.py], lines 21-32) *)

Definition _MAX_LOG_CHARS : Z := 200000.

(** [sum(len(x) for x in _ACTIVITY_LOG)] *)
Definition log_chars (log : list str) : Z :=
  fold_right (fun x acc => (Z.of_nat (length x) + acc)%Z) 0%Z log.

(** The loop [while total > _MAX_LOG_CHARS and _ACTIVITY_LOG:
    total -= len(_ACTIVITY_LOG.pop(0))]. *)
Fixpoint drop_oldest (total : Z) (log : list str) : list str :=
  match log with
  | [] => []
  | x :: rest =>
      if (_MAX_LOG_CHARS <? total)%Z
      then drop_oldest (total - Z.of_nat (length x)) rest
      else log
  end.

(** [_append_log], from the log before the call to the log after it. *)
Definition _append_log (text : str) (log : list str) : list str :=
  match text with
  | [] => log
  | _ => drop_oldest (log_chars (log ++ [text])) (log ++ [text])
  end.

(** ** Concrete scenarios

    Small worlds and inputs on which the definitions are run. *)

Module Scenario.

Definition no_parse (_ : str) : option Z := None.

Definition no_clusters (_ : list Item) (w : unit)
    : Res (list Group) * unit := (Ret [], w).

(** Every call is answered with a rate-limit failure. *)
Definition remote_429 (_ : Request) (w : unit) : Reply * unit :=
  (RError (lit "HTTP 429 from Monday. Body: {}"), w).

(** A parent without child records; every mutation succeeds. *)
Definition remote_ok (_ : Request) (w : unit) : Reply * unit := (RData [], w).

(** A parent without child records; every creation is refused. *)
Definition remote_refusing (req : Request) (w : unit) : Reply * unit :=
  match req with
  | QSubitems _ => (RData [], w)
  | _ => (RError (lit "GraphQL errors: invalid item name"), w)
  end.

Definition item (id name : string) : Item :=
  mkItem (lit id) (lit name) None None.

Definition two_duplicates : list Item :=
  [item "1" "Site Visit Request"; item "2" "RE: Site Visit Request"].

Definition three_items : list Item :=
  two_duplicates ++ [item "3" "Invoice 42"].

Definition config (grouping after_action move_group : string)
    (min_count : Z) : Config :=
  mkConfig (lit grouping) min_count 8 25 (lit after_action) (lit move_group).

Definition names_of (items : list Item) : gmap str str :=
  id_to_name no_parse no_parse items.

Definition duplicates_group : Group :=
  mkGroup (lit "site visit request") [lit "1"; lit "2"] 2.

(** A child whose name has 256 characters, under a parent that already has
    a child record named with the first 255 of them. *)
Definition long_name : str := repeat (ch "a") 256.

Definition long_names : gmap str str :=
  <[lit "c" := long_name]> (<[lit "p" := lit "Parent"]> ∅).

Definition long_group : Group := mkGroup (lit "parent") [lit "p"; lit "c"] 2.

Definition remote_long (req : Request) (w : unit) : Reply * unit :=
  match req with
  | QSubitems _ => (RData [repeat (ch "a") 255], w)
  | _ => (RData [], w)
  end.

End Scenario.

(** * Properties *)

(** ** The retry wrapper *)

Ltac qconst := unfold Qlt, Qle; simpl; lia.

Lemma backoff_bounds (k : nat) : (0 < backoff k)%Q /\ (backoff k <= 5)%Q.
Proof.
  induction k as [|k [IHpos IHle]]; simpl.
  - split; qconst.
  - split.
    + apply Q.min_glb_lt; [|qconst].
      rewrite <- (Qmult_0_l 2). apply Qmult_lt_compat_r; [qconst|exact IHpos].
    + apply Q.le_min_r.
Qed.

Lemma backoff_mono (k : nat) : (backoff k <= backoff (S k))%Q.
Proof.
  destruct (backoff_bounds k) as [Hpos Hle]. simpl.
  apply Q.min_glb; [|exact Hle].
  rewrite <- (Qmult_1_r (backoff k)) at 1.
  apply (proj2 (Qmult_le_l 1 2 (backoff k) Hpos)). qconst.
Qed.

Lemma retry_delay_increasing (k : nat) : (retry_delay k < retry_delay (S k))%Q.
Proof.
  unfold retry_delay.
  apply Qle_lt_trans with (backoff (S k) + (1 # 10) * inject_Z (Z.of_nat k))%Q.
  - apply (proj2 (Qplus_le_l _ _ _)). apply backoff_mono.
  - apply (proj2 (Qplus_lt_r _ _ _)).
    apply (proj2 (Qmult_lt_l _ _ (1 # 10) ltac:(qconst))).
    rewrite <- Zlt_Qlt. lia.
Qed.

Lemma retry_delay_sorted (a n : nat) :
  StronglySorted Qlt (map retry_delay (seq a n)).
Proof.
  revert a. induction n as [|n IH]; intros a; simpl; constructor.
  - apply IH.
  - apply List.Forall_forall. intros d Hd.
    apply in_map_iff in Hd. destruct Hd as [k [<- Hk]].
    apply in_seq in Hk.
    assert (Hgen : forall j, (retry_delay a < retry_delay (S a + j))%Q).
    { induction j as [|j IHj].
      - rewrite Nat.add_0_r. apply retry_delay_increasing.
      - eapply Qlt_trans; [exact IHj|].
        replace (S a + S j)%nat with (S (S a + j)) by lia.
        apply retry_delay_increasing. }
    replace k with (S a + (k - S a))%nat by lia. apply Hgen.
Qed.

Section RetryFacts.

Variable W : Type.
Variable remote : Request -> W -> Reply * W.

(** When every attempt fails with a transient message, the wrapper
    makes [max_retries] attempts, sleeps [retry_delay 0],
    [retry_delay 1], ... between them and raises the last message. *)
Lemma retry_from_all_transient (P : str -> Prop) (req : Request)
    (HP : forall msg, P msg -> transient msg = true)
    (Hfail : forall w, exists msg w',
               remote req w = (RError msg, w') /\ P msg) :
  forall left n attempt w,
    (attempt + S left = n)%nat ->
    exists msg w' t,
      retry_from W remote n (S left) attempt (backoff attempt) req w
        = (Exc msg, w', t)
      /\ P msg
      /\ requests_of t = repeat req (S left)
      /\ sleeps_of t = map retry_delay (seq attempt left).
Proof.
  induction left as [|left IH]; intros n attempt w Hn.
  - destruct (Hfail w) as (msg & w1 & Hr & Hmsg).
    exists msg, w1, [EvGql req (RError msg)].
    cbn [retry_from]. unfold try_except, bind, gql. rewrite Hr.
    replace (attempt + 1 <? n)%nat with false
      by (symmetry; apply Nat.ltb_ge; lia).
    rewrite andb_false_r. unfold raise. cbn. auto.
  - destruct (Hfail w) as (msg & w1 & Hr & Hmsg).
    destruct (IH n (S attempt) w1 ltac:(lia)) as (msg' & w2 & t2 & Hrec & Hm' & Hreq & Hsl).
    exists msg', w2, ([EvGql req (RError msg)] ++ [EvSleep (retry_delay attempt)] ++ t2).
    remember (S left) as l eqn:El.
    cbn [retry_from]. unfold try_except at 1. unfold bind at 1, gql at 1.
    rewrite Hr.
    replace (attempt + 1 <? n)%nat with true
      by (symmetry; apply Nat.ltb_lt; lia).
    rewrite (HP _ Hmsg). cbn [andb].
    unfold bind at 1, sleep, emit.
    change (Qmin (backoff attempt * 2) 5) with (backoff (S attempt)).
    rewrite Hrec.
    unfold requests_of, sleeps_of in *.
    repeat split; auto; simpl.
    + rewrite Hreq. reflexivity.
    + rewrite Hsl. subst l. reflexivity.
Qed.

(** C3.  A request whose every attempt fails with a message containing
    "HTTP 429" is attempted 5 times by [gql_with_retry]; between the
    attempts it sleeps 0.5, 1.1, 2.2 and 4.3 seconds (the backoff 0.5
    doubled at each attempt under the cap 5.0, plus the jitter 0.1 times
    the attempt number), a strictly increasing sequence; then the last
    error is raised. *)
Theorem gql_with_retry_http_429 (req : Request)
    (Hfail : forall w, exists msg w',
               remote req w = (RError msg, w')
               /\ contains (lit "HTTP 429") msg = true) :
  forall w, exists msg w' t,
    gql_with_retry W remote req w = (Exc msg, w', t)
    /\ contains (lit "HTTP 429") msg = true
    /\ requests_of t = [req; req; req; req; req]
    /\ sleeps_of t = map retry_delay [0; 1; 2; 3]%nat
    /\ Forall2 Qeq (sleeps_of t) [1 # 2; 11 # 10; 22 # 10; 43 # 10]
    /\ StronglySorted Qlt (sleeps_of t).
Proof.
  intros w.
  destruct (retry_from_all_transient
              (fun msg => contains (lit "HTTP 429") msg = true) req
              ltac:(intros msg H; unfold transient; rewrite H;
                    rewrite !orb_true_r; reflexivity)
              Hfail 4%nat 5%nat 0%nat w eq_refl)
    as (msg & w' & t & Hrun & Hmsg & Hreq & Hsl).
  exists msg, w', t. unfold gql_with_retry, gql_with_retry_n.
  change (1 # 2) with (backoff 0).
  repeat split; auto.
  - rewrite Hsl. repeat constructor.
  - rewrite Hsl. apply (retry_delay_sorted 0 4).
Qed.

End RetryFacts.

(** ** Computations and their traces *)

Section MonadFacts.

Variable W : Type.
Variable remote : Request -> W -> Reply * W.

Lemma bind_ret_inv {A B} (m : M W A) (f : A -> M W B) w b w' t :
  bind W m f w = (Ret b, w', t) ->
  exists a w1 t1 t2,
    m w = (Ret a, w1, t1) /\ f a w1 = (Ret b, w', t2) /\ t = t1 ++ t2.
Proof.
  unfold bind. destruct (m w) as [[[a|e] w1] t1]; [|discriminate].
  destruct (f a w1) as [[r w2] t2] eqn:E. intros H. inversion H; subst.
  exists a, w1, t1, t2. auto.
Qed.

Lemma bind_ext {A B} (m : M W A) (f g : A -> M W B) w :
  (forall a w1, f a w1 = g a w1) -> bind W m f w = bind W m g w.
Proof.
  intros H. unfold bind. destruct (m w) as [[[a|e] w1] t1]; [|reflexivity].
  rewrite H. reflexivity.
Qed.

Lemma emits_ret {A} P (a : A) : emits W P (ret W a).
Proof. intros w. constructor. Qed.

Lemma emits_raise {A} P msg : emits W P (@raise W A msg).
Proof. intros w. constructor. Qed.

Lemma emits_emit P ev : P ev -> emits W P (emit W ev).
Proof. intros H w. repeat constructor. exact H. Qed.

Lemma emits_bind {A B} P (m : M W A) (f : A -> M W B) :
  emits W P m -> (forall a, emits W P (f a)) -> emits W P (bind W m f).
Proof.
  intros Hm Hf w. unfold bind. specialize (Hm w).
  destruct (m w) as [[[a|e] w1] t1]; simpl in *; [|exact Hm].
  specialize (Hf a w1). destruct (f a w1) as [[r w2] t2]; simpl in *.
  apply Forall_app. auto.
Qed.

Lemma emits_try_except {A} P (m : M W A) (h : str -> M W A) :
  emits W P m -> (forall e, emits W P (h e)) -> emits W P (try_except W m h).
Proof.
  intros Hm Hh w. unfold try_except. specialize (Hm w).
  destruct (m w) as [[[a|e] w1] t1]; simpl in *; [exact Hm|].
  specialize (Hh e w1). destruct (h e w1) as [[r w2] t2]; simpl in *.
  apply Forall_app. auto.
Qed.

Lemma emits_gql P req :
  (forall rep, P (EvGql req rep)) -> emits W P (gql W remote req).
Proof.
  intros H w. unfold gql.
  destruct (remote req w) as [[d|msg] w']; simpl; repeat constructor; apply H.
Qed.

Lemma emits_sleep P d : P (EvSleep d) -> emits W P (sleep W d).
Proof. apply emits_emit. Qed.

Lemma emits_retry_from P req :
  (forall rep, P (EvGql req rep)) -> (forall d, P (EvSleep d)) ->
  forall n left attempt delay,
    emits W P (retry_from W remote n left attempt delay req).
Proof.
  intros Hg Hs n left. induction left as [|left IH]; intros attempt delay.
  - apply emits_ret.
  - cbn [retry_from]. apply emits_try_except.
    + apply emits_bind; [apply emits_gql; exact Hg|].
      intros a. apply emits_ret.
    + intros e. destruct (transient e && (attempt + 1 <? n)%nat).
      * apply emits_bind; [apply emits_sleep; apply Hs|]. intros _. apply IH.
      * apply emits_raise.
Qed.

Lemma emits_gql_with_retry P req :
  (forall rep, P (EvGql req rep)) -> (forall d, P (EvSleep d)) ->
  emits W P (gql_with_retry W remote req).
Proof. intros Hg Hs. apply emits_retry_from; assumption. Qed.

Lemma emits_for_each {A} P (l : list A) (body : A -> M W unit) :
  (forall x, In x l -> emits W P (body x)) -> emits W P (for_each W l body).
Proof.
  induction l as [|x l IH]; intros H; simpl.
  - apply emits_ret.
  - apply emits_bind; [apply H; left; reflexivity|].
    intros _. apply IH. intros y Hy. apply H. right. exact Hy.
Qed.

Lemma never_raises_ret {A} (a : A) : never_raises W (ret W a).
Proof. intros w. exists a, w, []. reflexivity. Qed.

Lemma never_raises_bind {A B} (m : M W A) (f : A -> M W B) :
  never_raises W m -> (forall a, never_raises W (f a)) ->
  never_raises W (bind W m f).
Proof.
  intros Hm Hf w. destruct (Hm w) as (a & w1 & t1 & E1).
  destruct (Hf a w1) as (b & w2 & t2 & E2).
  exists b, w2, (t1 ++ t2). unfold bind. rewrite E1, E2. reflexivity.
Qed.

Lemma never_raises_try_except {A} (m : M W A) (h : str -> M W A) :
  (forall e, never_raises W (h e)) -> never_raises W (try_except W m h).
Proof.
  intros Hh w. unfold try_except.
  destruct (m w) as [[[a|e] w1] t1].
  - exists a, w1, t1. reflexivity.
  - destruct (Hh e w1) as (b & w2 & t2 & E2). rewrite E2.
    exists b, w2, (t1 ++ t2). reflexivity.
Qed.

Lemma never_raises_for_each {A} (l : list A) (body : A -> M W unit) :
  (forall x, never_raises W (body x)) -> never_raises W (for_each W l body).
Proof.
  intros H. induction l as [|x l IH]; simpl.
  - apply never_raises_ret.
  - apply never_raises_bind; [apply H|]. intros _. exact IH.
Qed.

Lemma create_subitems_never_raises parent names :
  never_raises W (create_subitems W remote parent names).
Proof.
  unfold create_subitems.
  destruct (clean_names_of names) as [|c cs]; [apply never_raises_ret|].
  apply never_raises_for_each. intros chunk.
  apply never_raises_try_except. intros _.
  apply never_raises_for_each. intros nm.
  apply never_raises_try_except. intros e2 w.
  exists tt, w, [EvPrintFailed parent nm e2]. reflexivity.
Qed.

End MonadFacts.

(** ** Strings *)

Lemma chr_eqb_eq (a b : ascii) : chr_eqb a b = true <-> a = b.
Proof. apply Ascii.eqb_eq. Qed.

Lemma chr_eqb_refl (a : ascii) : chr_eqb a a = true.
Proof. apply Ascii.eqb_refl. Qed.

Lemma str_eqb_eq (a b : str) : str_eqb a b = true <-> a = b.
Proof.
  revert b. induction a as [|x a IH]; intros [|y b]; simpl;
    try (split; [discriminate|discriminate]); [tauto|].
  rewrite andb_true_iff, chr_eqb_eq, IH.
  split; [intros [-> ->]; reflexivity|intros H; inversion H; auto].
Qed.

Lemma str_eqb_refl (a : str) : str_eqb a a = true.
Proof. apply str_eqb_eq. reflexivity. Qed.

Lemma str_eqb_neq (a b : str) : a <> b -> str_eqb a b = false.
Proof.
  intros H. destruct (str_eqb a b) eqn:E; [|reflexivity].
  apply str_eqb_eq in E. contradiction.
Qed.

Lemma str_eqb_nil_r (a : str) : str_eqb a [] = true <-> a = [].
Proof. apply str_eqb_eq. Qed.

Lemma lstrip_idem (s : str) : lstrip (lstrip s) = lstrip s.
Proof.
  unfold lstrip. induction s as [|c s IH]; simpl; [reflexivity|].
  destruct (is_space c) eqn:E; [exact IH|]. simpl. rewrite E. reflexivity.
Qed.

(** A string that starts with no blank. *)
Lemma lstrip_fixed (c : ascii) (s : str) :
  is_space c = false -> lstrip (c :: s) = c :: s.
Proof. intros H. unfold lstrip. simpl. rewrite H. reflexivity. Qed.

Lemma lstrip_head (s : str) (c : ascii) (r : str) :
  lstrip s = c :: r -> is_space c = false.
Proof.
  unfold lstrip. induction s as [|x s IH]; simpl; [discriminate|].
  destruct (is_space x) eqn:E; [exact IH|]. intros H. inversion H; subst. exact E.
Qed.

Lemma rstrip_idem (s : str) : rstrip (rstrip s) = rstrip s.
Proof.
  induction s as [|c s IH]; simpl; [reflexivity|].
  destruct (rstrip s) as [|y t] eqn:E.
  - destruct (is_space c) eqn:Ec; simpl; [reflexivity|]. rewrite Ec. reflexivity.
  - simpl in *. rewrite IH. reflexivity.
Qed.

Lemma rstrip_lstrip_fixed (s : str) :
  rstrip s = s -> rstrip (lstrip s) = lstrip s.
Proof.
  unfold lstrip. induction s as [|c s IH]; simpl; [reflexivity|].
  intros H. destruct (is_space c) eqn:Ec.
  - apply IH. destruct (rstrip s) as [|y t] eqn:E.
    + discriminate.
    + inversion H. reflexivity.
  - simpl. rewrite Ec. exact H.
Qed.

Lemma strip_idem (s : str) : strip (strip s) = strip s.
Proof.
  unfold strip.
  rewrite (rstrip_lstrip_fixed (rstrip s) (rstrip_idem s)).
  apply lstrip_idem.
Qed.

Lemma rstrip_strip (s : str) : rstrip (strip s) = strip s.
Proof. unfold strip. apply rstrip_lstrip_fixed, rstrip_idem. Qed.

Lemma lstrip_strip (s : str) : lstrip (strip s) = strip s.
Proof. unfold strip. apply lstrip_idem. Qed.

Lemma lstrip_length (s : str) : (length (lstrip s) <= length s)%nat.
Proof.
  unfold lstrip. induction s as [|c s IH]; simpl; [lia|].
  destruct (is_space c); simpl; lia.
Qed.

Lemma rstrip_length (s : str) : (length (rstrip s) <= length s)%nat.
Proof.
  induction s as [|c s IH]; simpl; [lia|].
  destruct (rstrip s); [destruct (is_space c)|]; simpl in *; lia.
Qed.

Lemma strip_length (s : str) : (length (strip s) <= length s)%nat.
Proof.
  unfold strip. pose proof (lstrip_length (rstrip s)).
  pose proof (rstrip_length s). lia.
Qed.

(** [lstrip] and [rstrip] cut a suffix and a prefix off. *)
Lemma lstrip_suffix (s : str) : exists p, s = p ++ lstrip s.
Proof.
  unfold lstrip. induction s as [|c s [p IH]]; simpl; [exists []; reflexivity|].
  destruct (is_space c).
  - exists (c :: p). simpl. f_equal. exact IH.
  - exists []. reflexivity.
Qed.

Lemma rstrip_prefix (s : str) : exists q, s = rstrip s ++ q.
Proof.
  induction s as [|c s [q IH]]; simpl; [exists []; reflexivity|].
  destruct (rstrip s) as [|y t] eqn:E.
  - destruct (is_space c).
    + exists (c :: s). reflexivity.
    + exists q. simpl in *. f_equal. exact IH.
  - exists q. simpl in *. f_equal. exact IH.
Qed.

(** [_sanitize_name] on a name that is already trimmed and not empty. *)
Lemma sanitize_trimmed (x fallback : str) :
  strip x <> [] -> _sanitize_name (strip x) fallback = firstn 255 (strip x).
Proof.
  intros H. unfold _sanitize_name. rewrite strip_idem.
  destruct (strip x) as [|c r] eqn:E; [contradiction|].
  destruct (255 <? length (c :: r))%nat eqn:L; [reflexivity|].
  apply Nat.ltb_ge in L. symmetry. apply firstn_all2. lia.
Qed.

Lemma In_enumerate {A} (l : list A) (i : nat) (x : A) :
  In (i, x) (enumerate l) -> In x l.
Proof. unfold enumerate. apply in_combine_r. Qed.

Lemma In_clean_names (names : list str) (n : str) :
  In n (clean_names_of names) ->
  exists nm fallback, In nm names /\ n = _sanitize_name nm fallback.
Proof.
  unfold clean_names_of. intros H.
  apply filter_In in H. destruct H as [H _].
  apply in_map_iff in H. destruct H as [[i nm] [<- Hin]].
  exists nm, (lit "Item " ++ str_of_nat (i + 1)). split; [|reflexivity].
  eapply In_enumerate. exact Hin.
Qed.

Lemma In_firstn {A} (n : nat) (l : list A) (x : A) :
  In x (firstn n l) -> In x l.
Proof.
  revert l. induction n as [|n IH]; intros [|y l]; simpl; try tauto.
  intros [->|H]; auto.
Qed.

Lemma In_skipn {A} (n : nat) (l : list A) (x : A) :
  In x (skipn n l) -> In x l.
Proof.
  revert l. induction n as [|n IH]; intros [|y l]; simpl; try tauto.
  intros H. right. apply IH. exact H.
Qed.

Lemma In_chunks {A} (n : nat) (l c : list A) (x : A) :
  In c (chunks n l) -> In x c -> In x l.
Proof.
  unfold chunks. generalize (length l) as fuel. intros fuel. revert l.
  induction fuel as [|fuel IH]; intros [|y l]; simpl; try tauto.
  intros [<-|H] Hx.
  - exact (In_firstn n (y :: l) x Hx).
  - exact (In_skipn n (y :: l) x (IH _ H Hx)).
Qed.

Lemma In_slice_to {A} (n : Z) (l : list A) (x : A) :
  In x (slice_to n l) -> In x l.
Proof. unfold slice_to. destruct (0 <=? n)%Z; apply In_firstn. Qed.

Lemma slice_to_length {A} (n : Z) (l : list A) :
  (0 <= n)%Z -> (Z.of_nat (length (slice_to n l)) <= n)%Z.
Proof.
  intros H. unfold slice_to. rewrite (proj2 (Z.leb_le 0 n) H).
  rewrite length_firstn. lia.
Qed.

(** ** The planner and the executor *)

Tactic Notation "inv_bind" hyp(H) "as" ident(a) ident(w) ident(H1) ident(H2) :=
  apply bind_ret_inv in H;
  destruct H as (a & w & ? & ? & H1 & H2 & ->).

Lemma relocate_calls_none (t : list Event) :
  Forall not_move_event t -> relocate_calls t = [].
Proof.
  unfold relocate_calls, requests_of.
  induction 1 as [|ev t Hev _ IH]; [reflexivity|].
  destruct ev; simpl in *; auto. rewrite Hev. exact IH.
Qed.

Section RunFacts.

Variable W : Type.
Variable remote : Request -> W -> Reply * W.
Variable cluster_oracle : list Item -> W -> Res (list Group) * W.
Variable strptime_utc : str -> option Z.
Variable fromisoformat : str -> option Z.

Lemma emits_create_subitems P parent names :
  (forall chunk rep,
      (forall n, In n chunk -> In n (clean_names_of names)) ->
      P (EvGql (MCreateBatch parent chunk) rep)) ->
  (forall n rep, In n (clean_names_of names) ->
                 P (EvGql (MCreateSingle parent n) rep)) ->
  (forall d, P (EvSleep d)) ->
  (forall n e, P (EvPrintFailed parent n e)) ->
  emits W P (create_subitems W remote parent names).
Proof.
  intros Hb Hs Hd Hp. unfold create_subitems.
  destruct (clean_names_of names) as [|c cs] eqn:E; [apply emits_ret|].
  apply emits_for_each. intros chunk Hchunk.
  unfold create_chunk. apply emits_try_except.
  - apply emits_bind.
    + apply emits_gql_with_retry; [|exact Hd].
      intros rep. apply Hb. intros n Hn.
      exact (In_chunks 20 _ chunk n Hchunk Hn).
    + intros _. apply emits_sleep, Hd.
  - intros _. apply emits_for_each. intros nm Hnm. unfold create_single.
    apply emits_try_except.
    + apply emits_bind.
      * apply emits_gql_with_retry; [|exact Hd].
        intros rep. apply Hs.
        exact (In_chunks 20 _ chunk nm Hchunk Hnm).
      * intros _. apply emits_sleep, Hd.
    + intros e2. apply emits_emit, Hp.
Qed.

Lemma emits_move_items P ids group_id :
  (forall chunk rep, P (EvGql (MMove chunk group_id) rep)) ->
  (forall d, P (EvSleep d)) ->
  emits W P (move_items W remote ids group_id).
Proof.
  intros Hm Hd. unfold move_items. destruct ids; [apply emits_ret|].
  apply emits_for_each. intros chunk _. apply emits_bind.
  - apply emits_gql_with_retry; [apply Hm|exact Hd].
  - intros _. apply emits_sleep, Hd.
Qed.

Lemma emits_archive_items P ids :
  (forall chunk rep, P (EvGql (MArchive chunk) rep)) ->
  (forall d, P (EvSleep d)) ->
  emits W P (archive_items W remote ids).
Proof.
  intros Hm Hd. unfold archive_items. destruct ids; [apply emits_ret|].
  apply emits_for_each. intros chunk _. apply emits_bind.
  - apply emits_gql_with_retry; [apply Hm|exact Hd].
  - intros _. apply emits_sleep, Hd.
Qed.

Lemma emits_after_action P cfg names r a :
  (forall chunk g rep, P (EvGql (MMove chunk g) rep)) ->
  (forall chunk rep, P (EvGql (MArchive chunk) rep)) ->
  (forall d, P (EvSleep d)) ->
  emits W P (after_action W remote cfg names r a).
Proof.
  intros Hm Ha Hd. unfold after_action. destruct r; [apply emits_ret|].
  destruct (_ && _).
  - apply emits_bind; [apply emits_move_items; auto|].
    intros _. apply emits_ret.
  - destruct (str_eqb _ _); [|apply emits_ret].
    apply emits_bind; [apply emits_archive_items; auto|].
    intros _. apply emits_ret.
Qed.

(** With [AFTER_ACTION = "move"] and no [MOVE_GROUP_ID] the after-action
    does nothing. *)
Lemma after_action_move_without_group cfg names r a w :
  AFTER_ACTION cfg = lit "move" -> MOVE_GROUP_ID cfg = [] ->
  after_action W remote cfg names r a w = (Ret a, w, []).
Proof.
  intros Ha Hg. unfold after_action. rewrite Ha, Hg.
  destruct r; reflexivity.
Qed.

Lemma after_action_none cfg names r a w :
  AFTER_ACTION cfg = lit "none" ->
  after_action W remote cfg names r a w = (Ret a, w, []).
Proof.
  intros Ha. unfold after_action. rewrite Ha.
  destruct r; reflexivity.
Qed.

Lemma after_action_total_created cfg names r a w a' w' t :
  after_action W remote cfg names r a w = (Ret a', w', t) ->
  total_created a' = total_created a.
Proof.
  unfold after_action. destruct r; [intros H; inversion H; reflexivity|].
  destruct (_ && _).
  - intros H. inv_bind H as u w1 Hm Hr. inversion Hr. reflexivity.
  - destruct (str_eqb _ _).
    + intros H. inv_bind H as u w1 Hm Hr. inversion Hr. reflexivity.
    + intros H. inversion H. reflexivity.
Qed.

Lemma emits_consolidate P cfg names a parent children existing :
  (forall chunk rep,
      (forall n, In n chunk ->
         In n (clean_names_of
                 (map snd (pending_of names existing children)))) ->
      P (EvGql (MCreateBatch parent chunk) rep)) ->
  (forall n rep,
      In n (clean_names_of (map snd (pending_of names existing children))) ->
      P (EvGql (MCreateSingle parent n) rep)) ->
  (forall d, P (EvSleep d)) ->
  (forall n e, P (EvPrintFailed parent n e)) ->
  (forall r a', emits W P (after_action W remote cfg names r a')) ->
  emits W P (consolidate W remote cfg names a parent children existing).
Proof.
  intros Hb Hs Hd Hp Ha. unfold consolidate. cbv zeta.
  apply emits_bind.
  - destruct (pending_of names existing children) eqn:E; [apply emits_ret|].
    apply emits_bind.
    + apply emits_create_subitems; auto.
    + intros _. apply emits_ret.
  - intros ae. apply emits_bind; [apply Ha|].
    intros a3. apply emits_bind; [apply emits_sleep, Hd|].
    intros _. apply emits_ret.
Qed.

Lemma consolidate_total_created cfg names a parent children existing
    w a' w' t :
  consolidate W remote cfg names a parent children existing w
    = (Ret a', w', t) ->
  total_created a'
  = (total_created a
     + Z.of_nat (length (pending_of names existing children)))%Z.
Proof.
  unfold consolidate. cbv zeta. intros H.
  inv_bind H as ae w1 Hcreate Hrest.
  inv_bind Hrest as a3 w2 Hafter Hsleep.
  apply after_action_total_created in Hafter.
  inv_bind Hsleep as u w3 Hs Hr. inversion Hr; subst. rewrite Hafter.
  clear Hafter Hs Hr.
  destruct (pending_of names existing children) eqn:E.
  - inversion Hcreate; subst. simpl.
    destruct (represented_of _ _ _); simpl; lia.
  - inv_bind Hcreate as u' w4 Hc Hr. inversion Hr; subst. cbn [fst snd].
    rewrite length_map.
    destruct (represented_of _ _ _); reflexivity.
Qed.

Lemma process_group_short cfg names a g w :
  (length (item_ids_oldest_first g) < 2)%nat ->
  process_group W remote cfg names a g w = (Ret a, w, []).
Proof.
  unfold process_group. destruct (item_ids_oldest_first g) as [|x [|y l]];
    simpl; intros H; try reflexivity; lia.
Qed.

Lemma get_existing_inv parent w e w1 t :
  get_existing_subitem_names W remote parent w = (Ret e, w1, t) ->
  exists reply,
    remote (QSubitems parent) w = (RData reply, w1)
    /\ e = existing_of reply
    /\ t = [EvGql (QSubitems parent) (RData reply)].
Proof.
  unfold get_existing_subitem_names, bind, gql, ret.
  destruct (remote (QSubitems parent) w) as [[reply|msg] w0];
    intros H; inversion H; subst.
  exists reply. auto.
Qed.

(** C8.  [create_subitems] never raises, whatever the remote side
    answers; and a round of the loop that returns has added to
    [total_created] (the [created_subitems] of the summary) the full
    number of pending names of its group: failed creations are printed
    and not subtracted. *)
Theorem created_subitems_counts_attempts cfg names a g w a' w' t :
  process_group W remote cfg names a g w = (Ret a', w', t) ->
  (forall parent ns, never_raises W (create_subitems W remote parent ns))
  /\ match item_ids_oldest_first g with
     | parent :: _ :: _ =>
         exists reply w1,
           remote (QSubitems parent) w = (RData reply, w1)
           /\ total_created a'
              = (total_created a
                 + Z.of_nat
                     (length
                        (pending_of names (existing_of reply)
                           (children_of cfg (item_ids_oldest_first g)))))%Z
     | _ => total_created a' = total_created a
     end.
Proof.
  intros H. split; [intros; apply create_subitems_never_raises|].
  unfold process_group in H.
  destruct (item_ids_oldest_first g) as [|parent [|c rest]] eqn:E;
    try (inversion H; reflexivity).
  inv_bind H as e w1 Hfetch Hcons.
  apply get_existing_inv in Hfetch. destruct Hfetch as (reply & Hr & -> & _).
  exists reply, w1. split; [exact Hr|].
  eapply consolidate_total_created. exact Hcons.
Qed.

Lemma select_groups_sliced cfg items w groups w1 t1 :
  select_groups W cluster_oracle strptime_utc fromisoformat cfg items w
    = (Ret groups, w1, t1) ->
  exists l, groups = slice_to (MAX_GROUPS cfg) l.
Proof.
  unfold select_groups, plan_exact, plan_ai, plan_hybrid.
  destruct (str_eqb _ _).
  - intros H. inversion H. eauto.
  - destruct (str_eqb _ _); intros H; inv_bind H as g w2 Hc Hr;
      inversion Hr; eauto.
Qed.

(** C9.  The [processed_groups] of the summary is the number of the
    selected candidate groups, at most [MAX_GROUPS]; a group with fewer
    than two member ids is among them although its round does nothing:
    no call, no sleep, no change of the counters. *)
Theorem processed_groups_counts_selected cfg items w s w' t :
  main W remote cluster_oracle strptime_utc fromisoformat cfg items w
    = (Ret s, w', t) ->
  (exists groups w1 t1,
      select_groups W cluster_oracle strptime_utc fromisoformat cfg items w
        = (Ret groups, w1, t1)
      /\ processed_groups s = Z.of_nat (length groups)
      /\ ((0 <= MAX_GROUPS cfg)%Z ->
          (processed_groups s <= MAX_GROUPS cfg)%Z))
  /\ (forall names a g w0,
         (length (item_ids_oldest_first g) < 2)%nat ->
         process_group W remote cfg names a g w0 = (Ret a, w0, [])).
Proof.
  intros H. split; [|intros; apply process_group_short; assumption].
  unfold main in H. inv_bind H as groups w1 Hsel Hrest.
  inv_bind Hrest as a w2 Hrun Hret. inversion Hret; subst; clear Hret.
  eexists groups, w1, _. split; [exact Hsel|]. cbn [processed_groups].
  split; [reflexivity|]. intros Hmax.
  apply select_groups_sliced in Hsel. destruct Hsel as [l ->].
  apply slice_to_length. exact Hmax.
Qed.

(** C10.  A [GROUPING] value that is neither "exact" nor "ai" selects the
    hybrid plan: the dispatch has no other branch. *)
Theorem unrecognised_grouping_is_hybrid cfg items :
  GROUPING cfg <> lit "exact" -> GROUPING cfg <> lit "ai" ->
  select_groups W cluster_oracle strptime_utc fromisoformat cfg items
  = plan_hybrid W cluster_oracle strptime_utc fromisoformat cfg items.
Proof.
  intros He Ha. unfold select_groups.
  rewrite (str_eqb_neq _ _ He), (str_eqb_neq _ _ Ha). reflexivity.
Qed.

(** *** A run whose after-action does nothing *)

Section NoAfterAction.

Variable cfg : Config.
Variable names : gmap str str.
Hypothesis Hnoop : forall r a w,
  after_action W remote cfg names r a w = (Ret a, w, []).

Lemma emits_after_action_noop P r a :
  emits W P (after_action W remote cfg names r a).
Proof. intros w. rewrite Hnoop. constructor. Qed.

Lemma emits_process_group_noop a g :
  emits W not_move_event (process_group W remote cfg names a g).
Proof.
  unfold process_group.
  destruct (item_ids_oldest_first g) as [|parent [|c rest]];
    try apply emits_ret.
  apply emits_bind.
  - unfold get_existing_subitem_names. apply emits_bind.
    + apply emits_gql. intros rep. reflexivity.
    + intros d. apply emits_ret.
  - intros e. apply emits_consolidate; try (intros; exact I);
      try (intros; reflexivity).
    intros r a'. apply emits_after_action_noop.
Qed.

Lemma emits_process_groups_noop groups :
  forall a, emits W not_move_event
              (process_groups W remote cfg names a groups).
Proof.
  induction groups as [|g groups IH]; intros a; simpl.
  - apply emits_ret.
  - apply emits_bind; [apply emits_process_group_noop|exact IH].
Qed.

Lemma consolidate_moved_noop a parent children existing w a' w' t :
  consolidate W remote cfg names a parent children existing w
    = (Ret a', w', t) ->
  moved a' = moved a /\ acc_moved_items a' = acc_moved_items a.
Proof.
  unfold consolidate. cbv zeta. intros H.
  inv_bind H as ae w1 Hcreate Hrest.
  inv_bind Hrest as a3 w2 Hafter Hsleep.
  rewrite Hnoop in Hafter. inversion Hafter; subst; clear Hafter.
  inv_bind Hsleep as u w3 Hs Hr. inversion Hr; subst. clear Hs Hr.
  destruct (pending_of names existing children) eqn:E.
  - inversion Hcreate; subst. simpl.
    destruct (represented_of _ _ _); simpl; auto.
  - inv_bind Hcreate as u' w4 Hc Hr. inversion Hr; subst. cbn [fst snd].
    destruct (represented_of _ _ _); simpl; auto.
Qed.

Lemma process_groups_moved_noop groups :
  forall a w a' w' t,
    process_groups W remote cfg names a groups w = (Ret a', w', t) ->
    moved a' = moved a /\ acc_moved_items a' = acc_moved_items a.
Proof.
  induction groups as [|g groups IH]; intros a w a' w' t H; simpl in H.
  - inversion H. auto.
  - inv_bind H as a1 w1 Hg Hrest.
    apply IH in Hrest. destruct Hrest as [-> ->].
    unfold process_group in Hg.
    destruct (item_ids_oldest_first g) as [|parent [|c rest]];
      try (inversion Hg; auto; fail).
    inv_bind Hg as e w2 Hfetch Hcons.
    eapply consolidate_moved_noop. exact Hcons.
Qed.

End NoAfterAction.

Lemma bind_ext2 {A B} (m m' : M W A) (f g : A -> M W B) w :
  m w = m' w -> (forall a w1, f a w1 = g a w1) ->
  bind W m f w = bind W m' g w.
Proof.
  intros Hm Hf. unfold bind. rewrite Hm.
  destruct (m' w) as [[[a|e] w1] t1]; [|reflexivity].
  rewrite Hf. reflexivity.
Qed.

(** Two configurations whose after-actions do nothing and whose other
    settings agree run the same rounds. *)
Lemma consolidate_noop_ext cfg cfg' names a parent children existing w :
  (forall r a w, after_action W remote cfg names r a w = (Ret a, w, [])) ->
  (forall r a w, after_action W remote cfg' names r a w = (Ret a, w, [])) ->
  consolidate W remote cfg names a parent children existing w
  = consolidate W remote cfg' names a parent children existing w.
Proof.
  intros H H'. unfold consolidate. cbv zeta.
  apply bind_ext. intros ae w1.
  apply bind_ext2; [|reflexivity]. rewrite H, H'. reflexivity.
Qed.

Lemma process_groups_noop_ext cfg names groups :
  (forall r a w, after_action W remote cfg names r a w = (Ret a, w, [])) ->
  forall a w,
    process_groups W remote cfg names a groups w
    = process_groups W remote (without_after_action cfg) names a groups w.
Proof.
  intros H.
  assert (H' : forall r a w,
             after_action W remote (without_after_action cfg) names r a w
             = (Ret a, w, []))
    by (intros; apply after_action_none; reflexivity).
  induction groups as [|g groups IH]; intros a w; simpl; [reflexivity|].
  apply bind_ext2; [|exact IH].
  unfold process_group.
  destruct (item_ids_oldest_first g) as [|parent [|c rest]];
    try reflexivity.
  apply bind_ext. intros e w1.
  apply (consolidate_noop_ext cfg (without_after_action cfg)); assumption.
Qed.

Lemma emits_select_groups P cfg items :
  (forall fed, P (EvCluster fed)) ->
  emits W P
    (select_groups W cluster_oracle strptime_utc fromisoformat cfg items).
Proof.
  intros HP.
  assert (Hai : forall l, emits W P (ai_cluster_items W cluster_oracle l)).
  { intros l w. unfold ai_cluster_items.
    destruct (cluster_oracle l w) as [r w1]. simpl.
    repeat constructor. apply HP. }
  unfold select_groups, plan_exact, plan_ai, plan_hybrid.
  destruct (str_eqb _ _); [apply emits_ret|].
  destruct (str_eqb _ _); (apply emits_bind; [apply Hai|]);
    intros g; apply emits_ret.
Qed.

(** C7.  With [AFTER_ACTION = "move"] and [MOVE_GROUP_ID] empty a run is
    the run of the same configuration with [AFTER_ACTION = "none"]: the
    same fetches and the same child-record creations, in the same order,
    with the same outcome.  Its trace holds no relocate call, and the
    summary it returns has [moved_originals = 0] and no moved item. *)
Theorem move_without_group_relocates_nothing cfg items w :
  AFTER_ACTION cfg = lit "move" -> MOVE_GROUP_ID cfg = [] ->
  let run :=
    main W remote cluster_oracle strptime_utc fromisoformat cfg items w in
  run = main W remote cluster_oracle strptime_utc fromisoformat
          (without_after_action cfg) items w
  /\ relocate_calls (snd run) = []
  /\ forall s, fst (fst run) = Ret s ->
               moved_originals s = 0%Z /\ moved_items s = [].
Proof.
  intros Ha Hg.
  assert (Hnoop : forall names r a w0,
             after_action W remote cfg names r a w0 = (Ret a, w0, []))
    by (intros; apply after_action_move_without_group; assumption).
  cbv zeta. split; [|split].
  - unfold main. apply bind_ext2; [reflexivity|].
    intros groups w1. apply bind_ext2; [|reflexivity].
    apply process_groups_noop_ext. apply Hnoop.
  - apply relocate_calls_none. revert w.
    change (emits W not_move_event
              (main W remote cluster_oracle strptime_utc fromisoformat
                 cfg items)).
    unfold main. apply emits_bind.
    + apply emits_select_groups. intros fed. exact I.
    + intros groups. apply emits_bind.
      * apply emits_process_groups_noop. apply Hnoop.
      * intros a. apply emits_ret.
  - intros s Hs.
    destruct (main W remote cluster_oracle strptime_utc fromisoformat
                cfg items w) as [[r w'] t] eqn:E.
    simpl in Hs. subst r. unfold main in E.
    inv_bind E as groups w1 Hsel Hrest.
    inv_bind Hrest as a w2 Hrun Hret.
    inversion Hret; subst; clear Hret. cbn [moved_originals moved_items].
    apply (process_groups_moved_noop cfg _ (Hnoop _)) in Hrun.
    exact Hrun.
Qed.

(** *** Hybrid mode *)

Lemma elem_of_fold_union (gs : list Group) (u0 : gset str) (id : str) :
  id ∈ fold_left (fun u g => u ∪ list_to_set (item_ids_oldest_first g))
                 gs u0
  <-> id ∈ u0 \/ exists g, In g gs /\ In id (item_ids_oldest_first g).
Proof.
  revert u0. induction gs as [|g gs IH]; intros u0; simpl.
  - split; [auto|intros [H|[g [[] _]]]; exact H].
  - rewrite IH, elem_of_union, elem_of_list_to_set, list_elem_of_In.
    split.
    + intros [[H|H]|[g' [Hg Hid]]]; eauto.
    + intros [H|[g' [[<-|Hg] Hid]]]; eauto.
Qed.

Lemma elem_of_used_ids cfg items id :
  id ∈ used_ids strptime_utc fromisoformat cfg items
  <-> exists g, In g (exact_first strptime_utc fromisoformat cfg items)
                /\ In id (item_ids_oldest_first g).
Proof.
  unfold used_ids. rewrite elem_of_fold_union. split.
  - intros [H|H]; [|exact H]. apply not_elem_of_empty in H. destruct H.
  - intros H. right. exact H.
Qed.

(** C4.  In hybrid mode the semantic clusterer is called once, on the
    leftovers; the plan is the exact groups with [count >= MIN_COUNT]
    followed by the clusters, cut at [MAX_GROUPS]; and no item fed to the
    clusterer has its id in one of these exact groups. *)
Theorem hybrid_exact_disjoint_from_clustered cfg items w :
  GROUPING cfg <> lit "exact" -> GROUPING cfg <> lit "ai" ->
  let run :=
    select_groups W cluster_oracle strptime_utc fromisoformat cfg items w in
  clusterer_inputs (snd run)
  = [leftovers strptime_utc fromisoformat cfg items]
  /\ (forall groups, fst (fst run) = Ret groups ->
        exists ai_groups,
          groups = slice_to (MAX_GROUPS cfg)
                     (exact_first strptime_utc fromisoformat cfg items
                      ++ ai_groups))
  /\ (forall g it,
        In g (exact_first strptime_utc fromisoformat cfg items) ->
        In it (leftovers strptime_utc fromisoformat cfg items) ->
        ~ In (item_id it) (item_ids_oldest_first g)).
Proof.
  intros He Ha. cbv zeta.
  unfold select_groups.
  rewrite (str_eqb_neq _ _ He), (str_eqb_neq _ _ Ha).
  unfold plan_hybrid, bind, ai_cluster_items, ret.
  destruct (cluster_oracle _ w) as [[ai_groups|msg] w1]; simpl.
  - split; [reflexivity|]. split.
    + intros groups H. inversion H. eauto.
    + intros g it Hg Hit Hin. unfold leftovers in Hit.
      apply filter_In in Hit. destruct Hit as [_ Hit].
      apply negb_true_iff, bool_decide_eq_false in Hit. apply Hit.
      apply elem_of_used_ids. eauto.
  - split; [reflexivity|]. split.
    + intros groups H. discriminate.
    + intros g it Hg Hit Hin. unfold leftovers in Hit.
      apply filter_In in Hit. destruct Hit as [_ Hit].
      apply negb_true_iff, bool_decide_eq_false in Hit. apply Hit.
      apply elem_of_used_ids. eauto.
Qed.

(** *** The diff before creation *)

Lemma pending_of_spec names existing children cid nm :
  In (cid, nm) (pending_of names existing children) <->
  In cid children /\ nm = strip (display_name names cid)
  /\ nm <> [] /\ (nm ∉ existing).
Proof.
  unfold pending_of. rewrite filter_In, in_map_iff. cbn [snd].
  rewrite andb_true_iff, !negb_true_iff, bool_decide_eq_false.
  split.
  - intros [[c [Hc Hin]] [Hne Hex]]. inversion Hc; subst.
    repeat split; auto.
    intros E. rewrite E in Hne. discriminate.
  - intros (Hin & -> & Hne & Hex). repeat split; eauto.
    apply str_eqb_neq. exact Hne.
Qed.

(** A name that [create_subitems] sends for the pending children is the
    trimmed display name of a pending child, cut to 255 characters. *)
Lemma created_name_spec names existing children n :
  In n (clean_names_of (map snd (pending_of names existing children))) ->
  exists cid,
    In cid children
    /\ strip (display_name names cid) <> []
    /\ (strip (display_name names cid) ∉ existing)
    /\ n = firstn 255 (strip (display_name names cid)).
Proof.
  intros H. apply In_clean_names in H.
  destruct H as (nm & fallback & Hnm & ->).
  apply in_map_iff in Hnm. destruct Hnm as [[cid nm'] [E Hin]].
  simpl in E. subst nm'.
  apply pending_of_spec in Hin. destruct Hin as (Hc & -> & Hne & Hex).
  exists cid. repeat split; auto. apply sanitize_trimmed. exact Hne.
Qed.

Lemma created_names_cons ev t :
  created_names (ev :: t) = created_names [ev] ++ created_names t.
Proof.
  unfold created_names, requests_of. simpl.
  rewrite !app_nil_r. apply flat_map_app.
Qed.

Lemma created_names_app t1 t2 :
  created_names (t1 ++ t2) = created_names t1 ++ created_names t2.
Proof.
  induction t1 as [|ev t1 IH]; [reflexivity|].
  simpl. rewrite created_names_cons, (created_names_cons ev t1), IH.
  apply app_assoc.
Qed.

Lemma created_names_Forall (Q : str * str -> Prop) t :
  Forall (fun ev => forall x, In x (created_names [ev]) -> Q x) t ->
  forall x, In x (created_names t) -> Q x.
Proof.
  induction 1 as [|ev t Hev _ IH]; intros x Hx; [destruct Hx|].
  rewrite created_names_cons in Hx. apply in_app_iff in Hx.
  destruct Hx; auto.
Qed.

(** C1, as the code has it.  Every child record that a round of the loop
    asks to create is for a child whose trimmed display name is not empty
    and not in the set of existing names fetched at the start of the
    round; the name sent is that display name cut to 255 characters.  So
    for a display name of at most 255 characters the name sent is not in
    the fetched set. *)
Theorem creation_respects_existing cfg names a g w r w' t p n :
  process_group W remote cfg names a g w = (r, w', t) ->
  In (p, n) (created_names t) ->
  exists reply w1 cid,
    hd_error (item_ids_oldest_first g) = Some p
    /\ remote (QSubitems p) w = (RData reply, w1)
    /\ In cid (children_of cfg (item_ids_oldest_first g))
    /\ strip (display_name names cid) <> []
    /\ (strip (display_name names cid) ∉ existing_of reply)
    /\ n = firstn 255 (strip (display_name names cid))
    /\ ((length (strip (display_name names cid)) <= 255)%nat ->
        n = strip (display_name names cid) /\ (n ∉ existing_of reply)).
Proof.
  unfold process_group.
  destruct (item_ids_oldest_first g) as [|parent [|c rest]] eqn:E;
    try (intros H; inversion H; subst; intros []).
  unfold bind, get_existing_subitem_names, bind, gql, ret.
  destruct (remote (QSubitems parent) w) as [[reply|msg] w1] eqn:Er;
    [|intros H; inversion H; subst; intros []].
  simpl.
  pose proof (emits_consolidate
    (fun ev => forall x, In x (created_names [ev]) ->
       fst x = parent /\
       exists cid,
         In cid (children_of cfg (parent :: c :: rest))
         /\ strip (display_name names cid) <> []
         /\ (strip (display_name names cid) ∉ existing_of reply)
         /\ snd x = firstn 255 (strip (display_name names cid)))
    cfg names a parent (children_of cfg (parent :: c :: rest))
    (existing_of reply)) as Hem.
  specialize (Hem
    ltac:(intros chunk rep Hc [p' n'] Hx; unfold created_names in Hx;
          simpl in Hx; rewrite app_nil_r in Hx;
          apply in_map_iff in Hx; destruct Hx as [n0 [Hx Hn0]];
          inversion Hx; subst; split; [reflexivity|];
          apply created_name_spec, Hc, Hn0)
    ltac:(intros n0 rep Hn0 [p' n'] Hx; unfold created_names in Hx;
          simpl in Hx; destruct Hx as [Hx|[]];
          inversion Hx; subst; split; [reflexivity|];
          apply created_name_spec, Hn0)
    ltac:(intros d x [])
    ltac:(intros n0 e x [])
    ltac:(intros r0 a0; apply emits_after_action; intros;
          match goal with H : In _ _ |- _ => destruct H end)
    w1).
  destruct (consolidate W remote cfg names a parent
              (children_of cfg (parent :: c :: rest))
              (existing_of reply) w1) as [[r2 w2] t2].
  simpl in Hem. intros H. inversion H; subst; clear H. intros Hin.
  rewrite created_names_cons in Hin. simpl in Hin.
  pose proof (created_names_Forall _ _ Hem _ Hin) as [Hp (cid & H1 & H2 & H3 & H4)].
  simpl in Hp, H4. subst p.
  exists reply, w1, cid. repeat split; auto.
  - rewrite H4. apply firstn_all2. assumption.
  - rewrite H4, firstn_all2 by assumption. exact H3.
Qed.

End RunFacts.

(** ** The theorems on the concrete scenarios *)

Import Scenario.

(** C3 on a world that answers every call with "HTTP 429 ...". *)
Lemma gql_with_retry_http_429_witness :
  (forall w, exists msg w',
      remote_429 (MArchive [lit "1"]) w = (RError msg, w')
      /\ contains (lit "HTTP 429") msg = true)
  /\ exists msg w' t,
      gql_with_retry unit remote_429 (MArchive [lit "1"]) tt = (Exc msg, w', t)
      /\ contains (lit "HTTP 429") msg = true
      /\ requests_of t = repeat (MArchive [lit "1"]) 5
      /\ sleeps_of t = map retry_delay [0; 1; 2; 3]%nat
      /\ Forall2 Qeq (sleeps_of t) [1 # 2; 11 # 10; 22 # 10; 43 # 10]
      /\ StronglySorted Qlt (sleeps_of t).
Proof.
  assert (H : forall w, exists msg w',
             remote_429 (MArchive [lit "1"]) w = (RError msg, w')
             /\ contains (lit "HTTP 429") msg = true).
  { intros w. exists (lit "HTTP 429 from Monday. Body: {}"), w.
    split; reflexivity. }
  split; [exact H|].
  exact (gql_with_retry_http_429 unit remote_429 (MArchive [lit "1"]) H tt).
Defined.

(** C10 on a misspelt mode coming from the environment. *)
Lemma unrecognised_grouping_is_hybrid_witness :
  let cfg :=
    mkConfig (resolve_GROUPING (Some (lit "Hybird")) ∅) 2 8 25 (lit "none") []
  in
  GROUPING cfg = lit "hybird"
  /\ select_groups unit no_clusters no_parse no_parse cfg three_items
     = plan_hybrid unit no_clusters no_parse no_parse cfg three_items.
Proof.
  split; [reflexivity|].
  apply unrecognised_grouping_is_hybrid;
    intros H; vm_compute in H; discriminate H.
Defined.

(** C4 on three items of which two are exact duplicates: only the third
    is fed to the clusterer. *)
Lemma hybrid_exact_disjoint_from_clustered_witness :
  let cfg := config "hybrid" "none" "" 2 in
  let run := select_groups unit no_clusters no_parse no_parse cfg three_items tt
  in
  map item_ids_oldest_first (exact_first no_parse no_parse cfg three_items)
  = [[lit "1"; lit "2"]]
  /\ map item_id (leftovers no_parse no_parse cfg three_items) = [lit "3"]
  /\ clusterer_inputs (snd run)
     = [leftovers no_parse no_parse cfg three_items]
  /\ (forall g it,
        In g (exact_first no_parse no_parse cfg three_items) ->
        In it (leftovers no_parse no_parse cfg three_items) ->
        ~ In (item_id it) (item_ids_oldest_first g)).
Proof.
  cbv zeta.
  destruct (hybrid_exact_disjoint_from_clustered unit no_clusters
              no_parse no_parse (config "hybrid" "none" "" 2) three_items tt)
    as (Hfed & _ & Hdisj);
    try (intros H; vm_compute in H; discriminate H).
  repeat split; try assumption; vm_compute; reflexivity.
Defined.

(** C7 on two duplicates: the child record is created, nothing is moved. *)
Lemma move_without_group_relocates_nothing_witness :
  let cfg := config "exact" "move" "" 2 in
  let run := main unit remote_ok no_clusters no_parse no_parse cfg
               two_duplicates tt in
  created_names (snd run) = [(lit "1", lit "RE: Site Visit Request")]
  /\ run = main unit remote_ok no_clusters no_parse no_parse
             (without_after_action cfg) two_duplicates tt
  /\ relocate_calls (snd run) = []
  /\ forall s, fst (fst run) = Ret s ->
               moved_originals s = 0%Z /\ moved_items s = [].
Proof.
  cbv zeta. split; [vm_compute; reflexivity|].
  apply (move_without_group_relocates_nothing unit remote_ok no_clusters
           no_parse no_parse (config "exact" "move" "" 2) two_duplicates tt);
    reflexivity.
Defined.

(** C8 on a world that refuses every creation: the batch fails, the single
    creation fails and is printed, and the counter is 1 all the same. *)
Lemma created_subitems_counts_attempts_witness :
  let cfg := config "exact" "none" "" 2 in
  let names := names_of two_duplicates in
  let refused := RError (lit "GraphQL errors: invalid item name") in
  let a' :=
    mkAcc 1 0 0
      [(lit "Site Visit Request",
        [lit "RE: Site Visit Request"; lit "RE: Site Visit Request"])]
      [] [] in
  process_group unit remote_refusing cfg names acc0 duplicates_group tt
  = (Ret a', tt,
     [EvGql (QSubitems (lit "1")) (RData []);
      EvGql (MCreateBatch (lit "1") [lit "RE: Site Visit Request"]) refused;
      EvGql (MCreateSingle (lit "1") (lit "RE: Site Visit Request")) refused;
      EvPrintFailed (lit "1") (lit "RE: Site Visit Request")
        (lit "GraphQL errors: invalid item name");
      EvSleep (1 # 20)])
  /\ (forall parent ns,
         never_raises unit (create_subitems unit remote_refusing parent ns))
  /\ exists reply w1,
       remote_refusing (QSubitems (lit "1")) tt = (RData reply, w1)
       /\ total_created a'
          = (total_created acc0
             + Z.of_nat
                 (length
                    (pending_of names (existing_of reply)
                       (children_of cfg [lit "1"; lit "2"]))))%Z.
Proof.
  cbv zeta.
  match goal with
  | |- ?run = ?res /\ _ =>
      assert (Hrun : run = res) by (vm_compute; reflexivity)
  end.
  split; [exact Hrun|].
  exact (created_subitems_counts_attempts unit remote_refusing _ _ _ _ _ _ _ _
           Hrun).
Defined.

(** C9 on a single item with [MIN_COUNT = 1]: its group of one is selected
    and counted, and the run does nothing. *)
Lemma processed_groups_counts_selected_witness :
  let cfg := config "exact" "none" "" 1 in
  let s := mkSummary 1 0 0 0 [] [] [] in
  main unit remote_ok no_clusters no_parse no_parse cfg [item "7" "Lonely"] tt
  = (Ret s, tt, [])
  /\ (exists groups w1 t1,
         select_groups unit no_clusters no_parse no_parse cfg
           [item "7" "Lonely"] tt
         = (Ret groups, w1, t1)
         /\ processed_groups s = Z.of_nat (length groups)
         /\ ((0 <= MAX_GROUPS cfg)%Z ->
             (processed_groups s <= MAX_GROUPS cfg)%Z))
  /\ (forall names a g w0,
         (length (item_ids_oldest_first g) < 2)%nat ->
         process_group unit remote_ok cfg names a g w0 = (Ret a, w0, [])).
Proof.
  cbv zeta.
  match goal with
  | |- ?run = ?res /\ _ =>
      assert (Hrun : run = res) by (vm_compute; reflexivity)
  end.
  split; [exact Hrun|].
  exact (processed_groups_counts_selected unit remote_ok no_clusters
           no_parse no_parse _ _ _ _ _ _ Hrun).
Defined.

(** C1 on two duplicates under a parent without child records: the child
    record is created, and its name is not in the fetched set. *)
Lemma creation_respects_existing_witness :
  let cfg := config "exact" "none" "" 2 in
  let names := names_of two_duplicates in
  let a' :=
    mkAcc 1 0 0
      [(lit "Site Visit Request",
        [lit "RE: Site Visit Request"; lit "RE: Site Visit Request"])]
      [] [] in
  let t :=
    [EvGql (QSubitems (lit "1")) (RData []);
     EvGql (MCreateBatch (lit "1") [lit "RE: Site Visit Request"]) (RData []);
     EvSleep (1 # 10);
     EvSleep (1 # 20)] in
  process_group unit remote_ok cfg names acc0 duplicates_group tt
  = (Ret a', tt, t)
  /\ In (lit "1", lit "RE: Site Visit Request") (created_names t)
  /\ exists reply w1 cid,
       hd_error (item_ids_oldest_first duplicates_group) = Some (lit "1")
       /\ remote_ok (QSubitems (lit "1")) tt = (RData reply, w1)
       /\ In cid (children_of cfg (item_ids_oldest_first duplicates_group))
       /\ strip (display_name names cid) <> []
       /\ (strip (display_name names cid) ∉ existing_of reply)
       /\ lit "RE: Site Visit Request"
          = firstn 255 (strip (display_name names cid))
       /\ ((length (strip (display_name names cid)) <= 255)%nat ->
           lit "RE: Site Visit Request" = strip (display_name names cid)
           /\ (lit "RE: Site Visit Request" ∉ existing_of reply)).
Proof.
  cbv zeta.
  match goal with
  | |- ?run = ?res /\ _ =>
      assert (Hrun : run = res) by (vm_compute; reflexivity)
  end.
  assert (Hin : In (lit "1", lit "RE: Site Visit Request")
                   (created_names
                      [EvGql (QSubitems (lit "1")) (RData []);
                       EvGql (MCreateBatch (lit "1")
                                [lit "RE: Site Visit Request"]) (RData []);
                       EvSleep (1 # 10);
                       EvSleep (1 # 20)]))
    by (left; reflexivity).
  split; [exact Hrun|]. split; [exact Hin|].
  exact (creation_respects_existing unit remote_ok _ _ _ _ _ _ _ _ _ _
           Hrun Hin).
Defined.

(** C1 as the claim words it fails on a display name of 256 characters: the
    name is not in the fetched set, so the child is pending; the name sent
    is its first 255 characters, and a child record with exactly that name
    is in the fetched set. *)
Lemma truncated_name_already_exists :
  let cfg := config "exact" "none" "" 2 in
  let run := process_group unit remote_long cfg long_names acc0 long_group tt in
  remote_long (QSubitems (lit "p")) tt = (RData [repeat (ch "a") 255], tt)
  /\ pending_of long_names (existing_of [repeat (ch "a") 255]) [lit "c"]
     = [(lit "c", repeat (ch "a") 256)]
  /\ requests_of (snd run)
     = [QSubitems (lit "p"); MCreateBatch (lit "p") [repeat (ch "a") 255]]
  /\ In (lit "p", repeat (ch "a") 255) (created_names (snd run))
  /\ repeat (ch "a") 255 ∈ existing_of [repeat (ch "a") 255]
  /\ ~ (forall p n, In (p, n) (created_names (snd run)) ->
                    n ∉ existing_of [repeat (ch "a") 255]).
Proof.
  cbv zeta.
  assert (Hreq : requests_of
                   (snd (process_group unit remote_long
                           (config "exact" "none" "" 2) long_names acc0
                           long_group tt))
                 = [QSubitems (lit "p");
                    MCreateBatch (lit "p") [repeat (ch "a") 255]])
    by (vm_compute; reflexivity).
  assert (Hin : In (lit "p", repeat (ch "a") 255)
                   (created_names
                      (snd (process_group unit remote_long
                              (config "exact" "none" "" 2) long_names acc0
                              long_group tt)))).
  { unfold created_names. rewrite Hreq. left. reflexivity. }
  assert (Hex : repeat (ch "a") 255 ∈ existing_of [repeat (ch "a") 255]).
  { unfold existing_of. apply elem_of_list_to_set, list_elem_of_In.
    vm_compute. left. reflexivity. }
  split; [reflexivity|].
  split; [vm_compute; reflexivity|].
  split; [exact Hreq|].
  split; [exact Hin|].
  split; [exact Hex|].
  intros H. exact (H _ _ Hin Hex).
Qed.

(** ** Exact grouping *)

Lemma insert_by_perm {A} (key : A -> Z * str) (x : A) (l : list A) :
  Permutation (insert_by key x l) (x :: l).
Proof.
  induction l as [|y l IH]; simpl; [apply Permutation_refl|].
  destruct (key_leb (key x) (key y)); [apply Permutation_refl|].
  eapply perm_trans; [apply perm_skip, IH|apply perm_swap].
Qed.

Lemma sort_by_perm {A} (key : A -> Z * str) (l : list A) :
  Permutation (sort_by key l) l.
Proof.
  induction l as [|x l IH]; simpl; [apply Permutation_refl|].
  eapply perm_trans; [apply insert_by_perm|apply perm_skip, IH].
Qed.

Lemma setdefault_append_perm {A} (key : str) (x : A) (d : list (str * list A)) :
  Permutation (concat (map snd (setdefault_append key x d)))
              (x :: concat (map snd d)).
Proof.
  induction d as [|[k arr] d IH]; simpl; [apply Permutation_refl|].
  destruct (str_eqb k key); simpl.
  - rewrite <- app_assoc. simpl. apply Permutation_sym, Permutation_middle.
  - eapply perm_trans; [apply Permutation_app_head, IH|].
    apply Permutation_sym, Permutation_middle.
Qed.

Lemma by_subj_fold_perm (shaped : list Shaped) (d : list (str * list Shaped)) :
  Permutation
    (concat (map snd
       (fold_left (fun d it => setdefault_append (subject_norm it) it d)
                  shaped d)))
    (concat (map snd d) ++ shaped).
Proof.
  revert d. induction shaped as [|it shaped IH]; intros d; simpl.
  - rewrite app_nil_r. apply Permutation_refl.
  - eapply perm_trans; [apply IH|].
    eapply perm_trans;
      [apply Permutation_app_tail, setdefault_append_perm|].
    simpl. apply Permutation_middle.
Qed.

Lemma concat_group_ids_perm (d : list (str * list Shaped)) :
  Permutation (concat (map item_ids_oldest_first (map group_of d)))
              (map sh_id (concat (map snd d))).
Proof.
  induction d as [|e d IH]; simpl; [apply Permutation_refl|].
  rewrite map_app. apply Permutation_app; [|exact IH].
  apply Permutation_map, sort_by_perm.
Qed.

Lemma concat_map_perm {A B} (f : A -> list B) (l l' : list A) :
  Permutation l l' -> Permutation (concat (map f l)) (concat (map f l')).
Proof.
  intros H. rewrite <- !flat_map_concat_map.
  apply Permutation_flat_map. exact H.
Qed.

(** The member ids of the groups, put together, are the ids of the items
    in another order: every item is in one group, once. *)
Lemma group_items_perm (strptime_utc fromisoformat : str -> option Z)
    (items : list Item) :
  Permutation
    (concat (map item_ids_oldest_first
               (grouped_exact strptime_utc fromisoformat items)))
    (map item_id items).
Proof.
  unfold grouped_exact, group_items. cbn [fst].
  eapply perm_trans; [apply concat_map_perm, sort_by_perm|].
  eapply perm_trans; [apply concat_group_ids_perm|].
  unfold by_subj_of.
  eapply perm_trans; [apply Permutation_map, by_subj_fold_perm|].
  simpl. rewrite map_map. apply Permutation_refl.
Qed.

Lemma NoDup_app_disjoint {A} (l k : list A) (x : A) :
  List.NoDup (l ++ k) -> In x l -> In x k -> False.
Proof.
  induction l as [|y l IH]; simpl; intros H Hl Hk; [destruct Hl|].
  inversion H as [|? ? Hy Hnd]; subst. destruct Hl as [->|Hl].
  - apply Hy. apply in_or_app. right. exact Hk.
  - exact (IH Hnd Hl Hk).
Qed.

Lemma NoDup_concat_disjoint {A} (ls : list (list A)) :
  List.NoDup (concat ls) ->
  forall i j li lj x,
    i <> j -> nth_error ls i = Some li -> nth_error ls j = Some lj ->
    In x li -> In x lj -> False.
Proof.
  induction ls as [|l ls IH]; intros Hnd i j li lj x Hij Hi Hj Hxi Hxj.
  - destruct i; discriminate.
  - simpl in Hnd. destruct i as [|i], j as [|j]; simpl in Hi, Hj.
    + congruence.
    + inversion Hi; subst. apply (NoDup_app_disjoint _ _ x Hnd Hxi).
      apply in_concat. exists lj. split; [|exact Hxj].
      eapply nth_error_In. exact Hj.
    + inversion Hj; subst. apply (NoDup_app_disjoint _ _ x Hnd Hxj).
      apply in_concat. exists li. split; [|exact Hxi].
      eapply nth_error_In. exact Hi.
    + apply (IH (NoDup_app_remove_l _ _ Hnd) i j li lj x); auto.
Qed.

(** C5.  Exact grouping partitions the items without loss.  The member
    ids of the exact groups, put together, are a rearrangement of the ids
    of the input items, so the union of the member-id sets is the set of
    the input ids; and, the ids of the items of a board being pairwise
    distinct (the id is the identity of an item), the member-id sets of
    two distinct groups are disjoint. *)
Theorem exact_grouping_partitions (strptime_utc fromisoformat : str -> option Z)
    (items : list Item) :
  let groups := grouped_exact strptime_utc fromisoformat items in
  Permutation (concat (map item_ids_oldest_first groups)) (map item_id items)
  /\ (forall id,
        In id (map item_id items)
        <-> exists g, In g groups /\ In id (item_ids_oldest_first g))
  /\ (List.NoDup (map item_id items) ->
      forall i j gi gj id,
        i <> j -> nth_error groups i = Some gi -> nth_error groups j = Some gj ->
        In id (item_ids_oldest_first gi) ->
        ~ In id (item_ids_oldest_first gj)).
Proof.
  cbv zeta. pose proof (group_items_perm strptime_utc fromisoformat items) as HP.
  split; [exact HP|]. split.
  - intros id. split.
    + intros H. apply (Permutation_in _ (Permutation_sym HP)) in H.
      apply in_concat in H. destruct H as [l [Hl Hid]].
      apply in_map_iff in Hl. destruct Hl as [g [<- Hg]]. eauto.
    + intros [g [Hg Hid]]. apply (Permutation_in _ HP).
      apply in_concat. exists (item_ids_oldest_first g).
      split; [apply in_map; exact Hg|exact Hid].
  - intros Hnd i j gi gj id Hij Hi Hj Hidi Hidj.
    apply (Permutation_NoDup (Permutation_sym HP)) in Hnd.
    eapply (NoDup_concat_disjoint _ Hnd i j _ _ id Hij);
      try (apply map_nth_error; eassumption); assumption.
Qed.

(** C5 on three items with distinct ids. *)
Lemma exact_grouping_partitions_witness :
  let groups := grouped_exact no_parse no_parse three_items in
  map item_ids_oldest_first groups = [[lit "1"; lit "2"]; [lit "3"]]
  /\ List.NoDup (map item_id three_items)
  /\ (forall i j gi gj id,
        i <> j -> nth_error groups i = Some gi -> nth_error groups j = Some gj ->
        In id (item_ids_oldest_first gi) ->
        ~ In id (item_ids_oldest_first gj)).
Proof.
  cbv zeta.
  assert (Hnd : List.NoDup (map item_id three_items)).
  { vm_compute. repeat constructor; intros H; simpl in H;
      repeat (destruct H as [H|H]; try discriminate H); exact H. }
  split; [vm_compute; reflexivity|]. split; [exact Hnd|].
  exact (proj2 (proj2 (exact_grouping_partitions no_parse no_parse three_items))
           Hnd).
Defined.

(** Where the distinctness of the ids is used: [group_items] groups by
    subject and does not look at ids, so on a list in which two items
    carried one id under two subjects (a listing of a board has no such
    items) that id would be a member of both groups. *)
Lemma same_id_in_two_groups :
  let items := [item "1" "Alpha"; item "1" "Beta"] in
  let groups := grouped_exact no_parse no_parse items in
  map (fun g => (g_subject_norm g, item_ids_oldest_first g)) groups
  = [(lit "alpha", [lit "1"]); (lit "beta", [lit "1"])]
  /\ ~ (forall i j gi gj id,
          i <> j ->
          nth_error groups i = Some gi -> nth_error groups j = Some gj ->
          In id (item_ids_oldest_first gi) ->
          ~ In id (item_ids_oldest_first gj)).
Proof.
  cbv zeta.
  assert (Hg : grouped_exact no_parse no_parse
                 [item "1" "Alpha"; item "1" "Beta"]
               = [mkGroup (lit "alpha") [lit "1"] 1;
                  mkGroup (lit "beta") [lit "1"] 1])
    by (vm_compute; reflexivity).
  rewrite Hg. split; [reflexivity|].
  intros H.
  apply (H 0%nat 1%nat _ _ (lit "1") ltac:(discriminate) eq_refl eq_refl);
    left; reflexivity.
Qed.

(** ** Subject normalisation *)

(** *** Characters *)

Ltac each_char c := destruct c as [[] [] [] [] [] [] [] []].

Lemma lower_char_idem (c : ascii) : lower_char (lower_char c) = lower_char c.
Proof. each_char c; reflexivity. Qed.

Lemma is_space_lower (c : ascii) : is_space (lower_char c) = is_space c.
Proof. each_char c; reflexivity. Qed.

Lemma is_colon_or_rbracket_lower (c : ascii) :
  is_colon_or_rbracket (lower_char c) = is_colon_or_rbracket c.
Proof. each_char c; reflexivity. Qed.

Lemma lower_idem (s : str) : lower (lower s) = lower s.
Proof.
  unfold lower. rewrite map_map. apply map_ext. intros c. apply lower_char_idem.
Qed.

(** No alternative of the prefix pattern starts at a blank. *)
Lemma prefix_group_space (c : ascii) (s : str) :
  is_space c = true -> prefix_group (c :: s) = None.
Proof. each_char c; intros H; try discriminate H; reflexivity. Qed.

Lemma space_is_blank (c : ascii) :
  is_space c = true -> chr_eqb (lower_char c) (ch " ") = chr_eqb c (ch " ").
Proof. each_char c; intros H; try discriminate H; reflexivity. Qed.

Lemma newline_is_space : is_space newline = true.
Proof. reflexivity. Qed.

(** *** The loops reach a fixed point *)

Lemma sub_loop_fixed (sub : str -> str) :
  shrinks sub ->
  forall fuel s, (length s < fuel)%nat ->
    sub (sub_loop sub fuel s) = sub_loop sub fuel s.
Proof.
  intros Hs. induction fuel as [|fuel IH]; intros s Hlen; [lia|].
  simpl. destruct (str_eqb (sub s) s) eqn:E.
  - apply str_eqb_eq. exact E.
  - apply IH.
    assert (sub s <> s) as Hne by (intros Heq; rewrite Heq, str_eqb_refl in E; discriminate).
    pose proof (Hs s Hne). pose proof (strip_length (sub s)). lia.
Qed.

Lemma strip_loop_fixed (sub : str -> str) (s : str) :
  shrinks sub -> sub (strip_loop sub s) = strip_loop sub s.
Proof. intros H. apply sub_loop_fixed; [exact H|lia]. Qed.

(** A loop keeps what its rounds keep. *)
Lemma sub_loop_invariant (P : str -> Prop) (sub : str -> str) :
  (forall s, P s -> P (strip (sub s))) ->
  forall fuel s, P s -> P (sub_loop sub fuel s).
Proof.
  intros H. induction fuel as [|fuel IH]; intros s Hs; simpl; [exact Hs|].
  destruct (str_eqb (sub s) s); [exact Hs|]. apply IH, H, Hs.
Qed.

Lemma drop_while_length p (s : str) : (length (drop_while p s) <= length s)%nat.
Proof.
  induction s as [|c s IH]; simpl; [lia|]. destruct (p c); simpl; lia.
Qed.

Lemma drop_while_suffix p (s : str) : exists q, s = q ++ drop_while p s.
Proof.
  induction s as [|c s [q IH]]; simpl; [exists []; reflexivity|].
  destruct (p c).
  - exists (c :: q). simpl. f_equal. exact IH.
  - exists []. reflexivity.
Qed.

Lemma bracket_tag_match_shorter (s r : str) :
  bracket_tag_match s = Some r -> (length r < length s)%nat.
Proof.
  unfold bracket_tag_match. pose proof (lstrip_length s) as Hl.
  destruct (lstrip s) as [|c u]; [discriminate|].
  destruct (chr_eqb c (ch "[")); [|discriminate].
  pose proof (drop_while_length not_rbracket u) as Hd.
  destruct (take_while not_rbracket u); [discriminate|].
  destruct (drop_while not_rbracket u) as [|y r']; [discriminate|].
  intros H. inversion H; subst. pose proof (lstrip_length r').
  simpl in *. lia.
Qed.

Lemma bracket_sub_shrinks : shrinks bracket_sub.
Proof.
  intros s. unfold bracket_sub.
  destruct (bracket_tag_match s) as [r|] eqn:E; [|congruence].
  intros _. apply bracket_tag_match_shorter. exact E.
Qed.

Lemma istarts_with_length (tok s r : str) :
  istarts_with tok s = Some r -> (length r + length tok = length s)%nat.
Proof.
  revert s. induction tok as [|p tok IH]; intros [|c s]; simpl;
    try discriminate.
  - intros H. inversion H. reflexivity.
  - intros H. inversion H. simpl. lia.
  - destruct (chr_eqb (lower_char c) p); [|discriminate].
    intros H. apply IH in H. lia.
Qed.

Lemma prefix_group_with_shorter (tok s r : str) :
  prefix_group_with tok s = Some r -> (length r < length s)%nat.
Proof.
  unfold prefix_group_with.
  destruct (istarts_with tok s) as [u|] eqn:E; [|discriminate].
  apply istarts_with_length in E. pose proof (lstrip_length u) as Hl.
  destruct (lstrip u) as [|c r']; [discriminate|].
  destruct (is_colon_or_rbracket c); [|discriminate].
  intros H. inversion H; subst. pose proof (lstrip_length r').
  simpl in *. lia.
Qed.

Lemma first_match_shorter (toks : list str) (s r : str) :
  first_match toks s = Some r -> (length r < length s)%nat.
Proof.
  induction toks as [|tok toks IH]; simpl; [discriminate|].
  destruct (prefix_group_with tok s) as [u|] eqn:E; [|exact IH].
  intros H. inversion H; subst. eapply prefix_group_with_shorter. exact E.
Qed.

Lemma prefix_groups_length (fuel : nat) (s : str) :
  (length (prefix_groups fuel s) <= length s)%nat.
Proof.
  revert s. induction fuel as [|fuel IH]; intros s; simpl; [lia|].
  destruct (prefix_group s) as [r|] eqn:E; [|lia].
  apply first_match_shorter in E. specialize (IH r). lia.
Qed.

Lemma prefix_match_shorter (s r : str) :
  prefix_match s = Some r -> (length r < length s)%nat.
Proof.
  unfold prefix_match.
  destruct (prefix_group (lstrip s)) as [u|] eqn:E; [|discriminate].
  apply first_match_shorter in E. intros H. inversion H; subst.
  pose proof (prefix_groups_length (length u) u).
  pose proof (lstrip_length s). lia.
Qed.

Lemma prefix_sub_shrinks : shrinks prefix_sub.
Proof.
  intros s. unfold prefix_sub.
  destruct (prefix_match s) as [r|] eqn:E; [|congruence].
  intros _. apply prefix_match_shorter. exact E.
Qed.

Lemma trailing_sub_prefix (s : str) : exists q, s = trailing_sub s ++ q.
Proof.
  induction s as [|c s [q IH]].
  - simpl. destruct (trailing_here []); exists []; reflexivity.
  - simpl. destruct (trailing_here (c :: s)).
    + exists (c :: s). reflexivity.
    + exists q. simpl. f_equal. exact IH.
Qed.

Lemma prefix_shorter {A} (p q s : list A) :
  s = p ++ q -> p <> s -> (length p < length s)%nat.
Proof.
  intros -> H. rewrite length_app. destruct q; [|simpl; lia].
  rewrite app_nil_r in H. contradiction.
Qed.

Lemma trailing_sub_shrinks : shrinks trailing_sub.
Proof.
  intros s H. destruct (trailing_sub_prefix s) as [q Hq].
  eapply prefix_shorter; eassumption.
Qed.

(** *** Strings that begin with no reply/forward prefix *)

Lemma prefix_sub_fixed_iff (s : str) : prefix_sub s = s <-> no_prefix s.
Proof.
  unfold prefix_sub, no_prefix. split.
  - destruct (prefix_match s) as [r|] eqn:E.
    + intros ->. apply prefix_match_shorter in E. lia.
    + intros _. unfold prefix_match in E.
      destruct (prefix_group (lstrip s)); [discriminate|reflexivity].
  - intros H. unfold prefix_match. rewrite H. reflexivity.
Qed.

Lemma first_match_transfer (toks : list str) (x y : str) :
  (forall tok r, In tok toks -> prefix_group_with tok x = Some r ->
                 exists r', prefix_group_with tok y = Some r') ->
  first_match toks y = None -> first_match toks x = None.
Proof.
  induction toks as [|tok toks IH]; intros H; simpl; [reflexivity|].
  destruct (prefix_group_with tok y) eqn:Ey; [discriminate|].
  destruct (prefix_group_with tok x) as [r|] eqn:Ex.
  - destruct (H tok r (or_introl eq_refl) Ex) as [r' Hr']. congruence.
  - apply IH. intros tok' r Hin. apply H. right. exact Hin.
Qed.

Lemma lstrip_app (p q : str) (c : ascii) (r : str) :
  lstrip p = c :: r -> lstrip (p ++ q) = c :: r ++ q.
Proof.
  unfold lstrip. induction p as [|x p IH]; simpl; [discriminate|].
  destruct (is_space x); [exact IH|]. intros H. inversion H. reflexivity.
Qed.

Lemma istarts_with_app (tok p q r : str) :
  istarts_with tok p = Some r -> istarts_with tok (p ++ q) = Some (r ++ q).
Proof.
  revert p. induction tok as [|t tok IH]; intros [|c p]; simpl;
    try discriminate; try (intros H; inversion H; reflexivity).
  destruct (chr_eqb (lower_char c) t); [apply IH|discriminate].
Qed.

Lemma prefix_group_with_app (tok p q r : str) :
  prefix_group_with tok p = Some r ->
  exists r', prefix_group_with tok (p ++ q) = Some r'.
Proof.
  unfold prefix_group_with.
  destruct (istarts_with tok p) as [u|] eqn:E; [|discriminate].
  rewrite (istarts_with_app _ _ q _ E).
  destruct (lstrip u) as [|c r'] eqn:El; [discriminate|].
  rewrite (lstrip_app _ q _ _ El).
  destruct (is_colon_or_rbracket c); [eauto|discriminate].
Qed.

Lemma no_prefix_app (p q : str) : no_prefix (p ++ q) -> no_prefix p.
Proof.
  unfold no_prefix. destruct (lstrip p) as [|c r] eqn:E; [reflexivity|].
  rewrite (lstrip_app _ q _ _ E). apply first_match_transfer.
  intros tok u _. apply (prefix_group_with_app tok (c :: r) q).
Qed.

Lemma no_prefix_lstrip (s : str) : no_prefix s -> no_prefix (lstrip s).
Proof. unfold no_prefix. rewrite lstrip_idem. auto. Qed.

Lemma no_prefix_rstrip (s : str) : no_prefix s -> no_prefix (rstrip s).
Proof.
  destruct (rstrip_prefix s) as [q Hq]. intros H. rewrite Hq in H.
  eapply no_prefix_app. exact H.
Qed.

Lemma no_prefix_strip (s : str) : no_prefix s -> no_prefix (strip s).
Proof. intros H. apply no_prefix_lstrip, no_prefix_rstrip, H. Qed.

Lemma no_prefix_trailing_sub (s : str) : no_prefix s -> no_prefix (trailing_sub s).
Proof.
  destruct (trailing_sub_prefix s) as [q Hq]. intros H. rewrite Hq in H.
  eapply no_prefix_app. exact H.
Qed.

(** Collapsing the blanks. *)
Lemma lstrip_collapse (b : bool) (s : str) :
  lstrip (collapse_from b s) = collapse_from false (lstrip s).
Proof.
  unfold lstrip. revert b. induction s as [|c s IH]; intros b; simpl;
    [reflexivity|].
  destruct (is_space c) eqn:E.
  - destruct b; simpl; apply IH.
  - simpl. rewrite E. reflexivity.
Qed.

Lemma space_not_letter (c p : ascii) :
  is_space c = true -> is_space p = false -> chr_eqb (lower_char c) p = false.
Proof.
  intros Hc Hp. destruct (chr_eqb (lower_char c) p) eqn:E; [|reflexivity].
  apply chr_eqb_eq in E. subst p. rewrite is_space_lower in Hp. congruence.
Qed.

Lemma istarts_with_collapse (tok u : str) :
  Forall (fun p => is_space p = false) tok ->
  istarts_with tok (collapse_from false u)
  = option_map (collapse_from false) (istarts_with tok u).
Proof.
  intros Htok. revert u. induction Htok as [|p tok Hp _ IH]; intros u.
  - destruct u; reflexivity.
  - destruct u as [|c u]; [reflexivity|]. cbn [collapse_from].
    destruct (is_space c) eqn:E; cbn [istarts_with].
    + rewrite (space_not_letter (ch " ") p eq_refl Hp).
      rewrite (space_not_letter c p E Hp). reflexivity.
    + destruct (chr_eqb (lower_char c) p); [apply IH|reflexivity].
Qed.

Lemma prefix_tokens_no_space :
  Forall (Forall (fun p => is_space p = false)) prefix_tokens.
Proof. repeat constructor. Qed.

Lemma prefix_group_with_collapse (tok u r : str) :
  Forall (fun p => is_space p = false) tok ->
  prefix_group_with tok (collapse_from false u) = Some r ->
  exists r', prefix_group_with tok u = Some r'.
Proof.
  intros Htok. unfold prefix_group_with.
  rewrite (istarts_with_collapse _ _ Htok).
  destruct (istarts_with tok u) as [v|]; simpl; [|discriminate].
  rewrite lstrip_collapse.
  destruct (lstrip v) as [|c v'] eqn:E; simpl; [discriminate|].
  rewrite (lstrip_head _ _ _ E).
  destruct (is_colon_or_rbracket c); [eauto|discriminate].
Qed.

Lemma no_prefix_collapse (s : str) : no_prefix s -> no_prefix (collapse_ws s).
Proof.
  unfold no_prefix, collapse_ws. rewrite lstrip_collapse.
  apply first_match_transfer. intros tok r Hin.
  apply prefix_group_with_collapse.
  exact (proj1 (List.Forall_forall _ _) prefix_tokens_no_space tok Hin).
Qed.

(** Lower-casing. *)
Lemma lstrip_lower (s : str) : lstrip (lower s) = lower (lstrip s).
Proof.
  unfold lstrip, lower. induction s as [|c s IH]; simpl; [reflexivity|].
  rewrite is_space_lower. destruct (is_space c); [exact IH|reflexivity].
Qed.

Lemma istarts_with_lower (tok u : str) :
  istarts_with tok (lower u) = option_map lower (istarts_with tok u).
Proof.
  revert u. induction tok as [|p tok IH]; intros [|c u]; simpl;
    try reflexivity.
  rewrite lower_char_idem.
  destruct (chr_eqb (lower_char c) p); [apply IH|reflexivity].
Qed.

Lemma prefix_group_with_lower (tok u r : str) :
  prefix_group_with tok (lower u) = Some r ->
  exists r', prefix_group_with tok u = Some r'.
Proof.
  unfold prefix_group_with. rewrite istarts_with_lower.
  destruct (istarts_with tok u) as [v|]; simpl; [|discriminate].
  rewrite lstrip_lower.
  destruct (lstrip v) as [|c v']; simpl; [discriminate|].
  rewrite is_colon_or_rbracket_lower.
  destruct (is_colon_or_rbracket c); [eauto|discriminate].
Qed.

Lemma no_prefix_lower (s : str) : no_prefix s -> no_prefix (lower s).
Proof.
  unfold no_prefix. rewrite lstrip_lower.
  apply first_match_transfer. intros tok r _.
  apply prefix_group_with_lower.
Qed.

(** *** Strings whose blanks are single spaces *)

Lemma collapsed_collapse (b : bool) (s : str) :
  collapsed_from b (collapse_from b s) = true.
Proof.
  revert b. induction s as [|c s IH]; intros b; simpl; [reflexivity|].
  destruct (is_space c) eqn:E.
  - destruct b; [apply IH|]. cbn [collapsed_from].
    change (is_space (ch " ")) with true. cbn. apply IH.
  - simpl. rewrite E. apply IH.
Qed.

Lemma collapsed_fixed (b : bool) (s : str) :
  collapsed_from b s = true -> collapse_from b s = s.
Proof.
  revert b. induction s as [|c s IH]; intros b; simpl; [reflexivity|].
  destruct (is_space c).
  - rewrite !andb_true_iff. intros [[Hb Hc] Hs].
    apply negb_true_iff in Hb. subst b. apply chr_eqb_eq in Hc. subst c.
    f_equal. apply IH, Hs.
  - intros Hs. f_equal. apply IH, Hs.
Qed.

Lemma collapsed_weaken (s : str) :
  collapsed_from true s = true -> collapsed_from false s = true.
Proof.
  destruct s as [|c s]; simpl; [reflexivity|].
  destruct (is_space c); [discriminate|auto].
Qed.

Lemma collapsed_app (b : bool) (p q : str) :
  collapsed_from b (p ++ q) = true -> collapsed_from b p = true.
Proof.
  revert b. induction p as [|c p IH]; intros b; simpl; [reflexivity|].
  destruct (is_space c).
  - rewrite !andb_true_iff. intros [[Hb Hc] Hs]. eauto.
  - apply IH.
Qed.

Lemma collapsed_lstrip (s : str) :
  collapsed_from false s = true -> collapsed_from false (lstrip s) = true.
Proof.
  unfold lstrip. destruct s as [|c s]; simpl; [reflexivity|].
  destruct (is_space c) eqn:E.
  - rewrite !andb_true_iff. intros [_ Hs].
    destruct s as [|d s]; [reflexivity|]. simpl in *.
    destruct (is_space d) eqn:Ed; [discriminate|].
    simpl. rewrite Ed. exact Hs.
  - simpl. rewrite E. auto.
Qed.

Lemma collapsed_rstrip (s : str) :
  collapsed_from false s = true -> collapsed_from false (rstrip s) = true.
Proof.
  destruct (rstrip_prefix s) as [q Hq]. intros H. rewrite Hq in H.
  eapply collapsed_app. exact H.
Qed.

Lemma collapsed_strip (s : str) :
  collapsed_from false s = true -> collapsed_from false (strip s) = true.
Proof. intros H. apply collapsed_lstrip, collapsed_rstrip, H. Qed.

Lemma blank_lower (c : ascii) :
  chr_eqb (lower_char c) (ch " ") = chr_eqb c (ch " ").
Proof. each_char c; reflexivity. Qed.

Lemma collapsed_lower (b : bool) (s : str) :
  collapsed_from b (lower s) = collapsed_from b s.
Proof.
  revert b. induction s as [|c s IH]; intros b; simpl; [reflexivity|].
  rewrite is_space_lower, blank_lower, !IH. reflexivity.
Qed.

Lemma collapsed_no_newline (b : bool) (s : str) :
  collapsed_from b s = true -> ~ In newline s.
Proof.
  revert b. induction s as [|c s IH]; intros b; simpl; [tauto|].
  intros H [->|Hin].
  - rewrite newline_is_space in H. rewrite !andb_true_iff in H.
    destruct H as [[_ H] _]. discriminate H.
  - destruct (is_space c).
    + rewrite !andb_true_iff in H. destruct H as [_ H]. exact (IH _ H Hin).
    + exact (IH _ H Hin).
Qed.

(** *** The trailing run of dashes, colons and bars *)

Lemma dash_sub_prefix (s : str) :
  ~ In newline s -> exists q, s = dash_sub s ++ q.
Proof.
  induction s as [|c s IH]; intros Hn; [exists []; reflexivity|].
  cbn [dash_sub]. destruct (dash_here (c :: s)) as [r|] eqn:E.
  - unfold dash_here in E. destruct (is_dash c); [|discriminate].
    destruct (drop_while_suffix is_dash s) as [q Hq].
    destruct (drop_while is_dash s) as [|n [|m l]]; try discriminate.
    + inversion E. exists (c :: s). reflexivity.
    + destruct (chr_eqb n newline) eqn:En; [|discriminate].
      apply chr_eqb_eq in En. subst n. exfalso. apply Hn. right.
      rewrite Hq. apply in_or_app. right. left. reflexivity.
  - destruct IH as [q Hq]; [intros H; apply Hn; right; exact H|].
    exists q. simpl. f_equal. exact Hq.
Qed.

Lemma dash_sub_shrinks : shrinks dash_sub.
Proof.
  intros s. induction s as [|c s IH]; [intros H; contradiction H; reflexivity|].
  cbn [dash_sub]. destruct (dash_here (c :: s)) as [r|] eqn:E.
  - intros _. unfold dash_here in E. destruct (is_dash c); [|discriminate].
    pose proof (drop_while_length is_dash s) as Hl.
    destruct (drop_while is_dash s) as [|n [|m l]]; try discriminate.
    + inversion E; subst. simpl. lia.
    + destruct (chr_eqb n newline); [|discriminate].
      inversion E; subst. simpl in *. lia.
  - intros H. simpl. apply Nat.succ_lt_mono with (n := length (dash_sub s)), IH.
    intros Heq. apply H. f_equal. exact Heq.
Qed.

Lemma no_prefix_dash_sub (s : str) :
  ~ In newline s -> no_prefix s -> no_prefix (dash_sub s).
Proof.
  intros Hn H. destruct (dash_sub_prefix s Hn) as [q Hq].
  rewrite Hq in H. eapply no_prefix_app. exact H.
Qed.

Lemma collapsed_dash_sub (s : str) :
  collapsed_from false s = true -> collapsed_from false (dash_sub s) = true.
Proof.
  intros H. destruct (dash_sub_prefix s (collapsed_no_newline _ _ H)) as [q Hq].
  rewrite Hq in H. eapply collapsed_app. exact H.
Qed.

(** *** The normalised subject *)

Lemma rstrip_lower (s : str) : rstrip (lower s) = lower (rstrip s).
Proof.
  induction s as [|c s IH]; simpl; [reflexivity|].
  fold (lower s). rewrite IH.
  destruct (rstrip s); simpl; [|reflexivity].
  rewrite is_space_lower. destruct (is_space c); reflexivity.
Qed.

Lemma strip_lower (s : str) : strip (lower s) = lower (strip s).
Proof. unfold strip. rewrite rstrip_lower. apply lstrip_lower. Qed.

Lemma after_tags_fixed (s : str) : bracket_sub (after_tags s) = after_tags s.
Proof. apply strip_loop_fixed, bracket_sub_shrinks. Qed.

Lemma after_prefixes_fixed (s : str) :
  prefix_sub (after_prefixes s) = after_prefixes s.
Proof. apply strip_loop_fixed, prefix_sub_shrinks. Qed.

Lemma after_qualifiers_fixed (s : str) :
  trailing_sub (after_qualifiers s) = after_qualifiers s.
Proof. apply strip_loop_fixed, trailing_sub_shrinks. Qed.

Lemma after_qualifiers_no_prefix (s : str) : no_prefix (after_qualifiers s).
Proof.
  unfold after_qualifiers, strip_loop. apply sub_loop_invariant.
  - intros u Hu. apply no_prefix_strip, no_prefix_trailing_sub, Hu.
  - apply prefix_sub_fixed_iff, after_prefixes_fixed.
Qed.

(** What holds of every normalised subject: it is trimmed, its blanks are
    single spaces, it is in lower case and it begins with no reply/forward
    prefix. *)
Lemma normalize_shape (s : str) :
  strip (normalize_subject s) = normalize_subject s
  /\ collapsed_from false (normalize_subject s) = true
  /\ lower (normalize_subject s) = normalize_subject s
  /\ no_prefix (normalize_subject s).
Proof.
  destruct s as [|c s]; [repeat split; reflexivity|].
  unfold normalize_subject. cbv zeta.
  set (s4 := after_qualifiers (c :: s)).
  assert (H5 : collapsed_from false (strip (collapse_ws s4)) = true)
    by apply collapsed_strip, collapsed_collapse.
  repeat split.
  - rewrite strip_lower, strip_idem. reflexivity.
  - rewrite collapsed_lower. apply collapsed_strip, collapsed_dash_sub, H5.
  - apply lower_idem.
  - apply no_prefix_lower, no_prefix_strip, no_prefix_dash_sub.
    + eapply collapsed_no_newline. exact H5.
    + apply no_prefix_strip, no_prefix_collapse, after_qualifiers_no_prefix.
Qed.

(** *** Strings that begin with no bracketed tag *)

Lemma bracket_sub_fixed_iff (s : str) : bracket_sub s = s <-> no_tag s.
Proof.
  unfold bracket_sub, no_tag. split.
  - destruct (bracket_tag_match s) as [r|] eqn:E; [|reflexivity].
    intros ->. apply bracket_tag_match_shorter in E. lia.
  - intros ->. reflexivity.
Qed.

Lemma drop_while_not_rbracket (t : str) :
  drop_while not_rbracket t = []
  <-> existsb (fun x => chr_eqb x (ch "]")) t = false.
Proof.
  induction t as [|c t IH]; [simpl; tauto|].
  cbn [drop_while existsb]. unfold not_rbracket at 1.
  destruct (chr_eqb c (ch "]")); cbn [negb orb].
  - split; intros H; discriminate H.
  - exact IH.
Qed.

Lemma no_tag_iff (s : str) : no_tag s <-> tag_at (lstrip s) = false.
Proof.
  unfold no_tag, bracket_tag_match.
  destruct (lstrip s) as [|c [|d t]]; cbn [tag_at].
  - split; reflexivity.
  - cbn [take_while drop_while].
    destruct (chr_eqb c (ch "[")); split; reflexivity.
  - destruct (chr_eqb c (ch "[")); cbn [andb]; [|split; reflexivity].
    cbn [take_while drop_while].
    destruct (not_rbracket d); cbn [andb]; [|split; reflexivity].
    pose proof (drop_while_not_rbracket t) as Hd.
    destruct (drop_while not_rbracket t) as [|y r'].
    + split; intros _; [apply Hd|]; reflexivity.
    + split; [discriminate|]. intros H. apply Hd in H. discriminate H.
Qed.

Lemma tag_at_app (p q : str) : tag_at (p ++ q) = false -> tag_at p = false.
Proof.
  destruct p as [|c [|d t]]; try reflexivity. cbn [app tag_at].
  rewrite existsb_app.
  destruct (chr_eqb c (ch "[") && not_rbracket d); cbn [andb];
    [|reflexivity].
  intros H. apply orb_false_iff in H. apply H.
Qed.

Lemma no_tag_app (p q : str) : no_tag (p ++ q) -> no_tag p.
Proof.
  rewrite !no_tag_iff. destruct (lstrip p) as [|c r] eqn:E; [reflexivity|].
  rewrite (lstrip_app _ q _ _ E).
  change (c :: r ++ q) with ((c :: r) ++ q). apply tag_at_app.
Qed.

Lemma no_tag_lstrip (s : str) : no_tag s -> no_tag (lstrip s).
Proof. rewrite !no_tag_iff, lstrip_idem. auto. Qed.

Lemma no_tag_rstrip (s : str) : no_tag s -> no_tag (rstrip s).
Proof.
  destruct (rstrip_prefix s) as [q Hq]. intros H. rewrite Hq in H.
  eapply no_tag_app. exact H.
Qed.

Lemma no_tag_strip (s : str) : no_tag s -> no_tag (strip s).
Proof. intros H. apply no_tag_lstrip, no_tag_rstrip, H. Qed.

Lemma no_tag_trailing_sub (s : str) : no_tag s -> no_tag (trailing_sub s).
Proof.
  destruct (trailing_sub_prefix s) as [q Hq]. intros H. rewrite Hq in H.
  eapply no_tag_app. exact H.
Qed.

Lemma no_tag_dash_sub (s : str) :
  ~ In newline s -> no_tag s -> no_tag (dash_sub s).
Proof.
  intros Hn H. destruct (dash_sub_prefix s Hn) as [q Hq].
  rewrite Hq in H. eapply no_tag_app. exact H.
Qed.

Lemma space_not_rbracket (c : ascii) :
  is_space c = true -> chr_eqb c (ch "]") = false.
Proof. each_char c; intros H; try discriminate H; reflexivity. Qed.

Lemma rbracket_collapse (b : bool) (t : str) :
  existsb (fun x => chr_eqb x (ch "]")) (collapse_from b t)
  = existsb (fun x => chr_eqb x (ch "]")) t.
Proof.
  revert b. induction t as [|c t IH]; intros b; [reflexivity|].
  cbn [collapse_from existsb]. destruct (is_space c) eqn:E.
  - rewrite (space_not_rbracket c E). cbn [orb].
    destruct b; cbn [existsb]; [|change (chr_eqb (ch " ") (ch "]")) with false];
      apply IH.
  - cbn [existsb]. rewrite IH. reflexivity.
Qed.

Lemma tag_at_collapse (c : ascii) (r : str) :
  is_space c = false ->
  tag_at (collapse_from false (c :: r)) = tag_at (c :: r).
Proof.
  intros Hc. cbn [collapse_from]. rewrite Hc.
  destruct r as [|d t]; [reflexivity|].
  cbn [collapse_from]. destruct (is_space d) eqn:Ed; cbn [tag_at].
  - rewrite rbracket_collapse. unfold not_rbracket.
    rewrite (space_not_rbracket d Ed). reflexivity.
  - rewrite rbracket_collapse. reflexivity.
Qed.

Lemma no_tag_collapse (s : str) : no_tag s -> no_tag (collapse_ws s).
Proof.
  rewrite !no_tag_iff. unfold collapse_ws. rewrite lstrip_collapse.
  destruct (lstrip s) as [|c r] eqn:E; [reflexivity|].
  rewrite (tag_at_collapse c r (lstrip_head _ _ _ E)). auto.
Qed.

Lemma lbracket_lower (c : ascii) :
  chr_eqb (lower_char c) (ch "[") = chr_eqb c (ch "[").
Proof. each_char c; reflexivity. Qed.

Lemma not_rbracket_lower (c : ascii) :
  not_rbracket (lower_char c) = not_rbracket c.
Proof. each_char c; reflexivity. Qed.

Lemma rbracket_lower (t : str) :
  existsb (fun x => chr_eqb x (ch "]")) (lower t)
  = existsb (fun x => chr_eqb x (ch "]")) t.
Proof.
  induction t as [|c t IH]; [reflexivity|]. cbn [lower map existsb].
  fold (lower t). rewrite IH. f_equal.
  pose proof (not_rbracket_lower c) as H. unfold not_rbracket in H.
  destruct (chr_eqb (lower_char c) (ch "]")), (chr_eqb c (ch "]"));
    simpl in H; congruence.
Qed.

Lemma tag_at_lower (s : str) : tag_at (lower s) = tag_at s.
Proof.
  destruct s as [|c [|d t]]; try reflexivity.
  cbn [lower map tag_at]. fold (lower t).
  rewrite lbracket_lower, not_rbracket_lower, rbracket_lower. reflexivity.
Qed.

Lemma no_tag_lower (s : str) : no_tag s -> no_tag (lower s).
Proof. rewrite !no_tag_iff, lstrip_lower, tag_at_lower. auto. Qed.

Lemma after_qualifiers_no_tag (s : str) :
  no_tag (after_prefixes s) -> no_tag (after_qualifiers s).
Proof.
  unfold after_qualifiers, strip_loop. apply sub_loop_invariant.
  intros u Hu. apply no_tag_strip, no_tag_trailing_sub, Hu.
Qed.

(** The steps that follow the prefix loop bring no tag to the head of the
    string. *)
Lemma normalize_no_tag (s : str) :
  no_tag (after_prefixes s) -> no_tag (normalize_subject s).
Proof.
  intros H. destruct s as [|c s]; [reflexivity|].
  unfold normalize_subject. cbv zeta.
  set (s4 := after_qualifiers (c :: s)).
  assert (H4 : no_tag s4) by (apply after_qualifiers_no_tag; exact H).
  assert (H5 : collapsed_from false (strip (collapse_ws s4)) = true)
    by apply collapsed_strip, collapsed_collapse.
  apply no_tag_lower, no_tag_strip, no_tag_dash_sub.
  - eapply collapsed_no_newline. exact H5.
  - apply no_tag_strip, no_tag_collapse, H4.
Qed.

(** C6, as the code has it.  The leading tags are stripped to a fixed
    point, then the reply/forward prefixes are stripped, from what the
    tag loop has left, to a fixed point; the two loops are not run again.
    The normalised subject begins with no reply/forward prefix.  It
    begins with a tag only if the string left by the prefix loop does:
    when no prefix stands behind the leading tags, the normalised subject
    begins with neither a tag nor a prefix. *)
Theorem prefixes_stripped_to_fixed_point (s : str) :
  bracket_sub (after_tags s) = after_tags s
  /\ prefix_sub (after_prefixes s) = after_prefixes s
  /\ prefix_sub (normalize_subject s) = normalize_subject s
  /\ (bracket_sub (after_prefixes s) = after_prefixes s ->
      bracket_sub (normalize_subject s) = normalize_subject s)
  /\ (prefix_sub (after_tags s) = after_tags s ->
      bracket_sub (normalize_subject s) = normalize_subject s
      /\ prefix_sub (normalize_subject s) = normalize_subject s).
Proof.
  assert (Hp : prefix_sub (normalize_subject s) = normalize_subject s)
    by (apply prefix_sub_fixed_iff; apply (normalize_shape s)).
  assert (Ht : bracket_sub (after_prefixes s) = after_prefixes s ->
               bracket_sub (normalize_subject s) = normalize_subject s).
  { intros H. apply bracket_sub_fixed_iff, normalize_no_tag.
    apply bracket_sub_fixed_iff. exact H. }
  split; [apply after_tags_fixed|]. split; [apply after_prefixes_fixed|].
  split; [exact Hp|]. split; [exact Ht|].
  intros H. split; [|exact Hp]. apply Ht.
  assert (E : after_prefixes s = after_tags s).
  { unfold after_prefixes, strip_loop. simpl.
    rewrite H, str_eqb_refl. reflexivity. }
  rewrite E. apply after_tags_fixed.
Qed.

(** C6 on a name whose prefix stands behind a tag: both are stripped. *)
Lemma prefixes_stripped_to_fixed_point_witness :
  let x := lit "[RFP] Re: Site Visit" in
  let y := lit "[RFP] Site Visit" in
  after_tags x = lit "Re: Site Visit"
  /\ after_prefixes x = lit "Site Visit"
  /\ normalize_subject x = lit "site visit"
  /\ bracket_sub (normalize_subject x) = normalize_subject x
  /\ prefix_sub (after_tags y) = after_tags y
  /\ bracket_sub (normalize_subject y) = normalize_subject y
  /\ prefix_sub (normalize_subject y) = normalize_subject y.
Proof.
  cbv zeta.
  split; [vm_compute; reflexivity|]. split; [vm_compute; reflexivity|].
  split; [vm_compute; reflexivity|].
  assert (Hy : prefix_sub (after_tags (lit "[RFP] Site Visit"))
               = after_tags (lit "[RFP] Site Visit"))
    by (vm_compute; reflexivity).
  split.
  - apply (proj1 (proj2 (proj2 (proj2
             (prefixes_stripped_to_fixed_point (lit "[RFP] Re: Site Visit")))))).
    vm_compute. reflexivity.
  - split; [exact Hy|].
    exact (proj2 (proj2 (proj2 (proj2
             (prefixes_stripped_to_fixed_point (lit "[RFP] Site Visit")))))
             Hy).
Defined.

(** C6 as the claim words it fails on "re: [tag] hello": the tag loop runs
    first and finds no tag, the prefix loop removes "re: ", and the result
    begins with the tag. *)
Lemma tag_behind_prefix_survives :
  let x := lit "re: [tag] hello" in
  after_tags x = lit "re: [tag] hello"
  /\ after_prefixes x = lit "[tag] hello"
  /\ normalize_subject x = lit "[tag] hello"
  /\ bracket_sub (normalize_subject x) = lit "hello"
  /\ ~ (bracket_sub (normalize_subject x) = normalize_subject x
        /\ prefix_sub (normalize_subject x) = normalize_subject x).
Proof.
  cbv zeta.
  split; [vm_compute; reflexivity|]. split; [vm_compute; reflexivity|].
  split; [vm_compute; reflexivity|]. split; [vm_compute; reflexivity|].
  intros [H _]. vm_compute in H. discriminate H.
Qed.

(** *** A second pass *)

Lemma strip_loop_id (sub : str -> str) (s : str) :
  sub s = s -> strip_loop sub s = s.
Proof.
  intros H. unfold strip_loop. simpl. rewrite H, str_eqb_refl. reflexivity.
Qed.

Lemma str_eq_dec (a b : str) : a = b \/ a <> b.
Proof.
  destruct (str_eqb a b) eqn:E.
  - left. apply str_eqb_eq. exact E.
  - right. intros ->. rewrite str_eqb_refl in E. discriminate.
Qed.

Lemma shrinks_le (sub : str -> str) (s : str) :
  shrinks sub -> (length (sub s) <= length s)%nat.
Proof.
  intros H. destruct (str_eq_dec (sub s) s) as [->|Hne]; [lia|].
  specialize (H s Hne). lia.
Qed.

Lemma sub_loop_length (sub : str -> str) :
  shrinks sub ->
  forall fuel s, (length (sub_loop sub fuel s) <= length s)%nat.
Proof.
  intros H. induction fuel as [|fuel IH]; intros s; simpl; [lia|].
  destruct (str_eqb (sub s) s); [lia|].
  specialize (IH (strip (sub s))). pose proof (strip_length (sub s)).
  pose proof (shrinks_le sub s H). lia.
Qed.

Lemma strip_loop_changes (sub : str -> str) (s : str) :
  shrinks sub -> sub s <> s ->
  (length (strip_loop sub s) < length s)%nat.
Proof.
  intros H Hne. unfold strip_loop. simpl.
  rewrite (str_eqb_neq _ _ Hne).
  pose proof (sub_loop_length sub H (length s) (strip (sub s))).
  pose proof (strip_length (sub s)). specialize (H s Hne). lia.
Qed.

Lemma strip_loop_length (sub : str -> str) (s : str) :
  shrinks sub -> (length (strip_loop sub s) <= length s)%nat.
Proof. intros H. apply sub_loop_length, H. Qed.

Lemma collapse_length (b : bool) (s : str) :
  (length (collapse_from b s) <= length s)%nat.
Proof.
  revert b. induction s as [|c s IH]; intros b; simpl; [lia|].
  destruct (is_space c); [destruct b|]; simpl.
  - specialize (IH true). lia.
  - specialize (IH true). lia.
  - specialize (IH false). lia.
Qed.

Lemma normalize_subject_nonempty (s : str) :
  s <> [] ->
  normalize_subject s
  = lower (strip (dash_sub (strip (collapse_ws (after_qualifiers s))))).
Proof. destruct s; [congruence|reflexivity]. Qed.

(** A string of the shape of a normalised subject that the three other
    replacements leave alone is normalised to itself. *)
Lemma normalize_fixed (r : str) :
  strip r = r -> collapsed_from false r = true -> lower r = r ->
  no_prefix r ->
  bracket_sub r = r -> trailing_sub r = r -> dash_sub r = r ->
  normalize_subject r = r.
Proof.
  intros Hs Hc Hl Hp Hb Ht Hd. destruct r as [|c r]; [reflexivity|].
  remember (c :: r) as u eqn:Eu.
  assert (H4 : after_qualifiers u = u).
  { unfold after_qualifiers, after_prefixes, after_tags.
    rewrite Hs, (strip_loop_id _ _ Hb).
    rewrite (strip_loop_id _ _ (proj2 (prefix_sub_fixed_iff u) Hp)).
    apply strip_loop_id, Ht. }
  rewrite normalize_subject_nonempty by (subst u; discriminate).
  rewrite H4. unfold collapse_ws. rewrite (collapsed_fixed _ _ Hc).
  rewrite Hs, Hd, Hs. exact Hl.
Qed.

(** A second pass that changes nothing has found nothing to replace. *)
Lemma normalize_fixed_inv (r : str) :
  strip r = r -> collapsed_from false r = true -> no_prefix r ->
  normalize_subject r = r ->
  bracket_sub r = r /\ trailing_sub r = r /\ dash_sub r = r.
Proof.
  intros Hs Hc Hp Hn. destruct r as [|c r]; [repeat split; reflexivity|].
  remember (c :: r) as u eqn:Eu.
  assert (Hlen : length (normalize_subject u) = length u) by (rewrite Hn; reflexivity).
  rewrite normalize_subject_nonempty in Hlen by (subst u; discriminate).
  unfold lower in Hlen. rewrite length_map in Hlen.
  set (a1 := after_tags u) in *.
  set (a4 := after_qualifiers u) in *.
  pose proof (strip_length (dash_sub (strip (collapse_ws a4)))) as L6.
  pose proof (shrinks_le dash_sub (strip (collapse_ws a4)) dash_sub_shrinks) as L5.
  pose proof (strip_length (collapse_ws a4)) as L4.
  pose proof (collapse_length false a4) as L3. fold (collapse_ws a4) in L3.
  assert (L2 : (length a4 <= length (after_prefixes u))%nat)
    by apply strip_loop_length, trailing_sub_shrinks.
  assert (L1 : (length (after_prefixes u) <= length a1)%nat)
    by apply strip_loop_length, prefix_sub_shrinks.
  assert (L0 : (length a1 <= length u)%nat).
  { subst a1. unfold after_tags. rewrite Hs.
    apply strip_loop_length, bracket_sub_shrinks. }
  assert (Hb : bracket_sub u = u).
  { destruct (str_eq_dec (bracket_sub u) u) as [H|H]; [exact H|].
    pose proof (strip_loop_changes _ _ bracket_sub_shrinks H) as Hlt.
    subst a1. unfold after_tags in L1, L0. rewrite Hs in L1, L0. lia. }
  assert (E1 : a1 = u).
  { subst a1. unfold after_tags. rewrite Hs. apply strip_loop_id, Hb. }
  assert (E2 : after_prefixes u = u).
  { unfold after_prefixes. fold a1. rewrite E1.
    apply strip_loop_id, prefix_sub_fixed_iff, Hp. }
  assert (Ht : trailing_sub u = u).
  { destruct (str_eq_dec (trailing_sub u) u) as [H|H]; [exact H|].
    pose proof (strip_loop_changes _ _ trailing_sub_shrinks H) as Hlt.
    subst a4. unfold after_qualifiers in *. rewrite E2 in *. lia. }
  assert (E4 : a4 = u).
  { subst a4. unfold after_qualifiers. rewrite E2. apply strip_loop_id, Ht. }
  rewrite E4 in *. unfold collapse_ws in *.
  rewrite (collapsed_fixed _ _ Hc) in *. rewrite Hs in *.
  repeat split; try assumption.
  destruct (str_eq_dec (dash_sub u) u) as [H|H]; [exact H|].
  pose proof (dash_sub_shrinks u H). lia.
Qed.

(** C2, as the code has it.  A second pass leaves a normalised subject as
    it is exactly when that subject begins with no bracketed tag, ends with
    no bracketed qualifier and ends with none of "-", ":", "|": the three
    things that the first pass can uncover after the loop that removes
    them has run. *)
Theorem normalize_idempotent_iff (x : str) :
  normalize_subject (normalize_subject x) = normalize_subject x
  <-> bracket_sub (normalize_subject x) = normalize_subject x
      /\ trailing_sub (normalize_subject x) = normalize_subject x
      /\ dash_sub (normalize_subject x) = normalize_subject x.
Proof.
  destruct (normalize_shape x) as (Hs & Hc & Hl & Hp). split.
  - intros H. apply normalize_fixed_inv; assumption.
  - intros (Hb & Ht & Hd). apply normalize_fixed; assumption.
Qed.

(** C2 on "RE: Hello   World (Draft)": the first pass gives "hello world",
    which the three replacements leave alone, and so does a second pass. *)
Lemma normalize_idempotent_iff_witness :
  let x := lit "RE: Hello   World (Draft)" in
  normalize_subject x = lit "hello world"
  /\ (bracket_sub (normalize_subject x) = normalize_subject x
      /\ trailing_sub (normalize_subject x) = normalize_subject x
      /\ dash_sub (normalize_subject x) = normalize_subject x)
  /\ normalize_subject (normalize_subject x) = normalize_subject x.
Proof.
  cbv zeta.
  assert (H : bracket_sub (normalize_subject (lit "RE: Hello   World (Draft)"))
              = normalize_subject (lit "RE: Hello   World (Draft)")
              /\ trailing_sub (normalize_subject (lit "RE: Hello   World (Draft)"))
                 = normalize_subject (lit "RE: Hello   World (Draft)")
              /\ dash_sub (normalize_subject (lit "RE: Hello   World (Draft)"))
                 = normalize_subject (lit "RE: Hello   World (Draft)"))
    by (repeat split; vm_compute; reflexivity).
  split; [vm_compute; reflexivity|]. split; [exact H|].
  exact (proj2 (normalize_idempotent_iff (lit "RE: Hello   World (Draft)")) H).
Defined.

(** C2 as the claim words it fails in three ways: a tag behind a prefix, a
    qualifier before a trailing dash, and two runs of dashes. *)
Lemma normalize_not_idempotent :
  (normalize_subject (lit "re: [tag] hello") = lit "[tag] hello"
   /\ normalize_subject (lit "[tag] hello") = lit "hello")
  /\ (normalize_subject (lit "a (b) -") = lit "a (b)"
      /\ normalize_subject (lit "a (b)") = lit "a")
  /\ (normalize_subject (lit "a - -") = lit "a -"
      /\ normalize_subject (lit "a -") = lit "a")
  /\ ~ (forall x,
          normalize_subject (normalize_subject x) = normalize_subject x).
Proof.
  split; [split; vm_compute; reflexivity|].
  split; [split; vm_compute; reflexivity|].
  split; [split; vm_compute; reflexivity|].
  intros H. specialize (H (lit "re: [tag] hello")).
  vm_compute in H. discriminate H.
Qed.

(** * Further properties of the remote access layer *)

Lemma requests_of_app (t1 t2 : list Event) :
  requests_of (t1 ++ t2) = requests_of t1 ++ requests_of t2.
Proof. unfold requests_of. apply flat_map_app. Qed.

Lemma sleeps_of_app (t1 t2 : list Event) :
  sleeps_of (t1 ++ t2) = sleeps_of t1 ++ sleeps_of t2.
Proof. unfold sleeps_of. apply flat_map_app. Qed.

Lemma requests_of_retry_trace (req : Request) (fails : list str)
    (last : Reply) (attempt : nat) :
  requests_of (retry_trace req attempt fails last)
  = repeat req (S (length fails)).
Proof.
  revert attempt. induction fails as [|m fails IH]; intros attempt;
    [reflexivity|].
  cbn [retry_trace length]. change (repeat req (S (S (length fails))))
    with (req :: repeat req (S (length fails))).
  rewrite <- (IH (S attempt)). reflexivity.
Qed.

Lemma sleeps_of_retry_trace (req : Request) (fails : list str)
    (last : Reply) (attempt : nat) :
  sleeps_of (retry_trace req attempt fails last)
  = map retry_delay (seq attempt (length fails)).
Proof.
  revert attempt. induction fails as [|m fails IH]; intros attempt;
    [reflexivity|].
  cbn [retry_trace length seq map]. rewrite <- (IH (S attempt)). reflexivity.
Qed.

Section RetryCases.

Variable W : Type.
Variable remote : Request -> W -> Reply * W.

(** Every run of the retry loop: some transient failures, then a last
    attempt that succeeds, fails for good or exhausts the attempts. *)
Lemma retry_from_cases (req : Request) :
  forall left n attempt w,
    (attempt + S left = n)%nat ->
    exists fails last w',
      retry_from W remote n (S left) attempt (backoff attempt) req w
      = (retry_outcome last, w', retry_trace req attempt fails last)
      /\ (length fails <= left)%nat
      /\ Forall (fun m => transient m = true) fails
      /\ (forall msg, last = RError msg ->
            transient msg = false \/ length fails = left).
Proof.
  induction left as [|left IH]; intros n attempt w Hn.
  - cbn [retry_from]. unfold try_except, bind, gql.
    destruct (remote req w) as [[d|msg] w1].
    + exists [], (RData d), w1. repeat split; auto; discriminate.
    + replace (attempt + 1 <? n)%nat with false
        by (symmetry; apply Nat.ltb_ge; lia).
      rewrite andb_false_r. exists [], (RError msg), w1.
      repeat split; auto.
  - remember (S left) as l eqn:El.
    cbn [retry_from]. unfold try_except at 1. unfold bind at 1, gql at 1.
    destruct (remote req w) as [[d|msg] w1].
    + exists [], (RData d), w1.
      repeat split; auto; try (simpl; lia); discriminate.
    + replace (attempt + 1 <? n)%nat with true
        by (symmetry; apply Nat.ltb_lt; lia).
      rewrite andb_true_r. destruct (transient msg) eqn:Et.
      * subst l.
        destruct (IH n (S attempt) w1 ltac:(lia))
          as (fails & last & w2 & Hrun & Hlen & Htr & Hlast).
        unfold bind at 1, sleep, emit.
        change (Qmin (backoff attempt * 2) 5) with (backoff (S attempt)).
        rewrite Hrun. exists (msg :: fails), last, w2.
        split; [reflexivity|]. split; [simpl; lia|].
        split; [constructor; assumption|].
        intros m Hm. destruct (Hlast m Hm) as [H|H]; [left; exact H|].
        right. simpl. lia.
      * exists [], (RError msg), w1.
        split; [reflexivity|]. split; [simpl; lia|]. split; [constructor|].
        intros m Hm. inversion Hm; subst. left. exact Et.
Qed.

Lemma gql_with_retry_cases (req : Request) (w : W) :
  exists fails last w',
    gql_with_retry W remote req w
    = (retry_outcome last, w', retry_trace req 0 fails last)
    /\ (length fails <= 4)%nat
    /\ Forall (fun m => transient m = true) fails
    /\ (forall msg, last = RError msg ->
          transient msg = false \/ length fails = 4%nat).
Proof.
  unfold gql_with_retry, gql_with_retry_n. change (1 # 2) with (backoff 0).
  apply retry_from_cases. reflexivity.
Qed.

(** X1.  Whatever the remote side answers, [gql_with_retry] makes between
    one and five attempts of the same request and nothing else; it retries
    only after a transient failure and sleeps [retry_delay k] after the
    failure of attempt [k]; it returns the data of the first success, or
    raises the first failure that is not transient, or the fifth failure. *)
Theorem gql_with_retry_attempts (req : Request) (w : W) :
  exists fails last w',
    gql_with_retry W remote req w
    = (retry_outcome last, w', retry_trace req 0 fails last)
    /\ (length fails <= 4)%nat
    /\ Forall (fun m => transient m = true) fails
    /\ (forall msg, last = RError msg ->
          transient msg = false \/ length fails = 4%nat)
    /\ requests_of (retry_trace req 0 fails last)
       = repeat req (S (length fails))
    /\ sleeps_of (retry_trace req 0 fails last)
       = map retry_delay (seq 0 (length fails)).
Proof.
  destruct (gql_with_retry_cases req w)
    as (fails & last & w' & Hrun & Hlen & Htr & Hlast).
  exists fails, last, w'. repeat split; auto.
  - apply requests_of_retry_trace.
  - apply sleeps_of_retry_trace.
Qed.

End RetryCases.

(** ** Batches *)

Lemma chunks_fuel_concat {A} (n : nat) :
  (0 < n)%nat ->
  forall fuel (l : list A), (length l <= fuel)%nat ->
    concat (chunks_fuel fuel n l) = l.
Proof.
  intros Hn. induction fuel as [|fuel IH]; intros l Hl.
  - destruct l; [reflexivity|simpl in Hl; lia].
  - destruct l as [|x l]; [reflexivity|].
    cbn [chunks_fuel concat]. rewrite IH.
    + apply firstn_skipn.
    + rewrite length_skipn. simpl in *. lia.
Qed.

Lemma chunks_concat {A} (n : nat) (l : list A) :
  (0 < n)%nat -> concat (chunks n l) = l.
Proof. intros Hn. apply chunks_fuel_concat; [exact Hn|lia]. Qed.

Lemma chunks_fuel_sizes {A} (n : nat) :
  (0 < n)%nat ->
  forall fuel (l : list A),
    Forall (fun c => (1 <= length c <= n)%nat) (chunks_fuel fuel n l).
Proof.
  intros Hn. induction fuel as [|fuel IH]; intros l.
  - destruct l; constructor.
  - destruct l as [|x l]; [constructor|].
    cbn [chunks_fuel]. constructor; [|apply IH].
    rewrite length_firstn. simpl. lia.
Qed.

Lemma chunks_sizes {A} (n : nat) (l c : list A) :
  (0 < n)%nat -> In c (chunks n l) -> (1 <= length c <= n)%nat.
Proof.
  intros Hn Hc.
  exact (proj1 (List.Forall_forall _ _) (chunks_fuel_sizes n Hn _ l) c Hc).
Qed.

Section BatchFacts.

Variable W : Type.
Variable remote : Request -> W -> Reply * W.
Variable cluster_oracle : list Item -> W -> Res (list Group) * W.
Variable strptime_utc : str -> option Z.
Variable fromisoformat : str -> option Z.

Lemma batch_bounded_create_subitems parent names :
  emits W batch_bounded (create_subitems W remote parent names).
Proof.
  unfold create_subitems.
  destruct (clean_names_of names) as [|c cs]; [apply emits_ret|].
  apply emits_for_each. intros chunk Hchunk.
  unfold create_chunk. apply emits_try_except.
  - apply emits_bind.
    + apply emits_gql_with_retry; [|intros; exact I].
      intros rep. simpl. apply (chunks_sizes 20 (c :: cs)); [lia|exact Hchunk].
    + intros _. apply emits_sleep. exact I.
  - intros _. apply emits_for_each. intros nm _. unfold create_single.
    apply emits_try_except.
    + apply emits_bind.
      * apply emits_gql_with_retry; intros; exact I.
      * intros _. apply emits_sleep. exact I.
    + intros e2. apply emits_emit. exact I.
Qed.

Lemma batch_bounded_move_items ids group_id :
  emits W batch_bounded (move_items W remote ids group_id).
Proof.
  unfold move_items. destruct ids as [|i ids]; [apply emits_ret|].
  apply emits_for_each. intros chunk Hchunk. apply emits_bind.
  - apply emits_gql_with_retry; [|intros; exact I].
    intros rep. simpl. apply (chunks_sizes 5 (i :: ids)); [lia|exact Hchunk].
  - intros _. apply emits_sleep. exact I.
Qed.

Lemma batch_bounded_archive_items ids :
  emits W batch_bounded (archive_items W remote ids).
Proof.
  unfold archive_items. destruct ids as [|i ids]; [apply emits_ret|].
  apply emits_for_each. intros chunk Hchunk. apply emits_bind.
  - apply emits_gql_with_retry; [|intros; exact I].
    intros rep. simpl. apply (chunks_sizes 10 (i :: ids)); [lia|exact Hchunk].
  - intros _. apply emits_sleep. exact I.
Qed.

Lemma batch_bounded_after_action cfg names r a :
  emits W batch_bounded (after_action W remote cfg names r a).
Proof.
  unfold after_action. destruct r; [apply emits_ret|].
  destruct (_ && _).
  - apply emits_bind; [apply batch_bounded_move_items|].
    intros _. apply emits_ret.
  - destruct (str_eqb _ _); [|apply emits_ret].
    apply emits_bind; [apply batch_bounded_archive_items|].
    intros _. apply emits_ret.
Qed.

Lemma batch_bounded_process_group cfg names a g :
  emits W batch_bounded (process_group W remote cfg names a g).
Proof.
  unfold process_group.
  destruct (item_ids_oldest_first g) as [|parent [|c rest]];
    try apply emits_ret.
  apply emits_bind.
  - unfold get_existing_subitem_names. apply emits_bind.
    + apply emits_gql. intros rep. exact I.
    + intros d. apply emits_ret.
  - intros e. unfold consolidate. cbv zeta. apply emits_bind.
    + destruct (pending_of names e _); [apply emits_ret|].
      apply emits_bind; [apply batch_bounded_create_subitems|].
      intros _. apply emits_ret.
    + intros ae. apply emits_bind; [apply batch_bounded_after_action|].
      intros a3. apply emits_bind; [apply emits_sleep; exact I|].
      intros _. apply emits_ret.
Qed.

(** X2.  In a whole run, whatever the remote side answers, every creation
    batch carries 1 to 20 names, every relocate call 1 to 5 ids and every
    archive call 1 to 10 ids. *)
Theorem run_batches_bounded cfg items w :
  Forall batch_bounded
    (snd (main W remote cluster_oracle strptime_utc fromisoformat
            cfg items w)).
Proof.
  revert w.
  change (emits W batch_bounded
            (main W remote cluster_oracle strptime_utc fromisoformat
               cfg items)).
  unfold main. apply emits_bind.
  - apply emits_select_groups. intros fed. exact I.
  - intros groups. apply emits_bind.
    + generalize acc0. induction groups as [|g groups IH]; intros a; simpl.
      * apply emits_ret.
      * apply emits_bind; [apply batch_bounded_process_group|exact IH].
    + intros a. apply emits_ret.
Qed.

End BatchFacts.

(** ** Creation, relocation and archiving call by call *)

Lemma creations_of_batches (parent : str) (cs : list (list str)) :
  flat_map creations_of_request (map (MCreateBatch parent) cs)
  = map (pair parent) (concat cs).
Proof.
  induction cs as [|c cs IH]; [reflexivity|].
  simpl. rewrite map_app, IH. reflexivity.
Qed.

Section CallFacts.

Variable W : Type.
Variable remote : Request -> W -> Reply * W.

Lemma gql_with_retry_ok req w d w' :
  remote req w = (RData d, w') ->
  gql_with_retry W remote req w = (Ret (Some d), w', [EvGql req (RData d)]).
Proof.
  intros H. unfold gql_with_retry, gql_with_retry_n. cbn [retry_from].
  unfold try_except, bind, gql, ret. rewrite H. reflexivity.
Qed.

(** A loop whose rounds each make one successful call and pause. *)
Lemma for_each_calls_ok {A} (mk : A -> Request) (pause : Q)
    (body : A -> M W unit) (l : list A) :
  (forall x w0, exists d w1,
      body x w0 = (Ret tt, w1, [EvGql (mk x) (RData d); EvSleep pause])) ->
  forall w, exists w' t,
    for_each W l body w = (Ret tt, w', t)
    /\ requests_of t = map mk l
    /\ sleeps_of t = repeat pause (length l)
    /\ Forall (fun ev => forall p n e, ev <> EvPrintFailed p n e) t.
Proof.
  intros Hbody. induction l as [|x l IH]; intros w.
  - exists w, []. repeat split; constructor.
  - destruct (Hbody x w) as (d & w1 & Hx).
    destruct (IH w1) as (w2 & t2 & Hrun & Hreq & Hsl & Hpr).
    exists w2, ([EvGql (mk x) (RData d); EvSleep pause] ++ t2).
    simpl. unfold bind. rewrite Hx, Hrun.
    split; [reflexivity|]. split; [|split].
    + unfold requests_of in *. simpl. rewrite Hreq. reflexivity.
    + unfold sleeps_of in *. simpl. rewrite Hsl. reflexivity.
    + repeat constructor; try discriminate. exact Hpr.
Qed.

(** X3.  When the remote side accepts every creation batch,
    [create_subitems] returns after one call per batch and no other call;
    the batches, put together, are the sanitised names in their order, so
    each name is sent once; nothing is printed as failed. *)
Theorem creation_sends_every_name parent names w :
  (forall chunk w0, exists d w1,
      remote (MCreateBatch parent chunk) w0 = (RData d, w1)) ->
  exists w' t,
    create_subitems W remote parent names w = (Ret tt, w', t)
    /\ requests_of t
       = map (MCreateBatch parent) (chunks 20 (clean_names_of names))
    /\ created_names t = map (pair parent) (clean_names_of names)
    /\ Forall (fun ev => forall p n e, ev <> EvPrintFailed p n e) t.
Proof.
  intros Hok. unfold create_subitems.
  assert (Hgen : exists w' t,
             for_each W (chunks 20 (clean_names_of names))
               (create_chunk W remote parent) w = (Ret tt, w', t)
             /\ requests_of t
                = map (MCreateBatch parent) (chunks 20 (clean_names_of names))
             /\ sleeps_of t
                = repeat (1 # 10) (length (chunks 20 (clean_names_of names)))
             /\ Forall (fun ev => forall p n e, ev <> EvPrintFailed p n e) t).
  { apply for_each_calls_ok. intros chunk w0.
    destruct (Hok chunk w0) as (d & w1 & Hr). exists d, w1.
    unfold create_chunk, try_except, bind.
    rewrite (gql_with_retry_ok _ _ _ _ Hr). reflexivity. }
  destruct Hgen as (w' & t & Hrun & Hreq & _ & Hpr).
  destruct (clean_names_of names) as [|c cs] eqn:E.
  - exists w, []. repeat split; constructor.
  - exists w', t. split; [exact Hrun|]. split; [exact Hreq|].
    split; [|exact Hpr].
    unfold created_names. rewrite Hreq, creations_of_batches.
    rewrite chunks_concat by lia. reflexivity.
Qed.

(** X4.  When the remote side accepts every relocate call and every
    archive call, [move_items] and [archive_items] return after one call
    per batch; the batches, put together, are the ids in their order, so
    each id is sent once. *)
Theorem relocation_sends_every_id ids group_id w :
  (forall req w0,
      (forall parent, req <> QSubitems parent) ->
      exists d w1, remote req w0 = (RData d, w1)) ->
  (exists w' t,
      move_items W remote ids group_id w = (Ret tt, w', t)
      /\ requests_of t = map (fun c => MMove c group_id) (chunks 5 ids)
      /\ concat (chunks 5 ids) = ids)
  /\ (exists w' t,
         archive_items W remote ids w = (Ret tt, w', t)
         /\ requests_of t = map MArchive (chunks 10 ids)
         /\ concat (chunks 10 ids) = ids).
Proof.
  intros Hok. split.
  - destruct (for_each_calls_ok (fun c => MMove c group_id) (1 # 10)
                (fun chunk =>
                   bind W (gql_with_retry W remote (MMove chunk group_id))
                     (fun _ => sleep W (1 # 10)))
                (chunks 5 ids)
                ltac:(intros chunk w0;
                      destruct (Hok (MMove chunk group_id) w0
                                  ltac:(discriminate)) as (d & w1 & Hr);
                      exists d, w1; unfold bind;
                      rewrite (gql_with_retry_ok _ _ _ _ Hr); reflexivity)
                w)
      as (w' & t & Hrun & Hreq & _ & _).
    unfold move_items. destruct ids as [|i ids].
    + exists w, []. repeat split; reflexivity.
    + exists w', t. repeat split; auto. apply chunks_concat. lia.
  - destruct (for_each_calls_ok MArchive (1 # 10)
                (fun chunk =>
                   bind W (gql_with_retry W remote (MArchive chunk))
                     (fun _ => sleep W (1 # 10)))
                (chunks 10 ids)
                ltac:(intros chunk w0;
                      destruct (Hok (MArchive chunk) w0
                                  ltac:(discriminate)) as (d & w1 & Hr);
                      exists d, w1; unfold bind;
                      rewrite (gql_with_retry_ok _ _ _ _ Hr); reflexivity)
                w)
      as (w' & t & Hrun & Hreq & _ & _).
    unfold archive_items. destruct ids as [|i ids].
    + exists w, []. repeat split; reflexivity.
    + exists w', t. repeat split; auto. apply chunks_concat. lia.
Qed.

(** The fallback, name by name. *)
Lemma for_each_singles parent (l : list str) :
  forall w, exists w' parts,
    for_each W l (create_single W remote parent) w
    = (Ret tt, w', concat parts)
    /\ Forall2 (single_attempt parent) l parts.
Proof.
  induction l as [|nm l IH]; intros w.
  - exists w, []. split; [reflexivity|constructor].
  - destruct (gql_with_retry_cases W remote (MCreateSingle parent nm) w)
      as (fails & last & w1 & Hrun & Hlen & _ & _).
    destruct (IH w1) as (w2 & parts & Hrest & Hparts).
    exists w2,
      ((retry_trace (MCreateSingle parent nm) 0 fails last
        ++ match last with
           | RData _ => [EvSleep (1 # 20)]
           | RError e => [EvPrintFailed parent nm e]
           end) :: parts).
    split.
    + cbn [for_each concat]. unfold bind at 1.
      unfold create_single at 1, try_except, bind, sleep, emit.
      rewrite Hrun. destruct last as [d|e]; cbn [retry_outcome];
        rewrite Hrest; reflexivity.
    + constructor; [|exact Hparts]. exists fails, last. auto.
Qed.

(** X5.  When a creation batch fails (its call raises, after the
    retries), [create_subitems] does not raise: it then tries every name of
    that batch on its own, in order, each with its own attempts; a name
    whose creation succeeds is followed by a pause, a name whose creation
    fails is printed with its error, and the other names are tried all the
    same. *)
Theorem batch_failure_falls_back parent chunk w msg w1 t1 :
  gql_with_retry W remote (MCreateBatch parent chunk) w = (Exc msg, w1, t1) ->
  exists w' parts,
    create_chunk W remote parent chunk w = (Ret tt, w', t1 ++ concat parts)
    /\ Forall2 (single_attempt parent) chunk parts.
Proof.
  intros Hfail. destruct (for_each_singles parent chunk w1)
    as (w' & parts & Hrun & Hparts).
  exists w', parts. split; [|exact Hparts].
  unfold create_chunk, try_except, bind at 1. rewrite Hfail, Hrun.
  reflexivity.
Qed.

End CallFacts.

(** * Further properties of the executor *)

Section ExecutorFacts.

Variable W : Type.
Variable remote : Request -> W -> Reply * W.
Variable cluster_oracle : list Item -> W -> Res (list Group) * W.
Variable strptime_utc : str -> option Z.
Variable fromisoformat : str -> option Z.

Lemma process_groups_app cfg names pre rest :
  forall a w a1 w1 t1,
    process_groups W remote cfg names a pre w = (Ret a1, w1, t1) ->
    process_groups W remote cfg names a (pre ++ rest) w
    = match process_groups W remote cfg names a1 rest w1 with
      | (r, w2, t2) => (r, w2, t1 ++ t2)
      end.
Proof.
  induction pre as [|g pre IH]; intros a w a1 w1 t1 H; simpl in *.
  - inversion H; subst.
    destruct (process_groups W remote cfg names a1 rest w1) as [[r w2] t2].
    reflexivity.
  - inv_bind H as a0 w0 Hg Hpre.
    unfold bind at 1. rewrite Hg.
    rewrite (IH _ _ _ _ _ Hpre).
    destruct (process_groups W remote cfg names a1 rest w1) as [[r w2] t2].
    rewrite app_assoc. reflexivity.
Qed.

(** X6.  The fetch of a parent's child records is one call, not retried,
    whatever the error says.  When it fails in some round, that round makes
    no other call, the later groups are not processed, and the run ends
    with the error instead of a summary. *)
Theorem fetch_failure_ends_the_run cfg items w pre g rest w0 t0 a1 w1 t1
    parent c more msg w2 :
  select_groups W cluster_oracle strptime_utc fromisoformat cfg items w
    = (Ret (pre ++ g :: rest), w0, t0) ->
  process_groups W remote cfg
    (id_to_name strptime_utc fromisoformat items) acc0 pre w0
    = (Ret a1, w1, t1) ->
  item_ids_oldest_first g = parent :: c :: more ->
  remote (QSubitems parent) w1 = (RError msg, w2) ->
  main W remote cluster_oracle strptime_utc fromisoformat cfg items w
  = (Exc msg, w2, t0 ++ t1 ++ [EvGql (QSubitems parent) (RError msg)]).
Proof.
  intros Hsel Hpre Hids Hfetch. unfold main, bind at 1. rewrite Hsel.
  unfold bind at 1. rewrite (process_groups_app _ _ _ _ _ _ _ _ _ Hpre).
  cbn [process_groups]. unfold bind at 1, process_group. rewrite Hids.
  unfold bind at 1, get_existing_subitem_names, bind at 1, gql.
  rewrite Hfetch. reflexivity.
Qed.

(** *** What the after-action touches *)

Lemma In_represented (names : gmap str str) (existing : gset str)
    (children : list str) (id : str) (existing' : gset str) :
  In id (represented_of names existing'
           (pending_of names existing children) children) ->
  In id children.
Proof.
  unfold represented_of. intros H. apply in_app_iff in H.
  destruct H as [H|H].
  - apply in_map_iff in H. destruct H as [[cid nm] [<- Hin]].
    apply pending_of_spec in Hin. apply Hin.
  - apply filter_In in H. apply H.
Qed.

Lemma touches_only_after_action cfg names r a allowed :
  (forall id, In id r -> In id allowed) ->
  emits W (touches_only allowed (MOVE_GROUP_ID cfg))
    (after_action W remote cfg names r a).
Proof.
  intros Hr. unfold after_action. destruct r as [|i r]; [apply emits_ret|].
  destruct (_ && _).
  - apply emits_bind; [|intros; apply emits_ret].
    unfold move_items. apply emits_for_each. intros chunk Hchunk.
    apply emits_bind; [|intros; apply emits_sleep; exact I].
    apply emits_gql_with_retry; [|intros; exact I].
    intros rep. split; [reflexivity|]. intros id Hid. apply Hr.
    exact (In_chunks 5 _ chunk id Hchunk Hid).
  - destruct (str_eqb _ _); [|apply emits_ret].
    apply emits_bind; [|intros; apply emits_ret].
    unfold archive_items. apply emits_for_each. intros chunk Hchunk.
    apply emits_bind; [|intros; apply emits_sleep; exact I].
    apply emits_gql_with_retry; [|intros; exact I].
    intros rep id Hid. apply Hr.
    exact (In_chunks 10 _ chunk id Hchunk Hid).
Qed.

(** X7.  In the round of a group, only children of the group are relocated
    or archived, that is ids among [ids[1:][:MAX_CHILDREN]], and they are
    relocated to [MOVE_GROUP_ID] only; the parent, the first id, is never
    relocated or archived unless the group lists it again. *)
Theorem after_action_touches_children_only cfg names a g w :
  Forall (touches_only (children_of cfg (item_ids_oldest_first g))
            (MOVE_GROUP_ID cfg))
    (snd (process_group W remote cfg names a g w))
  /\ (forall id, In id (children_of cfg (item_ids_oldest_first g)) ->
                 In id (tl (item_ids_oldest_first g))).
Proof.
  split; [|intros id; apply In_slice_to].
  revert w.
  change (emits W (touches_only (children_of cfg (item_ids_oldest_first g))
                     (MOVE_GROUP_ID cfg))
            (process_group W remote cfg names a g)).
  unfold process_group.
  destruct (item_ids_oldest_first g) as [|parent [|c rest]];
    try apply emits_ret.
  apply emits_bind.
  - unfold get_existing_subitem_names. apply emits_bind.
    + apply emits_gql. intros rep. exact I.
    + intros d. apply emits_ret.
  - intros e. unfold consolidate. cbv zeta. apply emits_bind.
    + destruct (pending_of names e _); [apply emits_ret|].
      apply emits_bind; [|intros; apply emits_ret].
      apply emits_create_subitems; intros; exact I.
    + intros ae. apply emits_bind.
      * apply touches_only_after_action. intros id. apply In_represented.
      * intros a3. apply emits_bind; [apply emits_sleep; exact I|].
        intros _. apply emits_ret.
Qed.

End ExecutorFacts.

Lemma archive_calls_none (t : list Event) :
  Forall (fun ev => match ev with
                    | EvGql req _ => is_archive req = false
                    | _ => True
                    end) t ->
  archive_calls t = [].
Proof.
  unfold archive_calls, requests_of.
  induction 1 as [|ev t Hev _ IH]; [reflexivity|].
  destruct ev; simpl in *; auto. rewrite Hev. exact IH.
Qed.

Section AfterActionFacts.

Variable W : Type.
Variable remote : Request -> W -> Reply * W.
Variable cluster_oracle : list Item -> W -> Res (list Group) * W.
Variable strptime_utc : str -> option Z.
Variable fromisoformat : str -> option Z.

(** A run emits what its after-actions emit, and nothing else that
    relocates or archives. *)
Lemma emits_main_by_after_action (P : Event -> Prop) cfg items :
  (forall req rep, is_move req = false -> is_archive req = false ->
                   P (EvGql req rep)) ->
  (forall d, P (EvSleep d)) -> (forall fed, P (EvCluster fed)) ->
  (forall p n e, P (EvPrintFailed p n e)) ->
  (forall names r a, emits W P (after_action W remote cfg names r a)) ->
  emits W P
    (main W remote cluster_oracle strptime_utc fromisoformat cfg items).
Proof.
  intros Hq Hd Hc Hp Ha. unfold main. apply emits_bind.
  - apply emits_select_groups. exact Hc.
  - intros groups. apply emits_bind; [|intros; apply emits_ret].
    generalize acc0. induction groups as [|g groups IH]; intros a; simpl.
    + apply emits_ret.
    + apply emits_bind; [|exact IH]. unfold process_group.
      destruct (item_ids_oldest_first g) as [|parent [|c rest]];
        try apply emits_ret.
      apply emits_bind.
      * unfold get_existing_subitem_names. apply emits_bind.
        -- apply emits_gql. intros rep. apply Hq; reflexivity.
        -- intros d. apply emits_ret.
      * intros e. apply emits_consolidate; auto; intros; apply Hq;
          reflexivity.
Qed.

(** The counters that only the after-action changes. *)
Lemma process_groups_keeps {X} (f : Acc -> X) cfg names :
  (forall tc m ar c mi ai tc' c',
      f (mkAcc tc m ar c mi ai) = f (mkAcc tc' m ar c' mi ai)) ->
  (forall r a w a' w' t,
      after_action W remote cfg names r a w = (Ret a', w', t) ->
      f a' = f a) ->
  forall groups a w a' w' t,
    process_groups W remote cfg names a groups w = (Ret a', w', t) ->
    f a' = f a.
Proof.
  intros Hf Hafter. induction groups as [|g groups IH];
    intros a w a' w' t H; simpl in H.
  - inversion H. reflexivity.
  - inv_bind H as a1 w1 Hg Hrest. rewrite (IH _ _ _ _ _ Hrest).
    clear IH Hrest. unfold process_group in Hg.
    destruct (item_ids_oldest_first g) as [|parent [|c rest]];
      try (inversion Hg; reflexivity).
    inv_bind Hg as e w2 Hfetch Hcons. clear Hfetch.
    unfold consolidate in Hcons. cbv zeta in Hcons.
    inv_bind Hcons as ae w3 Hcreate Hafter'.
    inv_bind Hafter' as a3 w4 Hact Hsleep.
    inv_bind Hsleep as u w5 Hs Hr. inversion Hr; subst. clear Hs Hr.
    rewrite (Hafter _ _ _ _ _ _ Hact). clear Hact.
    assert (Hae : f (fst ae) = f a).
    { destruct (pending_of names e _).
      - inversion Hcreate; subst. reflexivity.
      - inv_bind Hcreate as u' w6 Hc Hr. inversion Hr; subst. cbn [fst].
        destruct a. apply Hf. }
    destruct (represented_of _ _ _ _); [exact Hae|].
    rewrite <- Hae. destruct (fst ae). apply Hf.
Qed.

Lemma after_action_not_archive cfg names r a w a' w' t :
  AFTER_ACTION cfg <> lit "archive" ->
  after_action W remote cfg names r a w = (Ret a', w', t) ->
  (archived a', acc_archived_items a') = (archived a, acc_archived_items a).
Proof.
  intros Hne. unfold after_action. rewrite (str_eqb_neq _ _ Hne).
  destruct r; [intros H; inversion H; reflexivity|].
  destruct (_ && _).
  - intros H. inv_bind H as u w1 Hm Hr. inversion Hr. reflexivity.
  - intros H. inversion H. reflexivity.
Qed.

Lemma after_action_not_move cfg names r a w a' w' t :
  AFTER_ACTION cfg <> lit "move" ->
  after_action W remote cfg names r a w = (Ret a', w', t) ->
  (moved a', acc_moved_items a') = (moved a, acc_moved_items a).
Proof.
  intros Hne. unfold after_action. rewrite (str_eqb_neq _ _ Hne).
  cbn [andb]. destruct r; [intros H; inversion H; reflexivity|].
  destruct (str_eqb _ _).
  - intros H. inv_bind H as u w1 Hm Hr. inversion Hr. reflexivity.
  - intros H. inversion H. reflexivity.
Qed.

(** X8.  A run archives only under [AFTER_ACTION = "archive"] and
    relocates only under [AFTER_ACTION = "move"]: under any other value no
    archive call (no relocate call) is made whatever the remote side
    answers, and the summary has [archived_originals = 0] and no archived
    item ([moved_originals = 0] and no moved item).  So no run does both. *)
Theorem after_action_is_exclusive cfg items w :
  let run :=
    main W remote cluster_oracle strptime_utc fromisoformat cfg items w in
  (AFTER_ACTION cfg <> lit "archive" ->
   archive_calls (snd run) = []
   /\ forall s, fst (fst run) = Ret s ->
                archived_originals s = 0%Z /\ archived_items s = [])
  /\ (AFTER_ACTION cfg <> lit "move" ->
      relocate_calls (snd run) = []
      /\ forall s, fst (fst run) = Ret s ->
                   moved_originals s = 0%Z /\ moved_items s = []).
Proof.
  cbv zeta. split; intros Hne; split.
  - apply archive_calls_none. revert w.
    apply emits_main_by_after_action; try (intros; exact I).
    + intros req rep _ H. exact H.
    + intros names r a. unfold after_action.
      rewrite (str_eqb_neq _ _ Hne). destruct r; [apply emits_ret|].
      destruct (_ && _); [|apply emits_ret].
      apply emits_bind; [|intros; apply emits_ret].
      apply emits_move_items; intros; reflexivity || exact I.
  - intros s Hs.
    destruct (main W remote cluster_oracle strptime_utc fromisoformat
                cfg items w) as [[r w'] t] eqn:E.
    simpl in Hs. subst r. unfold main in E.
    inv_bind E as groups w1 Hsel Hrest. inv_bind Hrest as a w2 Hrun Hret.
    inversion Hret; subst; clear Hret.
    cbn [archived_originals archived_items].
    pose proof (process_groups_keeps
                  (fun a => (archived a, acc_archived_items a)) cfg _
                  ltac:(reflexivity)
                  ltac:(intros; eapply after_action_not_archive; eassumption)
                  _ _ _ _ _ _ Hrun) as H.
    inversion H. auto.
  - apply relocate_calls_none. revert w.
    apply emits_main_by_after_action; try (intros; exact I).
    + intros req rep H _. exact H.
    + intros names r a. unfold after_action.
      rewrite (str_eqb_neq _ _ Hne). cbn [andb].
      destruct r; [apply emits_ret|].
      destruct (str_eqb _ _); [|apply emits_ret].
      apply emits_bind; [|intros; apply emits_ret].
      apply emits_archive_items; intros; reflexivity || exact I.
  - intros s Hs.
    destruct (main W remote cluster_oracle strptime_utc fromisoformat
                cfg items w) as [[r w'] t] eqn:E.
    simpl in Hs. subst r. unfold main in E.
    inv_bind E as groups w1 Hsel Hrest. inv_bind Hrest as a w2 Hrun Hret.
    inversion Hret; subst; clear Hret.
    cbn [moved_originals moved_items].
    pose proof (process_groups_keeps
                  (fun a => (moved a, acc_moved_items a)) cfg _
                  ltac:(reflexivity)
                  ltac:(intros; eapply after_action_not_move; eassumption)
                  _ _ _ _ _ _ Hrun) as H.
    inversion H. auto.
Qed.

End AfterActionFacts.

Lemma filter_length_le {A} (p : A -> bool) (l : list A) :
  (length (List.filter p l) <= length l)%nat.
Proof.
  induction l as [|x l IH]; simpl; [lia|]. destruct (p x); simpl; lia.
Qed.

Lemma pending_of_length (names : gmap str str) (existing : gset str)
    (children : list str) :
  (length (pending_of names existing children) <= length children)%nat.
Proof.
  unfold pending_of. etransitivity; [apply filter_length_le|].
  rewrite length_map. lia.
Qed.

Section CountFacts.

Variable W : Type.
Variable remote : Request -> W -> Reply * W.
Variable cluster_oracle : list Item -> W -> Res (list Group) * W.
Variable strptime_utc : str -> option Z.
Variable fromisoformat : str -> option Z.

Lemma process_groups_total_created cfg names groups :
  (0 <= MAX_CHILDREN cfg)%Z ->
  forall a w a' w' t,
    process_groups W remote cfg names a groups w = (Ret a', w', t) ->
    (total_created a <= total_created a'
     <= total_created a + Z.of_nat (length groups) * MAX_CHILDREN cfg)%Z.
Proof.
  intros Hmax. induction groups as [|g groups IH];
    intros a w a' w' t H; simpl in H.
  - inversion H. simpl. lia.
  - inv_bind H as a1 w1 Hg Hrest. apply IH in Hrest.
    assert (Hstep : (total_created a <= total_created a1
                     <= total_created a + MAX_CHILDREN cfg)%Z).
    { unfold process_group in Hg.
      destruct (item_ids_oldest_first g) as [|parent [|c rest]];
        try (inversion Hg; lia).
      inv_bind Hg as e w2 Hfetch Hcons.
      apply consolidate_total_created in Hcons. rewrite Hcons.
      pose proof (pending_of_length names e
                    (children_of cfg (parent :: c :: rest))) as Hp.
      pose proof (slice_to_length (MAX_CHILDREN cfg) (tl (parent :: c :: rest))
                    Hmax) as Hc.
      unfold children_of in *. lia. }
    cbn [length]. lia.
Qed.

(** X9.  With [MAX_GROUPS] and [MAX_CHILDREN] not negative, the
    [created_subitems] of a summary is between 0 and
    [MAX_GROUPS * MAX_CHILDREN]. *)
Theorem created_subitems_bounded cfg items w s w' t :
  (0 <= MAX_GROUPS cfg)%Z -> (0 <= MAX_CHILDREN cfg)%Z ->
  main W remote cluster_oracle strptime_utc fromisoformat cfg items w
    = (Ret s, w', t) ->
  (0 <= created_subitems s <= MAX_GROUPS cfg * MAX_CHILDREN cfg)%Z.
Proof.
  intros Hg Hc H. unfold main in H.
  inv_bind H as groups w1 Hsel Hrest. inv_bind Hrest as a w2 Hrun Hret.
  inversion Hret; subst; clear Hret. cbn [created_subitems].
  apply (process_groups_total_created _ _ _ Hc) in Hrun.
  apply select_groups_sliced in Hsel. destruct Hsel as [l ->].
  pose proof (slice_to_length (MAX_GROUPS cfg) l Hg) as Hlen.
  change (total_created acc0) with 0%Z in Hrun. nia.
Qed.

End CountFacts.

(** X10.  A child for which a record is created in a round, and whose id
    has a name in [id_to_name], is listed twice among the represented ids
    of that round: once as pending and once more because its name has
    been added to the existing names.  The after-action and its counter
    take it twice. *)
Theorem new_child_listed_twice (names : gmap str str) (existing : gset str)
    (children : list str) (cid x : str) :
  let pending := pending_of names existing children in
  let represented_ids :=
    represented_of names (existing ∪ list_to_set (map snd pending))
      pending children in
  In cid (map fst pending) -> names !! cid = Some x ->
  (2 <= count_occ str_dec represented_ids cid)%nat.
Proof.
  cbv zeta. intros Hin Hx. unfold represented_of. rewrite count_occ_app.
  pose proof (proj1 (count_occ_In str_dec _ _) Hin)
    as H1.
  assert (H2 : In cid
                 (List.filter
                    (fun cid0 =>
                       bool_decide
                         (strip (default [] (names !! cid0))
                          ∈ existing
                            ∪ list_to_set
                                (map snd (pending_of names existing children))))
                    children)).
  { apply in_map_iff in Hin. destruct Hin as [[c nm] [Hc Hp]].
    simpl in Hc. subst c. pose proof Hp as Hp'.
    apply pending_of_spec in Hp. destruct Hp as (Hch & Hnm & _ & _).
    apply filter_In. split; [exact Hch|]. cbv beta.
    apply bool_decide_eq_true. apply elem_of_union. right.
    apply elem_of_list_to_set, list_elem_of_In.
    unfold display_name in Hnm. unfold str in *.
    rewrite Hx in Hnm. rewrite Hx. cbn [default] in *.
    rewrite <- Hnm. apply in_map_iff. exists (cid, nm). auto. }
  apply (count_occ_In str_dec) in H2. lia.
Qed.

(** ** The further properties on the concrete scenarios *)

(** X3 on three names of which one is blank. *)
Lemma creation_sends_every_name_witness :
  (forall chunk w0, exists d w1,
      remote_ok (MCreateBatch (lit "1") chunk) w0 = (RData d, w1))
  /\ clean_names_of [lit "a"; lit "  "; lit " b "]
     = [lit "a"; lit "Item 2"; lit "b"]
  /\ exists w' t,
       create_subitems unit remote_ok (lit "1") [lit "a"; lit "  "; lit " b "] tt
       = (Ret tt, w', t)
       /\ requests_of t
          = map (MCreateBatch (lit "1"))
              (chunks 20 (clean_names_of [lit "a"; lit "  "; lit " b "]))
       /\ created_names t
          = map (pair (lit "1"))
              (clean_names_of [lit "a"; lit "  "; lit " b "])
       /\ Forall (fun ev => forall p n e, ev <> EvPrintFailed p n e) t.
Proof.
  assert (H : forall chunk w0, exists d w1,
             remote_ok (MCreateBatch (lit "1") chunk) w0 = (RData d, w1))
    by (intros chunk w0; exists [], w0; reflexivity).
  split; [exact H|]. split; [vm_compute; reflexivity|].
  exact (creation_sends_every_name unit remote_ok (lit "1")
           [lit "a"; lit "  "; lit " b "] tt H).
Defined.

(** X4 on seven ids: two relocate calls (5 and 2 ids), one archive call. *)
Lemma relocation_sends_every_id_witness :
  let ids := map lit ["1"; "2"; "3"; "4"; "5"; "6"; "7"]%string in
  (forall req w0,
      (forall parent, req <> QSubitems parent) ->
      exists d w1, remote_ok req w0 = (RData d, w1))
  /\ map (@length str) (chunks 5 ids) = [5; 2]%nat
  /\ (exists w' t,
         move_items unit remote_ok ids (lit "g") tt = (Ret tt, w', t)
         /\ requests_of t = map (fun c => MMove c (lit "g")) (chunks 5 ids)
         /\ concat (chunks 5 ids) = ids)
  /\ (exists w' t,
         archive_items unit remote_ok ids tt = (Ret tt, w', t)
         /\ requests_of t = map MArchive (chunks 10 ids)
         /\ concat (chunks 10 ids) = ids).
Proof.
  cbv zeta.
  assert (H : forall req w0,
             (forall parent, req <> QSubitems parent) ->
             exists d w1, remote_ok req w0 = (RData d, w1))
    by (intros req w0 _; exists [], w0; reflexivity).
  split; [exact H|]. split; [vm_compute; reflexivity|].
  exact (relocation_sends_every_id unit remote_ok _ (lit "g") tt H).
Defined.

(** X5 on a world that refuses every creation: both names of the batch are
    tried on their own. *)
Lemma batch_failure_falls_back_witness :
  let refused := lit "GraphQL errors: invalid item name" in
  let batch := MCreateBatch (lit "1") [lit "a"; lit "b"] in
  gql_with_retry unit remote_refusing batch tt
  = (Exc refused, tt, [EvGql batch (RError refused)])
  /\ exists w' parts,
       create_chunk unit remote_refusing (lit "1") [lit "a"; lit "b"] tt
       = (Ret tt, w', [EvGql batch (RError refused)] ++ concat parts)
       /\ Forall2 (single_attempt (lit "1")) [lit "a"; lit "b"] parts.
Proof.
  cbv zeta.
  match goal with
  | |- ?run = ?res /\ _ =>
      assert (Hrun : run = res) by (vm_compute; reflexivity)
  end.
  split; [exact Hrun|].
  exact (batch_failure_falls_back unit remote_refusing _ _ _ _ _ _ Hrun).
Defined.

(** X6 on a world that answers the fetch with "HTTP 429": one call, no
    retry, no summary. *)
Lemma fetch_failure_ends_the_run_witness :
  let cfg := config "exact" "none" "" 2 in
  let msg := lit "HTTP 429 from Monday. Body: {}" in
  select_groups unit no_clusters no_parse no_parse cfg two_duplicates tt
  = (Ret ([] ++ [duplicates_group]), tt, [])
  /\ main unit remote_429 no_clusters no_parse no_parse cfg two_duplicates tt
     = (Exc msg, tt, [] ++ [] ++ [EvGql (QSubitems (lit "1")) (RError msg)]).
Proof.
  cbv zeta.
  match goal with
  | |- ?run = ?res /\ _ =>
      assert (Hsel : run = res) by (vm_compute; reflexivity)
  end.
  split; [exact Hsel|].
  exact (fetch_failure_ends_the_run unit remote_429 no_clusters
           no_parse no_parse _ _ _ [] duplicates_group [] _ _ _ _ _
           (lit "1") (lit "2") [] _ tt Hsel eq_refl eq_refl eq_refl).
Defined.

(** X8 on a run with [AFTER_ACTION = "archive"]: the child is archived (it
    is listed twice) and nothing is relocated. *)
Lemma after_action_is_exclusive_witness :
  let cfg := config "exact" "archive" "g" 2 in
  let run := main unit remote_ok no_clusters no_parse no_parse cfg
               two_duplicates tt in
  AFTER_ACTION cfg <> lit "move"
  /\ archive_calls (snd run) = [MArchive [lit "2"; lit "2"]]
  /\ relocate_calls (snd run) = []
  /\ forall s, fst (fst run) = Ret s ->
               moved_originals s = 0%Z /\ moved_items s = [].
Proof.
  cbv zeta.
  assert (Hne : AFTER_ACTION (config "exact" "archive" "g" 2) <> lit "move")
    by (intros H; vm_compute in H; discriminate H).
  split; [exact Hne|]. split; [vm_compute; reflexivity|].
  exact (proj2 (after_action_is_exclusive unit remote_ok no_clusters
                  no_parse no_parse (config "exact" "archive" "g" 2)
                  two_duplicates tt) Hne).
Defined.

(** X9 on two duplicates: one creation, under the bound 8 * 25. *)
Lemma created_subitems_bounded_witness :
  let cfg := config "exact" "none" "" 2 in
  let s :=
    mkSummary 1 1 0 0
      [(lit "Site Visit Request",
        [lit "RE: Site Visit Request"; lit "RE: Site Visit Request"])]
      [] [] in
  exists t,
    main unit remote_ok no_clusters no_parse no_parse cfg two_duplicates tt
    = (Ret s, tt, t)
    /\ (0 <= created_subitems s <= MAX_GROUPS cfg * MAX_CHILDREN cfg)%Z.
Proof.
  cbv zeta.
  destruct (main unit remote_ok no_clusters no_parse no_parse
              (config "exact" "none" "" 2) two_duplicates tt)
    as [[r w'] t] eqn:E.
  assert (Hr : r = Ret (mkSummary 1 1 0 0
                          [(lit "Site Visit Request",
                            [lit "RE: Site Visit Request";
                             lit "RE: Site Visit Request"])] [] []))
    by (apply (f_equal (fun x => fst (fst x))) in E; vm_compute in E;
        symmetry; exact E).
  destruct w'. subst r. exists t. split; [reflexivity|].
  exact (created_subitems_bounded unit remote_ok no_clusters no_parse no_parse
           (config "exact" "none" "" 2) two_duplicates tt _ tt t
           ltac:(discriminate) ltac:(discriminate) E).
Defined.

(** X10 on the two duplicates: the child "2" is listed twice. *)
Lemma new_child_listed_twice_witness :
  let names := names_of two_duplicates in
  represented_of names (∅ ∪ list_to_set (map snd (pending_of names ∅ [lit "2"])))
    (pending_of names ∅ [lit "2"]) [lit "2"]
  = [lit "2"; lit "2"]
  /\ (2 <= count_occ str_dec
             (represented_of names
                (∅ ∪ list_to_set (map snd (pending_of names ∅ [lit "2"])))
                (pending_of names ∅ [lit "2"]) [lit "2"])
             (lit "2"))%nat.
Proof.
  cbv zeta. split; [vm_compute; reflexivity|].
  apply (new_child_listed_twice (names_of two_duplicates) ∅ [lit "2"]
           (lit "2") (lit "RE: Site Visit Request")).
  - vm_compute. left. reflexivity.
  - vm_compute. reflexivity.
Defined.

(** * Further properties of exact grouping *)

(** ** The order of the sort keys *)

Lemma str_compare_antisym (a b : str) :
  str_compare b a = CompOpp (str_compare a b).
Proof.
  revert b. induction a as [|x a IH]; intros [|y b]; simpl; try reflexivity.
  rewrite (N.compare_antisym (code x) (code y)).
  destruct (code x ?= code y)%N; simpl; auto.
Qed.

Lemma str_compare_le_trans (a b c : str) :
  str_compare a b <> Gt -> str_compare b c <> Gt -> str_compare a c <> Gt.
Proof.
  revert b c. induction a as [|x a IH]; intros [|y b] [|z c]; simpl;
    try congruence.
  destruct (N.compare_spec (code x) (code y)) as [Exy|Lxy|Gxy];
    try congruence;
    destruct (N.compare_spec (code y) (code z)) as [Eyz|Lyz|Gyz];
    try congruence; intros H1 H2.
  - rewrite Exy, Eyz, N.compare_refl. eapply IH; eassumption.
  - rewrite Exy. rewrite (proj2 (N.compare_lt_iff _ _) Lyz). discriminate.
  - rewrite <- Eyz. rewrite (proj2 (N.compare_lt_iff _ _) Lxy). discriminate.
  - rewrite (proj2 (N.compare_lt_iff _ _) (N.lt_trans _ _ _ Lxy Lyz)).
    discriminate.
Qed.

Lemma key_leb_total (k1 k2 : Z * str) :
  key_leb k1 k2 = false -> key_leb k2 k1 = true.
Proof.
  unfold key_leb. rewrite (Z.compare_antisym (fst k1) (fst k2)).
  destruct (fst k1 ?= fst k2)%Z; simpl; try congruence.
  rewrite (str_compare_antisym (snd k1) (snd k2)).
  destruct (str_compare (snd k1) (snd k2)); simpl; congruence.
Qed.

Lemma key_leb_trans (k1 k2 k3 : Z * str) :
  key_leb k1 k2 = true -> key_leb k2 k3 = true -> key_leb k1 k3 = true.
Proof.
  unfold key_leb.
  destruct (Z.compare_spec (fst k1) (fst k2)) as [E12|L12|G12];
    try congruence;
    destruct (Z.compare_spec (fst k2) (fst k3)) as [E23|L23|G23];
    try congruence; intros H1 H2.
  - rewrite E12, E23, Z.compare_refl.
    assert (str_compare (snd k1) (snd k3) <> Gt).
    { apply (str_compare_le_trans _ (snd k2)).
      - destruct (str_compare (snd k1) (snd k2)); congruence.
      - destruct (str_compare (snd k2) (snd k3)); congruence. }
    destruct (str_compare (snd k1) (snd k3)); congruence.
  - rewrite E12, (proj2 (Z.compare_lt_iff _ _) L23). reflexivity.
  - rewrite <- E23, (proj2 (Z.compare_lt_iff _ _) L12). reflexivity.
  - rewrite (proj2 (Z.compare_lt_iff _ _) (Z.lt_trans _ _ _ L12 L23)).
    reflexivity.
Qed.

Lemma insert_by_sorted {A} (key : A -> Z * str) (x : A) (l : list A) :
  StronglySorted (fun a b => key_le (key a) (key b)) l ->
  StronglySorted (fun a b => key_le (key a) (key b)) (insert_by key x l).
Proof.
  induction 1 as [|y l Hl IH Hy]; simpl.
  - repeat constructor.
  - destruct (key_leb (key x) (key y)) eqn:E.
    + constructor; [constructor; assumption|].
      constructor; [exact E|].
      apply List.Forall_forall. intros z Hz.
      apply (key_leb_trans _ (key y)); [exact E|].
      exact (proj1 (List.Forall_forall _ _) Hy z Hz).
    + constructor; [exact IH|].
      apply List.Forall_forall. intros z Hz.
      apply (Permutation_in _ (insert_by_perm key x l)) in Hz.
      destruct Hz as [<-|Hz].
      * apply key_leb_total. exact E.
      * exact (proj1 (List.Forall_forall _ _) Hy z Hz).
Qed.

Lemma sort_by_sorted {A} (key : A -> Z * str) (l : list A) :
  StronglySorted (fun a b => key_le (key a) (key b)) (sort_by key l).
Proof.
  induction l as [|x l IH]; simpl; [constructor|].
  apply insert_by_sorted. exact IH.
Qed.

(** ** The dictionary [by_subj] *)

Lemma assoc_setdefault_same {A} (key : str) (x : A) (d : list (str * list A)) :
  assoc key (setdefault_append key x d)
  = Some (default [] (assoc key d) ++ [x]).
Proof.
  induction d as [|[k arr] d IH]; simpl.
  - rewrite str_eqb_refl. reflexivity.
  - destruct (str_eqb k key) eqn:E; simpl; rewrite E; [reflexivity|exact IH].
Qed.

Lemma assoc_setdefault_other {A} (key key' : str) (x : A)
    (d : list (str * list A)) :
  key' <> key -> assoc key' (setdefault_append key x d) = assoc key' d.
Proof.
  intros Hne. induction d as [|[k arr] d IH]; simpl.
  - rewrite (str_eqb_neq key key') by congruence. reflexivity.
  - destruct (str_eqb k key) eqn:E; simpl.
    + apply str_eqb_eq in E. subst k.
      rewrite (str_eqb_neq key key') by congruence. reflexivity.
    + rewrite IH. reflexivity.
Qed.

Lemma keys_setdefault {A} (key : str) (x : A) (d : list (str * list A)) :
  List.NoDup (map fst d) ->
  List.NoDup (map fst (setdefault_append key x d))
  /\ (forall k, In k (map fst (setdefault_append key x d))
                <-> k = key \/ In k (map fst d)).
Proof.
  induction d as [|[k arr] d IH]; simpl; intros Hnd.
  - split; [repeat constructor; intros []|]. intros k. split.
    + intros [<-|[]]. left. reflexivity.
    + intros [->|[]]. left. reflexivity.
  - inversion Hnd as [|? ? Hk Hd]; subst.
    destruct (str_eqb k key) eqn:E; simpl.
    + apply str_eqb_eq in E. subst k. split; [exact Hnd|].
      intros k. split; [tauto|]. intros [->|H]; [left; reflexivity|exact H].
    + destruct (IH Hd) as [IH1 IH2]. split.
      * constructor; [|exact IH1]. intros Hin. apply IH2 in Hin.
        destruct Hin as [->|Hin]; [|contradiction].
        rewrite str_eqb_refl in E. discriminate.
      * intros k'. rewrite IH2. tauto.
Qed.

Lemma assoc_In {A} (d : list (str * A)) (k : str) (v : A) :
  List.NoDup (map fst d) -> (In (k, v) d <-> assoc k d = Some v).
Proof.
  induction d as [|[k' v'] d IH]; simpl; intros Hnd.
  - split; [intros []|discriminate].
  - inversion Hnd as [|? ? Hk Hd]; subst.
    destruct (str_eqb k' k) eqn:E.
    + apply str_eqb_eq in E. subst k'. split.
      * intros [H|H]; [inversion H; reflexivity|].
        exfalso. apply Hk. apply in_map_iff. exists (k, v). auto.
      * intros H. inversion H. left. reflexivity.
    + rewrite <- (IH Hd). split.
      * intros [H|H]; [|exact H]. inversion H; subst.
        rewrite str_eqb_refl in E. discriminate.
      * intros H. right. exact H.
Qed.

Lemma filter_map_comm {A B} (p : B -> bool) (f : A -> B) (l : list A) :
  List.filter p (map f l) = map f (List.filter (fun x => p (f x)) l).
Proof.
  induction l as [|x l IH]; simpl; [reflexivity|].
  destruct (p (f x)); simpl; rewrite IH; reflexivity.
Qed.

(** After the loop that fills it, [by_subj] holds under each subject the
    shaped items of that subject, in their input order, and nothing under
    a subject that no item has. *)
Lemma by_subj_step (d : list (str * list Shaped)) (processed : list Shaped)
    (it : Shaped) :
  (List.NoDup (map fst d)
   /\ forall k, assoc k d
                = match List.filter (fun x => str_eqb (subject_norm x) k)
                          processed with
                  | [] => None
                  | l => Some l
                  end) ->
  List.NoDup (map fst (setdefault_append (subject_norm it) it d))
  /\ forall k, assoc k (setdefault_append (subject_norm it) it d)
               = match List.filter (fun x => str_eqb (subject_norm x) k)
                         (processed ++ [it]) with
                 | [] => None
                 | l => Some l
                 end.
Proof.
  intros [Hnd Hassoc]. split; [apply keys_setdefault, Hnd|].
  intros k. rewrite List.filter_app. simpl.
  destruct (str_eq_dec k (subject_norm it)) as [->|Hne].
  - rewrite assoc_setdefault_same, Hassoc, str_eqb_refl.
    destruct (List.filter _ processed); reflexivity.
  - rewrite (assoc_setdefault_other _ _ _ _ Hne), Hassoc.
    rewrite (str_eqb_neq (subject_norm it) k) by congruence.
    rewrite app_nil_r. reflexivity.
Qed.

Lemma by_subj_inv (shaped : list Shaped) :
  List.NoDup (map fst (by_subj_of shaped))
  /\ forall k, assoc k (by_subj_of shaped)
               = match List.filter (fun x => str_eqb (subject_norm x) k)
                         shaped with
                 | [] => None
                 | l => Some l
                 end.
Proof.
  unfold by_subj_of.
  assert (Hgen : forall todo d processed,
             (List.NoDup (map fst d)
              /\ forall k, assoc k d
                           = match List.filter
                                     (fun x => str_eqb (subject_norm x) k)
                                     processed with
                             | [] => None
                             | l => Some l
                             end) ->
             List.NoDup
               (map fst
                  (fold_left
                     (fun d it => setdefault_append (subject_norm it) it d)
                     todo d))
             /\ forall k,
                 assoc k
                   (fold_left
                      (fun d it => setdefault_append (subject_norm it) it d)
                      todo d)
                 = match List.filter (fun x => str_eqb (subject_norm x) k)
                           (processed ++ todo) with
                   | [] => None
                   | l => Some l
                   end).
  { induction todo as [|it todo IH]; intros d processed H; simpl.
    - rewrite app_nil_r. exact H.
    - replace (processed ++ it :: todo) with ((processed ++ [it]) ++ todo)
        by (rewrite <- app_assoc; reflexivity).
      apply IH, by_subj_step, H. }
  apply (Hgen shaped [] []). split; [constructor|reflexivity].
Qed.

Lemma In_by_subj (shaped : list Shaped) (k : str) (arr : list Shaped) :
  In (k, arr) (by_subj_of shaped) <->
  arr <> [] /\ arr = List.filter (fun x => str_eqb (subject_norm x) k) shaped.
Proof.
  destruct (by_subj_inv shaped) as [Hnd Hassoc].
  rewrite (assoc_In _ _ _ Hnd), Hassoc.
  destruct (List.filter _ shaped) as [|x l]; split.
  - discriminate.
  - intros [H ->]. contradiction.
  - intros H. inversion H. split; [discriminate|reflexivity].
  - intros [_ ->]. reflexivity.
Qed.

Section GroupingFacts.

Variable strptime_utc : str -> option Z.
Variable fromisoformat : str -> option Z.

Lemma shaped_with_subject (k : str) (items : list Item) :
  List.filter (fun x => str_eqb (subject_norm x) k)
    (map (shape strptime_utc fromisoformat) items)
  = map (shape strptime_utc fromisoformat) (items_with_subject k items).
Proof. apply filter_map_comm. Qed.

(** Every exact group is the group of an entry of [by_subj]. *)
Lemma In_grouped_exact (items : list Item) (g : Group) :
  In g (grouped_exact strptime_utc fromisoformat items) <->
  exists arr,
    arr <> []
    /\ arr = map (shape strptime_utc fromisoformat)
               (items_with_subject (g_subject_norm g) items)
    /\ g = group_of (g_subject_norm g, arr).
Proof.
  unfold grouped_exact, group_items. cbn [fst]. split.
  - intros H. apply (Permutation_in _ (sort_by_perm _ _)) in H.
    apply in_map_iff in H. destruct H as [[k arr] [<- Hin]].
    apply In_by_subj in Hin. destruct Hin as [Hne ->].
    cbn [group_of g_subject_norm fst snd]. rewrite shaped_with_subject in *.
    eauto.
  - intros (arr & Hne & Harr & Hg).
    apply (Permutation_in _ (Permutation_sym (sort_by_perm _ _))).
    apply in_map_iff. exists (g_subject_norm g, arr). split; [auto|].
    apply In_by_subj. split; [exact Hne|].
    rewrite shaped_with_subject. exact Harr.
Qed.

(** X11.  [group_items] makes one group per normalised subject that some
    item has: the subjects of the groups are pairwise distinct, every item
    has the group of its subject, and the member ids of a group are the ids
    of the items of its subject, as many as its [count], which is at least
    1. *)
Theorem exact_groups_by_subject (items : list Item) :
  let groups := grouped_exact strptime_utc fromisoformat items in
  (forall g, In g groups ->
     let members := items_with_subject (g_subject_norm g) items in
     members <> []
     /\ Permutation (item_ids_oldest_first g) (map item_id members)
     /\ count g = Z.of_nat (length members)
     /\ length (item_ids_oldest_first g) = length members)
  /\ (forall it, In it items ->
        exists g, In g groups
                  /\ g_subject_norm g = normalize_subject (item_name it))
  /\ List.NoDup (map g_subject_norm groups).
Proof.
  cbv zeta. split; [|split].
  - intros g Hg. apply In_grouped_exact in Hg.
    destruct Hg as (arr & Hne & Harr & Hg).
    assert (Hids : item_ids_oldest_first g
                   = map sh_id (sort_by (fun x => (created_at_ts x, sh_id x)) arr))
      by (rewrite Hg; reflexivity).
    assert (Hcount : count g
                     = Z.of_nat (length (sort_by
                                  (fun x => (created_at_ts x, sh_id x)) arr)))
      by (rewrite Hg; reflexivity).
    assert (Hlen : length (sort_by (fun x => (created_at_ts x, sh_id x)) arr)
                   = length (items_with_subject (g_subject_norm g) items)).
    { rewrite (Permutation_length (sort_by_perm _ arr)), Harr.
      apply length_map. }
    split; [|split; [|split]].
    + intros E. apply Hne. rewrite Harr, E. reflexivity.
    + rewrite Hids.
      eapply perm_trans; [apply Permutation_map, sort_by_perm|].
      rewrite Harr, map_map. apply Permutation_refl.
    + rewrite Hcount, Hlen. reflexivity.
    + rewrite Hids, length_map. exact Hlen.
  - intros it Hit.
    set (k := normalize_subject (item_name it)).
    exists (group_of (k, map (shape strptime_utc fromisoformat)
                            (items_with_subject k items))).
    split; [|reflexivity]. apply In_grouped_exact.
    cbn [group_of g_subject_norm fst].
    exists (map (shape strptime_utc fromisoformat) (items_with_subject k items)).
    split; [|split; reflexivity].
    assert (Hin : In it (items_with_subject k items)).
    { apply filter_In. split; [exact Hit|]. apply str_eqb_refl. }
    destruct (items_with_subject k items); [destruct Hin|discriminate].
  - unfold grouped_exact, group_items. cbn [fst].
    eapply Permutation_NoDup;
      [apply Permutation_map, Permutation_sym, sort_by_perm|].
    rewrite map_map.
    exact (proj1 (by_subj_inv (map (shape strptime_utc fromisoformat) items))).
Qed.

(** X12.  The groups come by decreasing [count], then by increasing
    subject; the member ids of a group come by increasing
    [(created_at_ts, id)], oldest first, so the parent (the first id) is
    an item that no member of the group precedes. *)
Theorem exact_groups_ordered (items : list Item) :
  let groups := grouped_exact strptime_utc fromisoformat items in
  StronglySorted (fun g h => key_le (group_key g) (group_key h)) groups
  /\ forall g, In g groups ->
       exists arr,
         item_ids_oldest_first g = map sh_id arr
         /\ Permutation arr
              (map (shape strptime_utc fromisoformat)
                 (items_with_subject (g_subject_norm g) items))
         /\ StronglySorted (fun x y => key_le (member_key x) (member_key y))
              arr.
Proof.
  cbv zeta. split.
  - unfold grouped_exact, group_items. cbn [fst].
    exact (sort_by_sorted group_key _).
  - intros g Hg. apply In_grouped_exact in Hg.
    destruct Hg as (arr & Hne & Harr & Hg).
    exists (sort_by member_key arr). split; [|split].
    + rewrite Hg. reflexivity.
    + rewrite <- Harr. apply sort_by_perm.
    + apply sort_by_sorted.
Qed.

End GroupingFacts.

(** ** The dictionary [id_to_name] *)

Lemma id_to_name_fold_other (l : list Shaped) (m0 : gmap str str) (i : str) :
  ~ In i (map sh_id l) ->
  fold_left (fun m x => <[sh_id x := sh_name x]> m) l m0 !! i = m0 !! i.
Proof.
  revert m0. induction l as [|x l IH]; intros m0 Hn; simpl; [reflexivity|].
  rewrite IH by (intros H; apply Hn; right; exact H).
  apply lookup_insert_ne. intros E. apply Hn. left. exact E.
Qed.

Lemma id_to_name_fold_last (l1 l2 : list Shaped) (x : Shaped)
    (m0 : gmap str str) :
  ~ In (sh_id x) (map sh_id l2) ->
  fold_left (fun m y => <[sh_id y := sh_name y]> m) (l1 ++ x :: l2) m0
    !! sh_id x
  = Some (sh_name x).
Proof.
  intros Hn. rewrite fold_left_app. simpl.
  rewrite id_to_name_fold_other by exact Hn.
  apply lookup_insert_eq.
Qed.

Lemma id_to_name_fold_none (l : list Shaped) (m0 : gmap str str) (i : str) :
  fold_left (fun m x => <[sh_id x := sh_name x]> m) l m0 !! i = None
  <-> ~ In i (map sh_id l) /\ m0 !! i = None.
Proof.
  revert m0. induction l as [|x l IH]; intros m0; simpl; [tauto|].
  rewrite IH. split.
  - intros [Hn Hm]. destruct (str_eq_dec (sh_id x) i) as [E|E].
    + rewrite <- E in Hm. rewrite lookup_insert_eq in Hm. discriminate.
    + rewrite lookup_insert_ne in Hm by exact E. tauto.
  - intros [Hn Hm]. split; [tauto|].
    rewrite lookup_insert_ne; [exact Hm|]. intros E. apply Hn. left. exact E.
Qed.

Section NameFacts.

Variable strptime_utc : str -> option Z.
Variable fromisoformat : str -> option Z.

(** X13.  [id_to_name] has a name for an id exactly when some item carries
    that id; the name is that of the last item that carries it (of the
    item, when ids are distinct); so every member id of an exact group has
    a name, and the fallback "Item <id>" is not used for it. *)
Theorem id_to_name_lookup (items : list Item) :
  (forall i, id_to_name strptime_utc fromisoformat items !! i = None
             <-> ~ In i (map item_id items))
  /\ (forall l1 it l2,
        items = l1 ++ it :: l2 ->
        ~ In (item_id it) (map item_id l2) ->
        id_to_name strptime_utc fromisoformat items !! item_id it
        = Some (item_name it))
  /\ (forall g i,
        In g (grouped_exact strptime_utc fromisoformat items) ->
        In i (item_ids_oldest_first g) ->
        exists name,
          id_to_name strptime_utc fromisoformat items !! i = Some name
          /\ display_name (id_to_name strptime_utc fromisoformat items) i
             = name).
Proof.
  assert (Hnone : forall i,
             id_to_name strptime_utc fromisoformat items !! i = None
             <-> ~ In i (map item_id items)).
  { intros i. unfold id_to_name, group_items. cbn [snd].
    unfold id_to_name_of. rewrite id_to_name_fold_none, map_map. cbn [sh_id shape].
    split; [tauto|]. intros H. split; [exact H|]. apply lookup_empty. }
  split; [exact Hnone|]. split.
  - intros l1 it l2 -> Hn. unfold id_to_name, group_items. cbn [snd].
    unfold id_to_name_of. rewrite map_app. cbn [map].
    apply (id_to_name_fold_last _ _ (shape strptime_utc fromisoformat it)).
    rewrite map_map. exact Hn.
  - intros g i Hg Hi.
    assert (Hin : In i (map item_id items)).
    { apply (Permutation_in _ (group_items_perm strptime_utc fromisoformat items)).
      apply in_concat. exists (item_ids_oldest_first g).
      split; [apply in_map; exact Hg|exact Hi]. }
    unfold display_name.
    destruct (id_to_name strptime_utc fromisoformat items !! i) as [name|] eqn:E.
    + exists name. split; reflexivity.
    + exfalso. apply (proj1 (Hnone i)); assumption.
Qed.

End NameFacts.

(** * Further properties of the planner and of a whole run *)

Lemma fetches_app (t1 t2 : list Event) :
  fetches (t1 ++ t2) = fetches t1 ++ fetches t2.
Proof. unfold fetches. rewrite requests_of_app. apply List.filter_app. Qed.

Lemma fetches_none (t : list Event) :
  Forall not_fetch_event t -> fetches t = [].
Proof.
  unfold fetches, requests_of.
  induction 1 as [|ev t Hev _ IH]; [reflexivity|].
  destruct ev; simpl in *; auto. rewrite Hev. exact IH.
Qed.

Lemma NoDup_map_filter_length {A} (f : A -> str) (k : str) (l : list A) :
  List.NoDup (map f l) ->
  (length (List.filter (fun x => str_eqb (f x) k) l) <= 1)%nat.
Proof.
  induction l as [|x l IH]; simpl; intros Hnd; [lia|].
  inversion Hnd as [|? ? Hx Hl]; subst. specialize (IH Hl).
  destruct (str_eqb (f x) k) eqn:E; [|exact IH].
  apply str_eqb_eq in E. simpl.
  destruct (List.filter (fun x0 => str_eqb (f x0) k) l) as [|y r] eqn:F;
    [simpl; lia|].
  exfalso. apply Hx.
  assert (Hy : In y (List.filter (fun x0 => str_eqb (f x0) k) l))
    by (rewrite F; left; reflexivity).
  apply filter_In in Hy. destruct Hy as [Hy Hk].
  apply str_eqb_eq in Hk. rewrite E, <- Hk. apply in_map. exact Hy.
Qed.

Section PlanFacts.

Variable W : Type.
Variable remote : Request -> W -> Reply * W.
Variable cluster_oracle : list Item -> W -> Res (list Group) * W.
Variable strptime_utc : str -> option Z.
Variable fromisoformat : str -> option Z.

Lemma process_group_fetches cfg names a g w a' w' t :
  process_group W remote cfg names a g w = (Ret a', w', t) ->
  fetches t
  = if actionable g then [QSubitems (hd [] (item_ids_oldest_first g))]
    else [].
Proof.
  unfold process_group, actionable.
  destruct (item_ids_oldest_first g) as [|parent [|c rest]];
    try (intros H; inversion H; reflexivity).
  intros H. inv_bind H as e w1 Hfetch Hcons.
  apply get_existing_inv in Hfetch. destruct Hfetch as (reply & _ & _ & ->).
  rewrite fetches_app. cbn [length Nat.leb hd].
  replace (fetches x0) with (@nil Request); [reflexivity|].
  symmetry. apply fetches_none.
  pose proof (emits_consolidate W remote not_fetch_event cfg names a parent
                (children_of cfg (parent :: c :: rest)) e
                ltac:(intros; reflexivity) ltac:(intros; reflexivity)
                ltac:(intros; exact I) ltac:(intros; exact I)
                ltac:(intros; apply emits_after_action;
                      intros; reflexivity || exact I) w1) as Hem.
  rewrite Hcons in Hem. exact Hem.
Qed.

Lemma process_groups_fetches cfg names groups :
  forall a w a' w' t,
    process_groups W remote cfg names a groups w = (Ret a', w', t) ->
    fetches t
    = map (fun g => QSubitems (hd [] (item_ids_oldest_first g)))
          (List.filter actionable groups).
Proof.
  induction groups as [|g groups IH]; intros a w a' w' t H; simpl in H.
  - inversion H. reflexivity.
  - inv_bind H as a1 w1 Hg Hrest.
    rewrite fetches_app, (process_group_fetches _ _ _ _ _ _ _ _ Hg),
      (IH _ _ _ _ _ Hrest).
    simpl. destruct (actionable g); reflexivity.
Qed.

(** X14.  A run that returns a summary has fetched the existing child
    records once for each selected group with at least two member ids, in
    the order of the plan and under the group's first id, and has made no
    other fetch. *)
Theorem one_fetch_per_actionable_group cfg items w s w' t :
  main W remote cluster_oracle strptime_utc fromisoformat cfg items w
    = (Ret s, w', t) ->
  exists groups w1 t1,
    select_groups W cluster_oracle strptime_utc fromisoformat cfg items w
      = (Ret groups, w1, t1)
    /\ fetches t
       = map (fun g => QSubitems (hd [] (item_ids_oldest_first g)))
             (List.filter actionable groups).
Proof.
  intros H. unfold main in H. inv_bind H as groups w1 Hsel Hrest.
  inv_bind Hrest as a w2 Hrun Hret. inversion Hret; subst; clear Hret.
  eexists groups, w1, _. split; [exact Hsel|].
  rewrite !fetches_app, app_nil_r.
  rewrite (process_groups_fetches _ _ _ _ _ _ _ _ Hrun).
  replace (fetches x) with (@nil Request); [reflexivity|].
  symmetry. apply fetches_none.
  pose proof (emits_select_groups W cluster_oracle strptime_utc fromisoformat
                not_fetch_event cfg items ltac:(intros; exact I) w) as Hem.
  rewrite Hsel in Hem. exact Hem.
Qed.

(** X15.  In exact mode the clusterer is not called and nothing is asked
    of the remote side to make the plan; every selected group is an exact
    group whose [count], the number of its member ids, is at least
    [MIN_COUNT]; so with [MIN_COUNT >= 2] every selected group is
    actionable. *)
Theorem exact_mode_selection cfg items w :
  GROUPING cfg = lit "exact" ->
  exists groups,
    select_groups W cluster_oracle strptime_utc fromisoformat cfg items w
      = (Ret groups, w, [])
    /\ forall g, In g groups ->
         In g (grouped_exact strptime_utc fromisoformat items)
         /\ (MIN_COUNT cfg <= count g)%Z
         /\ count g = Z.of_nat (length (item_ids_oldest_first g))
         /\ ((2 <= MIN_COUNT cfg)%Z -> actionable g = true).
Proof.
  intros He. unfold select_groups. rewrite He, str_eqb_refl.
  eexists. split; [reflexivity|]. intros g Hg.
  apply In_slice_to in Hg. unfold exact_first in Hg.
  apply filter_In in Hg. destruct Hg as [Hg Hmin].
  apply Z.leb_le in Hmin.
  assert (Hc : count g = Z.of_nat (length (item_ids_oldest_first g))).
  { apply In_grouped_exact in Hg. destruct Hg as (arr & _ & _ & ->).
    cbn [count item_ids_oldest_first group_of]. rewrite length_map.
    reflexivity. }
  repeat split; auto.
  intros H2. unfold actionable. apply Nat.leb_le. lia.
Qed.

(** X16.  In exact mode with [MIN_COUNT >= 2], when no two items have the
    same normalised subject, the run does nothing: no clusterer call, no
    remote call, no sleep, and the summary is empty. *)
Theorem exact_mode_without_duplicates cfg items w :
  GROUPING cfg = lit "exact" -> (2 <= MIN_COUNT cfg)%Z ->
  List.NoDup (map (fun it => normalize_subject (item_name it)) items) ->
  main W remote cluster_oracle strptime_utc fromisoformat cfg items w
  = (Ret empty_summary, w, []).
Proof.
  intros He Hmin Hnd.
  assert (Hnone : exact_first strptime_utc fromisoformat cfg items = []).
  { unfold exact_first.
    destruct (List.filter _ _) as [|g l] eqn:F; [reflexivity|]. exfalso.
    assert (Hg : In g (List.filter
                         (fun g => (MIN_COUNT cfg <=? count g)%Z)
                         (grouped_exact strptime_utc fromisoformat items)))
      by (rewrite F; left; reflexivity).
    apply filter_In in Hg. destruct Hg as [Hg Hc]. apply Z.leb_le in Hc.
    apply In_grouped_exact in Hg. destruct Hg as (arr & _ & Harr & Eg).
    rewrite Eg in Hc. cbn [count group_of snd] in Hc.
    rewrite (Permutation_length (sort_by_perm _ arr)), Harr, length_map in Hc.
    pose proof (NoDup_map_filter_length
                  (fun it => normalize_subject (item_name it))
                  (g_subject_norm g) items Hnd) as Hle.
    unfold items_with_subject in Hc. lia. }
  unfold main, select_groups, plan_exact. rewrite He, str_eqb_refl, Hnone.
  unfold bind, ret, slice_to.
  destruct (0 <=? MAX_GROUPS cfg)%Z; rewrite firstn_nil; reflexivity.
Qed.

End PlanFacts.

(** * Further properties of subject normalisation *)

Lemma normalize_length (x : str) :
  (length (normalize_subject x) <= length x)%nat.
Proof.
  destruct x as [|c x]; [simpl; lia|].
  rewrite normalize_subject_nonempty by discriminate.
  unfold lower. rewrite length_map.
  set (u := c :: x).
  pose proof (strip_length (dash_sub (strip (collapse_ws (after_qualifiers u))))).
  pose proof (shrinks_le dash_sub (strip (collapse_ws (after_qualifiers u)))
                dash_sub_shrinks).
  pose proof (strip_length (collapse_ws (after_qualifiers u))).
  pose proof (collapse_length false (after_qualifiers u)).
  pose proof (strip_loop_length trailing_sub (after_prefixes u)
                trailing_sub_shrinks).
  pose proof (strip_loop_length prefix_sub (after_tags u) prefix_sub_shrinks).
  pose proof (strip_loop_length bracket_sub (strip u) bracket_sub_shrinks).
  pose proof (strip_length u).
  unfold after_qualifiers, after_prefixes, after_tags, collapse_ws in *. lia.
Qed.

(** X17.  A normalised subject is trimmed, its blanks are single spaces,
    and it is in lower case; it is the lower-casing of a string that is
    not longer than the name it comes from (the steps before the last
    [lower()] remove characters or put one space for a run of blanks). *)
Theorem normalized_subject_shape (x : str) :
  strip (normalize_subject x) = normalize_subject x
  /\ collapse_ws (normalize_subject x) = normalize_subject x
  /\ lower (normalize_subject x) = normalize_subject x
  /\ exists s, normalize_subject x = lower s
               /\ (length s <= length x)%nat.
Proof.
  destruct (normalize_shape x) as (Hs & Hc & Hl & _).
  split; [exact Hs|]. split; [apply collapsed_fixed, Hc|].
  split; [exact Hl|].
  pose proof (normalize_length x) as Hlen.
  destruct x as [|c x]; [exists []; split; [reflexivity|simpl; lia]|].
  rewrite normalize_subject_nonempty in * by discriminate.
  eexists. split; [reflexivity|].
  unfold lower in Hlen. rewrite length_map in Hlen. exact Hlen.
Qed.

(** A pass over a string of the shape of a normalised subject changes
    nothing or shortens it. *)
Lemma normalize_same_length (r : str) :
  strip r = r -> collapsed_from false r = true -> lower r = r ->
  no_prefix r ->
  length (normalize_subject r) = length r ->
  normalize_subject r = r.
Proof.
  intros Hs Hc Hl Hp Hlen. destruct r as [|c r]; [reflexivity|].
  remember (c :: r) as u eqn:Eu.
  rewrite normalize_subject_nonempty in Hlen by (subst u; discriminate).
  unfold lower in Hlen. rewrite length_map in Hlen.
  set (a1 := after_tags u) in *.
  set (a4 := after_qualifiers u) in *.
  pose proof (strip_length (dash_sub (strip (collapse_ws a4)))) as L6.
  pose proof (shrinks_le dash_sub (strip (collapse_ws a4)) dash_sub_shrinks)
    as L5.
  pose proof (strip_length (collapse_ws a4)) as L4.
  pose proof (collapse_length false a4) as L3. fold (collapse_ws a4) in L3.
  assert (L2 : (length a4 <= length (after_prefixes u))%nat)
    by apply strip_loop_length, trailing_sub_shrinks.
  assert (L1 : (length (after_prefixes u) <= length a1)%nat)
    by apply strip_loop_length, prefix_sub_shrinks.
  assert (L0 : (length a1 <= length u)%nat).
  { subst a1. unfold after_tags. rewrite Hs.
    apply strip_loop_length, bracket_sub_shrinks. }
  assert (Hb : bracket_sub u = u).
  { destruct (str_eq_dec (bracket_sub u) u) as [H|H]; [exact H|].
    pose proof (strip_loop_changes _ _ bracket_sub_shrinks H) as Hlt.
    subst a1. unfold after_tags in L1, L0. rewrite Hs in L1, L0. lia. }
  assert (E1 : a1 = u).
  { subst a1. unfold after_tags. rewrite Hs. apply strip_loop_id, Hb. }
  assert (E2 : after_prefixes u = u).
  { unfold after_prefixes. fold a1. rewrite E1.
    apply strip_loop_id, prefix_sub_fixed_iff, Hp. }
  assert (Ht : trailing_sub u = u).
  { destruct (str_eq_dec (trailing_sub u) u) as [H|H]; [exact H|].
    pose proof (strip_loop_changes _ _ trailing_sub_shrinks H) as Hlt.
    subst a4. unfold after_qualifiers in *. rewrite E2 in *. lia. }
  assert (E4 : a4 = u).
  { subst a4. unfold after_qualifiers. rewrite E2. apply strip_loop_id, Ht. }
  rewrite E4 in *. unfold collapse_ws in *.
  rewrite (collapsed_fixed _ _ Hc) in *. rewrite Hs in *.
  apply normalize_fixed; try assumption.
  destruct (str_eq_dec (dash_sub u) u) as [H|H]; [exact H|].
  pose proof (dash_sub_shrinks u H). lia.
Qed.

Lemma iter_normalize_fixed (n : nat) :
  forall r,
    strip r = r -> collapsed_from false r = true -> lower r = r ->
    no_prefix r -> (length r <= n)%nat ->
    normalize_subject (Nat.iter n normalize_subject r)
    = Nat.iter n normalize_subject r.
Proof.
  induction n as [|n IH]; intros r Hs Hc Hl Hp Hlen.
  - destruct r; [reflexivity|simpl in Hlen; lia].
  - rewrite Nat.iter_succ_r.
    destruct (str_eq_dec (normalize_subject r) r) as [E|E].
    + rewrite E. clear IH Hlen.
      assert (Hfix : forall m, Nat.iter m normalize_subject r = r).
      { induction m as [|m IHm]; [reflexivity|].
        simpl. rewrite IHm. exact E. }
      rewrite Hfix. exact E.
    + destruct (normalize_shape r) as (Hs' & Hc' & Hl' & Hp').
      apply IH; try assumption.
      pose proof (normalize_length r) as Hle.
      assert (length (normalize_subject r) <> length r)
        by (intros Heq; apply E, normalize_same_length; assumption).
      lia.
Qed.

(** X18.  Normalising again and again comes to rest: after at most
    [len(x) + 1] passes a further pass changes nothing. *)
Theorem normalize_stabilises (x : str) :
  normalize_subject (Nat.iter (S (length x)) normalize_subject x)
  = Nat.iter (S (length x)) normalize_subject x.
Proof.
  rewrite Nat.iter_succ_r.
  destruct (normalize_shape x) as (Hs & Hc & Hl & Hp).
  apply iter_normalize_fixed; try assumption. apply normalize_length.
Qed.

Lemma rstrip_blank (s : str) : forallb is_space s = true -> rstrip s = [].
Proof.
  induction s as [|c s IH]; simpl; [reflexivity|].
  rewrite andb_true_iff. intros [Hc Hs]. rewrite (IH Hs), Hc. reflexivity.
Qed.

(** X19.  A name that is empty or made of blanks only has the empty
    subject. *)
Theorem normalize_blank (x : str) :
  forallb is_space x = true -> normalize_subject x = [].
Proof.
  intros H. destruct x as [|c x]; [reflexivity|].
  rewrite normalize_subject_nonempty by discriminate.
  unfold after_qualifiers, after_prefixes, after_tags, strip.
  rewrite (rstrip_blank _ H). reflexivity.
Qed.

(** ** Letter case *)

Lemma lower_length (s : str) : length (lower s) = length s.
Proof. apply length_map. Qed.

Lemma take_while_lower (p : ascii -> bool) (s : str) :
  (forall c, p (lower_char c) = p c) ->
  take_while p (lower s) = lower (take_while p s).
Proof.
  intros Hp. induction s as [|c s IH]; simpl; [reflexivity|].
  rewrite Hp. destruct (p c); simpl; [rewrite IH|]; reflexivity.
Qed.

Lemma drop_while_lower (p : ascii -> bool) (s : str) :
  (forall c, p (lower_char c) = p c) ->
  drop_while p (lower s) = lower (drop_while p s).
Proof.
  intros Hp. induction s as [|c s IH]; simpl; [reflexivity|].
  rewrite Hp. destruct (p c); simpl; [exact IH|reflexivity].
Qed.

Lemma forallb_lower (p : ascii -> bool) (s : str) :
  (forall c, p (lower_char c) = p c) ->
  forallb p (lower s) = forallb p s.
Proof.
  intros Hp. induction s as [|c s IH]; simpl; [reflexivity|].
  rewrite Hp, IH. reflexivity.
Qed.

Lemma is_opener_lower (c : ascii) : is_opener (lower_char c) = is_opener c.
Proof. each_char c; reflexivity. Qed.

Lemma not_closer_lower (c : ascii) : not_closer (lower_char c) = not_closer c.
Proof. each_char c; reflexivity. Qed.

Lemma is_dash_lower (c : ascii) : is_dash (lower_char c) = is_dash c.
Proof. each_char c; reflexivity. Qed.

Lemma newline_lower (c : ascii) :
  chr_eqb (lower_char c) newline = chr_eqb c newline.
Proof. each_char c; reflexivity. Qed.

Lemma bracket_sub_lower (s : str) : bracket_sub (lower s) = lower (bracket_sub s).
Proof.
  unfold bracket_sub, bracket_tag_match. rewrite lstrip_lower.
  destruct (lstrip s) as [|c r]; [reflexivity|].
  cbn [lower map]. fold (lower r). rewrite lbracket_lower.
  destruct (chr_eqb c (ch "[")); [|reflexivity].
  rewrite (take_while_lower _ _ not_rbracket_lower),
    (drop_while_lower _ _ not_rbracket_lower).
  destruct (take_while not_rbracket r); [reflexivity|].
  destruct (drop_while not_rbracket r) as [|y r']; [reflexivity|].
  cbn [lower map]. fold (lower r'). apply lstrip_lower.
Qed.

Lemma prefix_group_with_lower_eq (tok s : str) :
  prefix_group_with tok (lower s) = option_map lower (prefix_group_with tok s).
Proof.
  unfold prefix_group_with. rewrite istarts_with_lower.
  destruct (istarts_with tok s) as [v|]; [|reflexivity]. cbn [option_map].
  rewrite lstrip_lower. destruct (lstrip v) as [|c v']; [reflexivity|].
  cbn [lower map]. fold (lower v'). rewrite is_colon_or_rbracket_lower.
  destruct (is_colon_or_rbracket c); [|reflexivity].
  cbn [option_map]. rewrite lstrip_lower. reflexivity.
Qed.

Lemma first_match_lower (toks : list str) (s : str) :
  first_match toks (lower s) = option_map lower (first_match toks s).
Proof.
  induction toks as [|tok toks IH]; [reflexivity|]. simpl.
  rewrite prefix_group_with_lower_eq.
  destruct (prefix_group_with tok s); [reflexivity|exact IH].
Qed.

Lemma prefix_groups_lower (fuel : nat) (s : str) :
  prefix_groups fuel (lower s) = lower (prefix_groups fuel s).
Proof.
  revert s. induction fuel as [|fuel IH]; intros s; [reflexivity|].
  simpl. unfold prefix_group. rewrite first_match_lower.
  destruct (first_match prefix_tokens s) as [r|]; [apply IH|reflexivity].
Qed.

Lemma prefix_sub_lower (s : str) : prefix_sub (lower s) = lower (prefix_sub s).
Proof.
  unfold prefix_sub, prefix_match. rewrite lstrip_lower.
  unfold prefix_group. rewrite first_match_lower.
  destruct (first_match prefix_tokens (lstrip s)) as [r|]; [|reflexivity].
  cbn [option_map]. rewrite lower_length. apply prefix_groups_lower.
Qed.

Lemma trailing_here_lower (s : str) : trailing_here (lower s) = trailing_here s.
Proof.
  unfold trailing_here. rewrite lstrip_lower.
  destruct (lstrip s) as [|c r]; [reflexivity|].
  cbn [lower map]. fold (lower r). rewrite is_opener_lower.
  rewrite (drop_while_lower _ _ not_closer_lower).
  destruct (drop_while not_closer r) as [|y r']; [reflexivity|].
  cbn [lower map]. fold (lower r').
  rewrite (forallb_lower _ _ is_space_lower). reflexivity.
Qed.

Lemma trailing_sub_lower (s : str) :
  trailing_sub (lower s) = lower (trailing_sub s).
Proof.
  induction s as [|c s IH].
  - simpl. destruct (trailing_here []); reflexivity.
  - cbn [lower map trailing_sub]. fold (lower s).
    change (lower_char c :: lower s) with (lower (c :: s)).
    rewrite trailing_here_lower.
    destruct (trailing_here (c :: s)); [reflexivity|].
    cbn [lower map]. fold (lower s) (lower (trailing_sub s)).
    rewrite IH. reflexivity.
Qed.

Lemma collapse_lower (b : bool) (s : str) :
  collapse_from b (lower s) = lower (collapse_from b s).
Proof.
  revert b. induction s as [|c s IH]; intros b; [reflexivity|].
  cbn [lower map collapse_from]. fold (lower s). rewrite is_space_lower.
  destruct (is_space c) eqn:E.
  - destruct b; [apply IH|]. cbn [lower map]. rewrite IH. reflexivity.
  - cbn [lower map]. rewrite IH. reflexivity.
Qed.

Lemma dash_sub_lower (s : str) : dash_sub (lower s) = lower (dash_sub s).
Proof.
  induction s as [|c s IH]; [reflexivity|].
  cbn [lower map dash_sub dash_here]. fold (lower s).
  rewrite is_dash_lower. destruct (is_dash c).
  - rewrite (drop_while_lower _ _ is_dash_lower).
    destruct (drop_while is_dash s) as [|n [|m l]].
    + reflexivity.
    + cbn [lower map]. rewrite newline_lower.
      destruct (chr_eqb n newline); [reflexivity|].
      cbn [lower map]. fold (lower s) (lower (dash_sub s)).
      rewrite IH. reflexivity.
    + cbn [lower map]. fold (lower s) (lower (dash_sub s)).
      rewrite IH. reflexivity.
  - cbn [lower map]. fold (lower s) (lower (dash_sub s)).
    rewrite IH. reflexivity.
Qed.

Lemma sub_loop_lower (sub : str -> str) :
  shrinks sub -> (forall s, sub (lower s) = lower (sub s)) ->
  forall fuel s, sub_loop sub fuel (lower s) = lower (sub_loop sub fuel s).
Proof.
  intros Hsh Hsub. induction fuel as [|fuel IH]; intros s; [reflexivity|].
  simpl. rewrite Hsub.
  assert (E : str_eqb (lower (sub s)) (lower s) = str_eqb (sub s) s).
  { destruct (str_eq_dec (sub s) s) as [H|H].
    - rewrite H, !str_eqb_refl. reflexivity.
    - rewrite (str_eqb_neq _ _ H). apply str_eqb_neq. intros Heq.
      apply (f_equal (@length ascii)) in Heq. rewrite !lower_length in Heq.
      specialize (Hsh s H). lia. }
  rewrite E. destruct (str_eqb (sub s) s); [reflexivity|].
  rewrite strip_lower. apply IH.
Qed.

Lemma strip_loop_lower (sub : str -> str) (s : str) :
  shrinks sub -> (forall s, sub (lower s) = lower (sub s)) ->
  strip_loop sub (lower s) = lower (strip_loop sub s).
Proof.
  intros Hsh Hsub. unfold strip_loop. rewrite lower_length.
  apply sub_loop_lower; assumption.
Qed.

Lemma normalize_lower (x : str) :
  normalize_subject (lower x) = normalize_subject x.
Proof.
  destruct x as [|c x]; [reflexivity|].
  rewrite (normalize_subject_nonempty (lower (c :: x))) by discriminate.
  rewrite (normalize_subject_nonempty (c :: x)) by discriminate.
  unfold after_qualifiers, after_prefixes, after_tags.
  rewrite strip_lower.
  rewrite (strip_loop_lower _ _ bracket_sub_shrinks bracket_sub_lower).
  rewrite (strip_loop_lower _ _ prefix_sub_shrinks prefix_sub_lower).
  rewrite (strip_loop_lower _ _ trailing_sub_shrinks trailing_sub_lower).
  unfold collapse_ws. rewrite collapse_lower, strip_lower, dash_sub_lower,
    strip_lower.
  apply lower_idem.
Qed.

Lemma lower_ascii_lower_char (c : ascii) :
  lower_char (ascii_lower_char c) = lower_char c.
Proof. each_char c; reflexivity. Qed.

Lemma lower_ascii_lower (s : str) : lower (ascii_lower s) = lower s.
Proof.
  unfold lower, ascii_lower. rewrite map_map. apply map_ext.
  exact lower_ascii_lower_char.
Qed.

(** X20.  Normalisation ignores the case of the letters A-Z: two names
    that differ only in the case of such letters (they are equal once
    their letters A-Z are put in lower case) have the same subject. *)
Theorem normalize_ignores_case (a b : str) :
  ascii_lower a = ascii_lower b -> normalize_subject a = normalize_subject b.
Proof.
  intros H. apply (f_equal lower) in H. rewrite !lower_ascii_lower in H.
  rewrite <- (normalize_lower a), <- (normalize_lower b), H.
  reflexivity.
Qed.

(** ** The planner, the names and the normaliser on concrete inputs *)

(** X14 on three items, two of them duplicates, in exact mode: one group
    is selected and its parent "1" is fetched once. *)
Lemma one_fetch_per_actionable_group_witness :
  let cfg := config "exact" "none" "" 2 in
  let run := main unit remote_ok no_clusters no_parse no_parse cfg
               three_items tt in
  fetches (snd run) = [QSubitems (lit "1")]
  /\ exists groups w1 t1,
       select_groups unit no_clusters no_parse no_parse cfg three_items tt
         = (Ret groups, w1, t1)
       /\ fetches (snd run)
          = map (fun g => QSubitems (hd [] (item_ids_oldest_first g)))
                (List.filter actionable groups).
Proof.
  cbv zeta. split; [vm_compute; reflexivity|].
  refine (one_fetch_per_actionable_group unit remote_ok no_clusters
            no_parse no_parse (config "exact" "none" "" 2) three_items tt
            (match fst (fst (main unit remote_ok no_clusters no_parse no_parse
                               (config "exact" "none" "" 2) three_items tt))
             with Ret s => s | Exc _ => empty_summary end)
            tt _ _).
  vm_compute. reflexivity.
Defined.

(** X15 on the same items: the selection makes no call. *)
Lemma exact_mode_selection_witness :
  let cfg := config "exact" "none" "" 2 in
  exists groups,
    select_groups unit no_clusters no_parse no_parse cfg three_items tt
      = (Ret groups, tt, [])
    /\ forall g, In g groups ->
         In g (grouped_exact no_parse no_parse three_items)
         /\ (MIN_COUNT cfg <= count g)%Z
         /\ count g = Z.of_nat (length (item_ids_oldest_first g))
         /\ ((2 <= MIN_COUNT cfg)%Z -> actionable g = true).
Proof.
  exact (exact_mode_selection unit no_clusters no_parse no_parse
           (config "exact" "none" "" 2) three_items tt eq_refl).
Defined.

(** X16 on two items with different subjects: an empty summary and no
    call, even against a service that refuses everything. *)
Lemma exact_mode_without_duplicates_witness :
  let cfg := config "exact" "archive" "" 2 in
  let items := [item "1" "Site Visit Request"; item "3" "Invoice 42"] in
  map (fun it => normalize_subject (item_name it)) items
  = [lit "site visit request"; lit "invoice 42"]
  /\ main unit remote_429 no_clusters no_parse no_parse cfg items tt
     = (Ret empty_summary, tt, []).
Proof.
  cbv zeta.
  assert (E : map (fun it => normalize_subject (item_name it))
                [item "1" "Site Visit Request"; item "3" "Invoice 42"]
              = [lit "site visit request"; lit "invoice 42"])
    by (vm_compute; reflexivity).
  split; [exact E|].
  apply (exact_mode_without_duplicates unit remote_429 no_clusters
           no_parse no_parse (config "exact" "archive" "" 2)).
  - reflexivity.
  - simpl. lia.
  - rewrite E. constructor.
    + intros [H|[]]. discriminate H.
    + constructor; [intros []|constructor].
Defined.

(** X19 on a name of three blanks. *)
Lemma normalize_blank_witness : normalize_subject (lit "   ") = [].
Proof. exact (normalize_blank (lit "   ") eq_refl). Defined.

(** X20 on a name and another spelling of it. *)
Lemma normalize_ignores_case_witness :
  ascii_lower (lit "FW: Site Visit (Copy)") = lit "fw: site visit (copy)"
  /\ normalize_subject (lit "FW: Site Visit (Copy)")
     = normalize_subject (lit "Fw: SITE visit (copy)").
Proof.
  split; [vm_compute; reflexivity|].
  apply (normalize_ignores_case (lit "FW: Site Visit (Copy)")
           (lit "Fw: SITE visit (copy)")).
  vm_compute. reflexivity.
Defined.

(** ** The names that [create_subitems] sends *)

Lemma sanitize_firstn (name fallback : str) :
  _sanitize_name name fallback
  = firstn 255 (match strip name with [] => fallback | _ => strip name end).
Proof.
  unfold _sanitize_name.
  destruct (255 <? length _)%nat eqn:L; [reflexivity|].
  apply Nat.ltb_ge in L. symmetry. apply firstn_all2. exact L.
Qed.

Lemma sanitize_bounds (name fallback : str) :
  fallback <> [] ->
  _sanitize_name name fallback <> []
  /\ (length (_sanitize_name name fallback) <= 255)%nat.
Proof.
  intros Hf. rewrite sanitize_firstn. split.
  - destruct (strip name) as [|c r]; [|simpl; discriminate].
    destruct fallback; [contradiction|simpl; discriminate].
  - rewrite length_firstn. lia.
Qed.

Lemma filter_all {A} (p : A -> bool) (l : list A) :
  (forall x, In x l -> p x = true) -> List.filter p l = l.
Proof.
  induction l as [|x l IH]; intros H; [reflexivity|]. simpl.
  rewrite (H x (or_introl eq_refl)). f_equal. apply IH.
  intros y Hy. apply H. right. exact Hy.
Qed.

Lemma clean_names_map (names : list str) :
  clean_names_of names
  = map (fun p => _sanitize_name (snd p)
                    (lit "Item " ++ str_of_nat (fst p + 1)))
        (enumerate names).
Proof.
  unfold clean_names_of. apply filter_all. intros n Hn.
  apply in_map_iff in Hn. destruct Hn as [[i nm] [<- _]]. cbn [fst snd].
  apply negb_true_iff, str_eqb_neq.
  apply sanitize_bounds. simpl. discriminate.
Qed.

Lemma nth_error_enumerate_from {A} (l : list A) (a k : nat) (x : A) :
  nth_error l k = Some x ->
  nth_error (combine (seq a (length l)) l) k = Some ((a + k)%nat, x).
Proof.
  revert a k. induction l as [|y l IH]; intros a k H.
  - destruct k; discriminate H.
  - destruct k as [|k]; simpl in *.
    + inversion H. rewrite Nat.add_0_r. reflexivity.
    + rewrite (IH (S a) k H). f_equal. f_equal. lia.
Qed.

(** X21.  [create_subitems] sends one name for every name it is given, in
    the same order: the name trimmed, or "Item k" (k counted from 1) when
    the name is blank, cut to its first 255 characters.  No name is
    dropped: every name sent is non-empty and has at most 255
    characters. *)
Theorem clean_names_one_per_name (names : list str) :
  length (clean_names_of names) = length names
  /\ (forall k nm,
        nth_error names k = Some nm ->
        nth_error (clean_names_of names) k
        = Some (firstn 255
                  (match strip nm with
                   | [] => lit "Item " ++ str_of_nat (k + 1)
                   | _ => strip nm
                   end)))
  /\ Forall (fun n => n <> [] /\ (length n <= 255)%nat)
            (clean_names_of names).
Proof.
  rewrite clean_names_map. split; [|split].
  - rewrite length_map. unfold enumerate.
    rewrite length_combine, length_seq. lia.
  - intros k nm H. unfold enumerate.
    rewrite nth_error_map, (nth_error_enumerate_from names 0 k nm H).
    cbn [option_map fst snd Nat.add]. rewrite sanitize_firstn. reflexivity.
  - apply List.Forall_forall. intros n Hn.
    apply in_map_iff in Hn. destruct Hn as [[i nm] [<- _]].
    apply sanitize_bounds. simpl. discriminate.
Qed.

(** ** The summary of a run *)

Section SummaryFacts.

Variable W : Type.
Variable remote : Request -> W -> Reply * W.
Variable cluster_oracle : list Item -> W -> Res (list Group) * W.
Variable strptime_utc : str -> option Z.
Variable fromisoformat : str -> option Z.

Lemma after_action_acc cfg names r a w a' w' t :
  after_action W remote cfg names r a w = (Ret a', w', t) ->
  acc_combined a' = acc_combined a
  /\ moved a'
     = (moved a + (if relocates cfg then Z.of_nat (length r) else 0))%Z
  /\ acc_moved_items a'
     = acc_moved_items a
       ++ (if relocates cfg then map (display_name names) r else [])
  /\ archived a'
     = (archived a + (if archives cfg then Z.of_nat (length r) else 0))%Z
  /\ acc_archived_items a'
     = acc_archived_items a
       ++ (if archives cfg then map (display_name names) r else []).
Proof.
  unfold after_action, archives, relocates. destruct r as [|c r].
  - intros H. inversion H; subst.
    destruct (_ && _); cbn [negb andb]; [|destruct (str_eqb _ _)];
      simpl; rewrite ?app_nil_r, ?Z.add_0_r; auto.
  - destruct (_ && _); cbn [negb andb].
    + intros H. inv_bind H as u w1 Hm Hr. inversion Hr; subst.
      simpl. rewrite ?app_nil_r, ?Z.add_0_r. auto.
    + destruct (str_eqb _ _).
      * intros H. inv_bind H as u w1 Hm Hr. inversion Hr; subst.
        simpl. rewrite ?app_nil_r, ?Z.add_0_r. auto.
      * intros H. inversion H; subst.
        simpl. rewrite ?app_nil_r, ?Z.add_0_r. auto.
Qed.

Lemma listed_children_snoc combined (p : str) (l : list str) :
  listed_children (combined ++ [(p, l)]) = listed_children combined ++ l.
Proof.
  unfold listed_children. rewrite map_app, concat_app. simpl.
  rewrite app_nil_r. reflexivity.
Qed.

Lemma consolidate_consistent cfg names a parent children existing
    w a' w' t :
  consolidate W remote cfg names a parent children existing w
    = (Ret a', w', t) ->
  acc_consistent cfg a ->
  acc_consistent cfg a'
  /\ (length (acc_combined a') <= S (length (acc_combined a)))%nat.
Proof.
  unfold consolidate. cbv zeta. intros H (Hm & Ha & Hml & Hal & Hne).
  inv_bind H as ae w1 Hcreate Hrest.
  inv_bind Hrest as a3 w2 Hafter Hsleep.
  inv_bind Hsleep as u w3 Hs Hr. inversion Hr; subst a'. clear Hs Hr.
  assert (Hsame : moved (fst ae) = moved a /\ archived (fst ae) = archived a
                  /\ acc_combined (fst ae) = acc_combined a
                  /\ acc_moved_items (fst ae) = acc_moved_items a
                  /\ acc_archived_items (fst ae) = acc_archived_items a).
  { destruct (pending_of names existing children).
    - inversion Hcreate; subst. simpl. auto.
    - inv_bind Hcreate as u' w4 Hc Hr. inversion Hr; subst. simpl. auto. }
  clear Hcreate. destruct Hsame as (Em & Ea & Ec & Eml & Eal).
  apply after_action_acc in Hafter.
  destruct Hafter as (Hc3 & Hm3 & Hml3 & Ha3 & Hal3).
  destruct (represented_of names (snd ae) _ children) as [|c r] eqn:Erep.
  - rewrite Ec in Hc3. rewrite Em in Hm3. rewrite Ea in Ha3.
    rewrite Eml in Hml3. rewrite Eal in Hal3.
    split; [|rewrite Hc3; lia].
    unfold acc_consistent. rewrite Hc3, Hm3, Hml3, Ha3, Hal3.
    destruct (relocates cfg), (archives cfg); simpl;
      rewrite ?app_nil_r, ?Z.add_0_r; auto.
  - cbn [acc_combined moved archived acc_moved_items acc_archived_items]
      in Hc3, Hm3, Hml3, Ha3, Hal3.
    rewrite Ec in Hc3. rewrite Em in Hm3. rewrite Ea in Ha3.
    rewrite Eml in Hml3. rewrite Eal in Hal3.
    split.
    + unfold acc_consistent.
      rewrite Hc3, Hm3, Hml3, Ha3, Hal3, listed_children_snoc.
      repeat split.
      * destruct (relocates cfg); rewrite length_app, ?length_map; simpl length; lia.
      * destruct (archives cfg); rewrite length_app, ?length_map; simpl length; lia.
      * rewrite Hml. destruct (relocates cfg); reflexivity.
      * rewrite Hal. destruct (archives cfg); reflexivity.
      * apply Forall_app. split; [exact Hne|].
        constructor; [simpl; discriminate|constructor].
    + rewrite Hc3, length_app. simpl. lia.
Qed.

Lemma process_groups_consistent cfg names groups :
  forall a w a' w' t,
    process_groups W remote cfg names a groups w = (Ret a', w', t) ->
    acc_consistent cfg a ->
    acc_consistent cfg a'
    /\ (length (acc_combined a')
        <= length (acc_combined a) + length groups)%nat.
Proof.
  induction groups as [|g groups IH]; intros a w a' w' t H Hinv;
    simpl in H.
  - inversion H; subst. split; [exact Hinv|lia].
  - inv_bind H as a1 w1 Hg Hrest.
    assert (Hstep : acc_consistent cfg a1
                    /\ (length (acc_combined a1)
                        <= S (length (acc_combined a)))%nat).
    { unfold process_group in Hg.
      destruct (item_ids_oldest_first g) as [|parent [|c rest]];
        try (inversion Hg; subst; split; [exact Hinv|lia]).
      inv_bind Hg as e w2 Hfetch Hcons.
      exact (consolidate_consistent _ _ _ _ _ _ _ _ _ _ Hcons Hinv). }
    destruct Hstep as [Hinv1 Hlen1].
    destruct (IH _ _ _ _ _ Hrest Hinv1) as [Hinv' Hlen'].
    split; [exact Hinv'|]. cbn [length]. lia.
Qed.

(** X22.  The lists and the counters of a returned summary agree:
    [moved_originals] and [archived_originals] are the lengths of
    [moved_items] and [archived_items]; [moved_items] is the children of
    [combined_items] in order when the after-action relocates
    ([AFTER_ACTION] is "move" and [MOVE_GROUP_ID] is not empty) and empty
    otherwise, [archived_items] likewise when [AFTER_ACTION] is "archive";
    no entry of [combined_items] has an empty list of children, and there
    is at most one entry for each processed group. *)
Theorem summary_lists_agree cfg items w s w' t :
  main W remote cluster_oracle strptime_utc fromisoformat cfg items w
    = (Ret s, w', t) ->
  moved_originals s = Z.of_nat (length (moved_items s))
  /\ archived_originals s = Z.of_nat (length (archived_items s))
  /\ moved_items s
     = (if relocates cfg then listed_children (combined_items s) else [])
  /\ archived_items s
     = (if archives cfg then listed_children (combined_items s) else [])
  /\ Forall (fun pc => snd pc <> []) (combined_items s)
  /\ (Z.of_nat (length (combined_items s)) <= processed_groups s)%Z.
Proof.
  intros H. unfold main in H.
  inv_bind H as groups w1 Hsel Hrest. inv_bind Hrest as a w2 Hrun Hret.
  inversion Hret; subst; clear Hret.
  cbn [moved_originals archived_originals moved_items archived_items
       combined_items processed_groups].
  apply process_groups_consistent in Hrun.
  - destruct Hrun as [(Hm & Ha & Hml & Hal & Hne) Hlen].
    simpl in Hlen. repeat split; auto. lia.
  - unfold acc_consistent, acc0. simpl.
    destruct (relocates cfg), (archives cfg); repeat split; auto.
Qed.

End SummaryFacts.

(** X22 on the two duplicates with [AFTER_ACTION = "archive"]: the child
    is archived and listed twice, as in [combined_items]. *)
Lemma summary_lists_agree_witness :
  let cfg := config "exact" "archive" "" 2 in
  let run := main unit remote_ok no_clusters no_parse no_parse cfg
               two_duplicates tt in
  exists s,
    fst (fst run) = Ret s
    /\ combined_items s
       = [(lit "Site Visit Request",
           [lit "RE: Site Visit Request"; lit "RE: Site Visit Request"])]
    /\ moved_originals s = Z.of_nat (length (moved_items s))
    /\ archived_originals s = Z.of_nat (length (archived_items s))
    /\ moved_items s
       = (if relocates cfg then listed_children (combined_items s) else [])
    /\ archived_items s
       = (if archives cfg then listed_children (combined_items s) else [])
    /\ Forall (fun pc => snd pc <> []) (combined_items s)
    /\ (Z.of_nat (length (combined_items s)) <= processed_groups s)%Z.
Proof.
  cbv zeta.
  exists (match fst (fst (main unit remote_ok no_clusters no_parse no_parse
                            (config "exact" "archive" "" 2)
                            two_duplicates tt))
          with Ret s => s | Exc _ => empty_summary end).
  split; [vm_compute; reflexivity|].
  split; [vm_compute; reflexivity|].
  refine (summary_lists_agree unit remote_ok no_clusters no_parse no_parse
            (config "exact" "archive" "" 2) two_duplicates tt _ tt
            (snd (main unit remote_ok no_clusters no_parse no_parse
                    (config "exact" "archive" "" 2) two_duplicates tt)) _).
  vm_compute. reflexivity.
Defined.

(** ** The clustering pass *)

Section ClusteringFacts.

Variable similar : nat -> nat -> bool.

Lemma place_some (i : nat) (clusters clusters' : list (list nat)) :
  place similar i clusters = Some clusters' ->
  exists l1 cl l2,
    clusters = l1 ++ cl :: l2
    /\ clusters' = l1 ++ (cl ++ [i]) :: l2
    /\ similar i (hd 0%nat cl) = true
    /\ Forall (fun c => similar i (hd 0%nat c) = false) l1.
Proof.
  revert clusters'. induction clusters as [|cl rest IH]; intros clusters' H;
    simpl in H; [discriminate|].
  destruct (similar i (hd 0%nat cl)) eqn:E.
  - inversion H; subst. exists [], cl, rest. repeat split; auto.
  - destruct (place similar i rest) as [rest'|]; [|discriminate].
    inversion H; subst.
    destruct (IH rest' eq_refl) as (l1 & c & l2 & -> & -> & Hs & Hf).
    exists (cl :: l1), c, l2. repeat split; auto.
Qed.

Lemma place_none (i : nat) (clusters : list (list nat)) :
  place similar i clusters = None ->
  Forall (fun c => similar i (hd 0%nat c) = false) clusters.
Proof.
  induction clusters as [|cl rest IH]; intros H; simpl in H; [constructor|].
  destruct (similar i (hd 0%nat cl)) eqn:E; [discriminate|].
  destruct (place similar i rest); [discriminate|].
  constructor; [exact E|apply IH; reflexivity].
Qed.

Lemma sorted_snoc (l : list nat) (i : nat) :
  StronglySorted lt l -> Forall (fun x => (x < i)%nat) l ->
  StronglySorted lt (l ++ [i]).
Proof.
  induction 1 as [|x l Hl IH Hx]; intros Hlt; simpl.
  - repeat constructor.
  - inversion Hlt; subst. constructor; [apply IH; assumption|].
    apply Forall_app. split; [exact Hx|]. constructor; [assumption|constructor].
Qed.

Lemma first_fit_extend (i : nat) (l1 : list (list nat)) cl l2 :
  cl <> [] ->
  Forall (fun c => similar i (hd 0%nat c) = false) l1 ->
  first_fit similar (l1 ++ cl :: l2) ->
  first_fit similar (l1 ++ (cl ++ [i]) :: l2).
Proof.
  intros Hne. induction l1 as [|c l1 IH]; intros Hf H; simpl in *.
  - destruct cl as [|rep m]; [contradiction|]. exact H.
  - inversion Hf; subst. destruct H as [Hc Hrest]. split; [|auto].
    apply Forall_app in Hc. destruct Hc as [Hc1 Hc2].
    inversion Hc2; subst.
    apply Forall_app. split; [exact Hc1|].
    constructor; [|assumption].
    apply Forall_app. split; [assumption|].
    constructor; [assumption|constructor].
Qed.

Lemma first_fit_new (i : nat) (clusters : list (list nat)) :
  Forall (fun c => similar i (hd 0%nat c) = false) clusters ->
  first_fit similar clusters ->
  first_fit similar (clusters ++ [[i]]).
Proof.
  induction clusters as [|c l IH]; intros Hf H; simpl in *.
  - split; constructor.
  - inversion Hf; subst. destruct H as [Hc Hrest]. split; [|auto].
    apply Forall_app. split; [exact Hc|].
    constructor; [|constructor]. constructor; [assumption|constructor].
Qed.

Lemma cluster_step_invariant (k : nat) (clusters : list (list nat)) :
  Permutation (concat clusters) (seq 0 k) ->
  Forall (led_by_head similar) clusters ->
  first_fit similar clusters ->
  Permutation (concat (cluster_step similar clusters k)) (seq 0 (S k))
  /\ Forall (led_by_head similar) (cluster_step similar clusters k)
  /\ first_fit similar (cluster_step similar clusters k).
Proof.
  intros Hp Hl Hf. rewrite seq_S. cbn [Nat.add]. unfold cluster_step.
  destruct (place similar k clusters) as [clusters'|] eqn:E.
  - apply place_some in E.
    destruct E as (l1 & cl & l2 & -> & -> & Hs & Hn).
    apply Forall_app in Hl. destruct Hl as [Hl1 Hl2].
    inversion Hl2 as [|? ? Hcl Hl2']; subst.
    rewrite concat_app in Hp. cbn [concat] in Hp.
    assert (Hlt : Forall (fun x => (x < k)%nat) cl).
    { apply List.Forall_forall. intros x Hx.
      assert (Hin : In x (seq 0 k)).
      { eapply Permutation_in; [exact Hp|].
        apply in_or_app. right. apply in_or_app. left. exact Hx. }
      apply in_seq in Hin. lia. }
    split; [|split].
    + rewrite concat_app. cbn [concat]. rewrite <- app_assoc.
      cbn [app]. rewrite app_assoc.
      eapply perm_trans; [apply Permutation_sym, Permutation_middle|].
      eapply perm_trans; [|apply Permutation_cons_append].
      apply perm_skip. rewrite <- app_assoc. exact Hp.
    + apply Forall_app. split; [exact Hl1|]. constructor; [|exact Hl2'].
      destruct cl as [|rep m]; [destruct Hcl|].
      destruct Hcl as [Hsorted Hsim]. cbn [hd] in Hs. split.
      * exact (sorted_snoc (rep :: m) k Hsorted Hlt).
      * apply Forall_app. split; [exact Hsim|].
        constructor; [exact Hs|constructor].
    + apply first_fit_extend; try assumption.
      destruct cl; [destruct Hcl|discriminate].
  - apply place_none in E. split; [|split].
    + rewrite concat_app. cbn [concat]. rewrite app_nil_r.
      apply Permutation_app_tail. exact Hp.
    + apply Forall_app. split; [exact Hl|].
      constructor; [|constructor].
      split; repeat constructor.
    + apply first_fit_new; assumption.
Qed.

Lemma greedy_clusters_invariant (n : nat) :
  Permutation (concat (greedy_clusters similar n)) (seq 0 n)
  /\ Forall (led_by_head similar) (greedy_clusters similar n)
  /\ first_fit similar (greedy_clusters similar n).
Proof.
  unfold greedy_clusters. induction n as [|n IH].
  - simpl. repeat split; constructor.
  - destruct IH as (Hp & Hl & Hf).
    pose proof (cluster_step_invariant n _ Hp Hl Hf) as Hstep.
    rewrite seq_S, fold_left_app. cbn [Nat.add fold_left].
    rewrite seq_S in Hstep. exact Hstep.
Qed.

(** X23.  The clustering pass over [n] vectors puts every index
    [0 .. n-1] into exactly one cluster.  A cluster is never empty, lists
    its indices in increasing order, and each of its later members is
    similar to its first member; no member of a cluster is similar to the
    first member of a cluster that comes before it in the list (first
    fit). *)
Theorem greedy_clusters_partition (n : nat) :
  Permutation (concat (greedy_clusters similar n)) (seq 0 n)
  /\ List.NoDup (concat (greedy_clusters similar n))
  /\ Forall (led_by_head similar) (greedy_clusters similar n)
  /\ first_fit similar (greedy_clusters similar n).
Proof.
  destruct (greedy_clusters_invariant n) as (Hp & Hl & Hf).
  repeat split; try assumption.
  eapply Permutation_NoDup; [apply Permutation_sym, Hp|apply seq_NoDup].
Qed.

End ClusteringFacts.

(** ** The groups of the clusterer *)

Lemma lookup_all_some {A} (l : list A) (d : A) (js : list nat) :
  Forall (fun j => (j < length l)%nat) js ->
  lookup_all l js = Some (map (fun j => nth j l d) js).
Proof.
  induction 1 as [|j js Hj _ IH]; simpl; [reflexivity|].
  rewrite (nth_error_nth' l d Hj), IH. reflexivity.
Qed.

Lemma group_of_cluster_some (shaped : list ShapedAI) (cl : list nat) :
  cl <> [] ->
  Forall (fun j => (j < length shaped)%nat) cl ->
  group_of_cluster shaped cl = Some (group_of_indices shaped cl).
Proof.
  intros Hne Hr. unfold group_of_cluster, group_of_indices.
  rewrite (lookup_all_some (map ai_id shaped) [] cl)
    by (rewrite length_map; exact Hr).
  destruct cl as [|j cl]; [contradiction|]. cbn [hd].
  inversion Hr; subst.
  rewrite (nth_error_nth' (map ai_name shaped) []) by (rewrite length_map; assumption).
  rewrite length_map. reflexivity.
Qed.

Lemma groups_of_clusters_some (shaped : list ShapedAI)
    (clusters : list (list nat)) :
  Forall (Forall (fun j => (j < length shaped)%nat)) clusters ->
  groups_of_clusters shaped clusters
  = Some (map (group_of_indices shaped)
            (List.filter (fun cl => negb (length cl <? 2)%nat) clusters)).
Proof.
  induction 1 as [|cl rest Hcl _ IH]; simpl; [reflexivity|].
  destruct (length cl <? 2)%nat eqn:E; simpl; [exact IH|].
  rewrite group_of_cluster_some, IH; [reflexivity| |exact Hcl].
  intros ->. discriminate E.
Qed.

Lemma NoDup_app_sub {A} (x k k' : list A) :
  List.NoDup (x ++ k) -> List.NoDup k' -> incl k' k -> List.NoDup (x ++ k').
Proof.
  intros H Hk' Hi. induction x as [|a x IH]; simpl in *; [exact Hk'|].
  inversion H as [|? ? Ha Hnd]; subst. constructor; [|exact (IH Hnd)].
  intros Hin. apply Ha. apply in_app_or in Hin. apply in_or_app.
  destruct Hin as [Hin|Hin]; [left; exact Hin|right; apply Hi; exact Hin].
Qed.

Lemma incl_concat_filter {A} (p : list A -> bool) (l : list (list A)) :
  incl (concat (List.filter p l)) (concat l).
Proof.
  intros x Hx. apply in_concat in Hx. destruct Hx as (c & Hc & Hx).
  apply filter_In in Hc. apply in_concat. exists c. tauto.
Qed.

Lemma NoDup_concat_filter {A} (p : list A -> bool) (l : list (list A)) :
  List.NoDup (concat l) -> List.NoDup (concat (List.filter p l)).
Proof.
  induction l as [|c l IH]; simpl; intros H; [constructor|].
  assert (Hl : List.NoDup (concat l)) by (eapply NoDup_app_remove_l; exact H).
  destruct (p c); [|exact (IH Hl)]. simpl.
  eapply NoDup_app_sub; [exact H|exact (IH Hl)|apply incl_concat_filter].
Qed.

Lemma NoDup_map_nth {A} (l : list A) (d : A) (js : list nat) :
  List.NoDup l -> List.NoDup js ->
  Forall (fun j => (j < length l)%nat) js ->
  List.NoDup (map (fun j => nth j l d) js).
Proof.
  intros Hl Hjs Hr. induction js as [|j js IH]; simpl; [constructor|].
  inversion Hjs as [|? ? Hj Hnd]; subst. inversion Hr; subst.
  constructor; [|apply IH; assumption].
  intros Hin. apply in_map_iff in Hin. destruct Hin as (j' & Heq & Hj').
  assert (j' = j).
  { apply (proj1 (NoDup_nth l d) Hl); [|assumption|exact Heq].
    exact (proj1 (List.Forall_forall _ _) H2 j' Hj'). }
  subst. contradiction.
Qed.

Lemma greedy_clusters_in_range (similar : nat -> nat -> bool) (n : nat) :
  Forall (Forall (fun j => (j < n)%nat)) (greedy_clusters similar n).
Proof.
  destruct (greedy_clusters_invariant similar n) as (Hp & _ & _).
  apply List.Forall_forall. intros cl Hcl.
  apply List.Forall_forall. intros j Hj.
  assert (Hin : In j (seq 0 n)).
  { eapply Permutation_in; [exact Hp|]. apply in_concat. exists cl. tauto. }
  apply in_seq in Hin. lia.
Qed.

(** X24.  When the embedding service has returned one vector per name,
    the clusterer returns groups (no index is out of range) such that:
    every group has at least two member ids and its [count] is their
    number; every member id is the id of a shaped item; the label has at
    most 80 characters; when the shaped items have distinct ids, no id is
    in two groups or twice in one; and the groups are ordered by
    decreasing [count], then by increasing label. *)
Theorem cluster_groups_sound (similar : nat -> nat -> bool)
    (shaped : list ShapedAI) :
  exists groups,
    cluster_groups similar (length shaped) shaped = Some groups
    /\ (forall g, In g groups ->
          (2 <= count g)%Z
          /\ count g = Z.of_nat (length (item_ids_oldest_first g))
          /\ (length (g_subject_norm g) <= 80)%nat
          /\ forall id, In id (item_ids_oldest_first g) ->
                        In id (map ai_id shaped))
    /\ (List.NoDup (map ai_id shaped) ->
        List.NoDup (concat (map item_ids_oldest_first groups)))
    /\ StronglySorted (fun g h => key_le (group_key g) (group_key h)) groups.
Proof.
  pose proof (greedy_clusters_in_range similar (length shaped)) as Hr.
  destruct (greedy_clusters_invariant similar (length shaped))
    as (Hp & _ & _).
  unfold cluster_groups. rewrite (groups_of_clusters_some shaped _ Hr).
  cbn [option_map]. eexists. split; [reflexivity|].
  set (big := List.filter (fun cl => negb (length cl <? 2)%nat)
                (greedy_clusters similar (length shaped))).
  split; [|split].
  - intros g Hg.
    apply (Permutation_in _ (sort_by_perm group_key _)) in Hg.
    apply in_map_iff in Hg. destruct Hg as (cl & <- & Hcl).
    apply filter_In in Hcl. destruct Hcl as [Hcl Hbig].
    apply negb_true_iff, Nat.ltb_ge in Hbig.
    cbn [group_of_indices count item_ids_oldest_first g_subject_norm].
    rewrite length_map, length_firstn. repeat split; try lia.
    intros id Hid. apply in_map_iff in Hid. destruct Hid as (j & <- & Hj).
    apply nth_In. rewrite length_map.
    pose proof (proj1 (List.Forall_forall _ _) Hr cl Hcl) as Hcr.
    exact (proj1 (List.Forall_forall _ _) Hcr j Hj).
  - intros Hnd.
    eapply Permutation_NoDup;
      [apply Permutation_sym, concat_map_perm, sort_by_perm|].
    rewrite map_map. cbn [group_of_indices item_ids_oldest_first].
    rewrite <- (map_map (fun cl => cl)
                  (map (fun j => nth j (map ai_id shaped) []))),
      map_id, <- concat_map.
    apply NoDup_map_nth; [exact Hnd| |].
    + apply NoDup_concat_filter.
      eapply Permutation_NoDup; [apply Permutation_sym, Hp|apply seq_NoDup].
    + apply List.Forall_forall. intros j Hj. rewrite length_map.
      apply in_concat in Hj. destruct Hj as (cl & Hcl & Hj).
      apply filter_In in Hcl. destruct Hcl as [Hcl _].
      pose proof (proj1 (List.Forall_forall _ _) Hr cl Hcl) as Hcr.
      exact (proj1 (List.Forall_forall _ _) Hcr j Hj).
  - apply sort_by_sorted.
Qed.

(** ** The items that are embedded *)

Lemma sorted_app_le {A} (R : A -> A -> Prop) (l1 l2 : list A) :
  StronglySorted R (l1 ++ l2) ->
  forall a b, In a l1 -> In b l2 -> R a b.
Proof.
  induction l1 as [|x l1 IH]; simpl; intros H a b Ha Hb; [destruct Ha|].
  inversion H as [|? ? Hs Hx]; subst. destruct Ha as [->|Ha].
  - apply (proj1 (List.Forall_forall _ _) Hx). apply in_or_app. right.
    exact Hb.
  - exact (IH Hs a b Ha Hb).
Qed.

Section EmbeddedFacts.

Variable strptime_utc : str -> option Z.
Variable fromisoformat : str -> option Z.

(** X25.  The clusterer works on the items sorted oldest first by
    [(created_at_ts, id)] and keeps the end of that list: with a positive
    limit, the [limit] newest items (all of them when there are fewer),
    and no dropped item comes after a kept one; with the limit 0 nothing
    is dropped: every item is kept. *)
Theorem embedded_items_newest (limit : Z) (items : list Item) :
  let all := _shape_for_ai strptime_utc fromisoformat items in
  let kept := embedded_items strptime_utc fromisoformat limit items in
  Permutation (map ai_id all) (map item_id items)
  /\ StronglySorted (fun x y => key_le (ai_key x) (ai_key y)) all
  /\ (exists dropped,
        all = dropped ++ kept
        /\ forall d k, In d dropped -> In k kept ->
                       key_le (ai_key d) (ai_key k))
  /\ ((0 < limit)%Z ->
      length kept = Nat.min (Z.to_nat limit) (length items))
  /\ (limit = 0%Z -> kept = all).
Proof.
  cbv zeta. unfold embedded_items.
  set (all := _shape_for_ai strptime_utc fromisoformat items).
  assert (Hsorted : StronglySorted (fun x y => key_le (ai_key x) (ai_key y))
                      all) by apply sort_by_sorted.
  assert (Hlen : length all = length items).
  { unfold all, _shape_for_ai.
    rewrite (Permutation_length (sort_by_perm ai_key _)).
    apply length_map. }
  assert (Hsuffix : exists k, last_items limit all = skipn k all).
  { unfold last_items. destruct (0 <? limit)%Z; eexists; reflexivity. }
  split; [|split; [exact Hsorted|split; [|split]]].
  - unfold all, _shape_for_ai.
    eapply perm_trans; [apply Permutation_map, sort_by_perm|].
    rewrite map_map. cbn [ai_id]. apply Permutation_refl.
  - destruct Hsuffix as [k ->]. exists (firstn k all).
    split; [symmetry; apply firstn_skipn|].
    apply sorted_app_le. rewrite firstn_skipn. exact Hsorted.
  - intros Hpos. unfold last_items.
    rewrite (proj2 (Z.ltb_lt 0 limit) Hpos), length_skipn, Hlen. lia.
  - intros ->. reflexivity.
Qed.

End EmbeddedFacts.

(** ** The stored override of [GROUPING] *)

Section OverrideFacts.

Variable W : Type.
Variable cluster_oracle : list Item -> W -> Res (list Group) * W.
Variable strptime_utc : str -> option Z.
Variable fromisoformat : str -> option Z.

(** X26.  A non-empty [GROUPING] setting of the store replaces the value
    of the environment as it is written, without the lower-casing that the
    environment value gets: the resolved mode is the stored text, so a
    stored text other than "exact" and "ai" in these exact letters (such
    as "Exact") selects the hybrid plan.  Without a stored setting, or
    with an empty one, the mode is the environment value in lower case
    ("hybrid" when it is unset). *)
Theorem stored_grouping_is_case_sensitive (env : option str)
    (db_overrides : gmap str str) (v : str) cfg items :
  db_overrides !! lit "GROUPING" = Some v -> v <> [] ->
  GROUPING cfg = resolve_GROUPING env db_overrides ->
  GROUPING cfg = v
  /\ (v <> lit "exact" -> v <> lit "ai" ->
      select_groups W cluster_oracle strptime_utc fromisoformat cfg items
      = plan_hybrid W cluster_oracle strptime_utc fromisoformat cfg items)
  /\ (forall db,
        db !! lit "GROUPING" = None \/ db !! lit "GROUPING" = Some [] ->
        resolve_GROUPING env db = lower (default (lit "hybrid") env)).
Proof.
  intros Hv Hne Hcfg.
  assert (E : GROUPING cfg = v).
  { rewrite Hcfg. unfold resolve_GROUPING, _get. unfold str in *.
    rewrite Hv, (str_eqb_neq _ _ Hne). reflexivity. }
  split; [exact E|split].
  - intros He Ha. unfold select_groups.
    rewrite E, (str_eqb_neq _ _ He), (str_eqb_neq _ _ Ha). reflexivity.
  - intros db [Hdb|Hdb]; unfold resolve_GROUPING, _get; unfold str in *;
      rewrite Hdb; reflexivity.
Qed.

End OverrideFacts.

(** X26 on the stored setting "EXACT": the hybrid plan is selected, while
    the same text in the environment selects the exact plan. *)
Lemma stored_grouping_is_case_sensitive_witness :
  let db : gmap str str := <[lit "GROUPING" := lit "EXACT"]> ∅ in
  let cfg := mkConfig (resolve_GROUPING None db) 2 8 25 (lit "none") [] in
  resolve_GROUPING (Some (lit "EXACT")) ∅ = lit "exact"
  /\ GROUPING cfg = lit "EXACT"
  /\ (lit "EXACT" <> lit "exact" -> lit "EXACT" <> lit "ai" ->
      select_groups unit no_clusters no_parse no_parse cfg three_items
      = plan_hybrid unit no_clusters no_parse no_parse cfg three_items)
  /\ (forall db',
        db' !! lit "GROUPING" = None \/ db' !! lit "GROUPING" = Some [] ->
        resolve_GROUPING None db' = lower (default (lit "hybrid") None)).
Proof.
  cbv zeta. split; [vm_compute; reflexivity|].
  apply (stored_grouping_is_case_sensitive unit no_clusters no_parse no_parse
           None (<[lit "GROUPING" := lit "EXACT"]> ∅) (lit "EXACT")).
  - apply lookup_insert_eq.
  - discriminate.
  - reflexivity.
Defined.

(** ** The activity log *)

Lemma log_chars_app (a b : list str) :
  log_chars (a ++ b) = (log_chars a + log_chars b)%Z.
Proof. induction a as [|x a IH]; simpl; [reflexivity|]. rewrite IH. lia. Qed.

Lemma log_chars_nonneg (log : list str) : (0 <= log_chars log)%Z.
Proof. induction log as [|x log IH]; simpl; lia. Qed.

Lemma drop_oldest_spec (log : list str) :
  forall total, total = log_chars log ->
  exists dropped,
    log = dropped ++ drop_oldest total log
    /\ (log_chars (drop_oldest total log) <= _MAX_LOG_CHARS)%Z
    /\ (forall d rest, dropped = rest ++ [d] ->
          (_MAX_LOG_CHARS < log_chars (d :: drop_oldest total log))%Z)
    /\ ((total <= _MAX_LOG_CHARS)%Z -> dropped = []).
Proof.
  induction log as [|x log IH]; intros total Ht.
  - exists []. simpl. repeat split; auto.
    + unfold _MAX_LOG_CHARS. lia.
    + intros d rest H. destruct rest; discriminate H.
  - cbn [drop_oldest]. destruct (_MAX_LOG_CHARS <? total)%Z eqn:E.
    + apply Z.ltb_lt in E.
      assert (Hrest : (total - Z.of_nat (length x))%Z = log_chars log)
        by (rewrite Ht; simpl; lia).
      destruct (IH _ Hrest) as (dropped & Hlog & Hle & Hmin & _).
      exists (x :: dropped). repeat split.
      * simpl. f_equal. exact Hlog.
      * exact Hle.
      * intros d rest H. destruct rest as [|y rest]; simpl in H.
        -- injection H as Hx Hd. rewrite Hd in Hlog. simpl in Hlog.
           rewrite <- Hlog, <- Hx.
           change (log_chars (x :: log)) with
             (Z.of_nat (length x) + log_chars log)%Z. lia.
        -- injection H as Hx Hd. apply (Hmin d rest). exact Hd.
      * lia.
    + apply Z.ltb_ge in E. exists []. repeat split; auto.
      * rewrite <- Ht. exact E.
      * intros d rest H. destruct rest; discriminate H.
Qed.

(** X27.  After [_append_log] has added a non-empty text, the log is the
    end of the old log followed by the text: entries are dropped only from
    the oldest end; what is kept has at most [_MAX_LOG_CHARS] characters;
    no more is dropped than needed (with the last dropped entry the log
    would be over the limit); nothing is dropped when old log and text
    fit; and a text that alone is over the limit leaves the log empty,
    the text itself being dropped too. *)
Theorem activity_log_bounded (text : str) (log : list str) :
  text <> [] ->
  exists dropped,
    log ++ [text] = dropped ++ _append_log text log
    /\ (log_chars (_append_log text log) <= _MAX_LOG_CHARS)%Z
    /\ (forall d rest, dropped = rest ++ [d] ->
          (_MAX_LOG_CHARS < log_chars (d :: _append_log text log))%Z)
    /\ ((log_chars (log ++ [text]) <= _MAX_LOG_CHARS)%Z -> dropped = [])
    /\ ((_MAX_LOG_CHARS < Z.of_nat (length text))%Z ->
        _append_log text log = []).
Proof.
  intros Hne.
  assert (E : _append_log text log
              = drop_oldest (log_chars (log ++ [text])) (log ++ [text])).
  { unfold _append_log. destruct text; [contradiction|reflexivity]. }
  rewrite E.
  destruct (drop_oldest_spec (log ++ [text]) _ eq_refl)
    as (dropped & Hlog & Hle & Hmin & Hfit).
  exists dropped. repeat split; auto.
  intros Hbig.
  destruct (drop_oldest (log_chars (log ++ [text])) (log ++ [text]))
    as [|y kept] eqn:K; [reflexivity|].
  destruct (@exists_last _ (y :: kept)) as (kept' & a & Hk); [discriminate|].
  rewrite Hk, app_assoc in Hlog. apply app_inj_tail in Hlog.
  destruct Hlog as [_ <-].
  rewrite Hk, log_chars_app in Hle. simpl in Hle.
  pose proof (log_chars_nonneg kept'). lia.
Qed.

(** X27 on a log of one entry. *)
Lemma activity_log_bounded_witness :
  _append_log (lit "second") [lit "first"] = [lit "first"; lit "second"]
  /\ exists dropped,
       [lit "first"] ++ [lit "second"]
       = dropped ++ _append_log (lit "second") [lit "first"]
       /\ (log_chars (_append_log (lit "second") [lit "first"])
           <= _MAX_LOG_CHARS)%Z
       /\ (forall d rest, dropped = rest ++ [d] ->
             (_MAX_LOG_CHARS
              < log_chars (d :: _append_log (lit "second") [lit "first"]))%Z)
       /\ ((log_chars ([lit "first"] ++ [lit "second"]) <= _MAX_LOG_CHARS)%Z
           -> dropped = [])
       /\ ((_MAX_LOG_CHARS < Z.of_nat (length (lit "second")))%Z ->
           _append_log (lit "second") [lit "first"] = []).
Proof.
  split; [vm_compute; reflexivity|].
  apply (activity_log_bounded (lit "second") [lit "first"]).
  discriminate.
Defined.
